(** * The buildkite agent core, checked against its specification

  A shallow embedding of the parts of the agent that the specification
  makes claims about:

  - [shell/environment.go]      the environment map ([Module Shell]);
  - [shell/command.go]          the shortening of arguments ([Module Shell]);
  - [agent/plugin.go]           plugin locations, merging and configuration
                                flattening ([Module Agent]);
  - [agent/header_times_streamer.go]  the header-time flush ([Module Agent]);
  - [agent/artifact_uploader.go]      artifact collection ([Module Agent]);
  - [agent/s3_downloader.go]    the parts of a bucket ([Module S3]);
  - [process/process.go]        the child-process runner ([Module Process]);
  - [process/run.go]            the output of a command ([Module Process]).

  Go strings are byte strings; they are modelled by [string] (one [ascii]
  per byte).  The few calls into the Go standard library are modelled in
  [Module Go].  What lies outside the program (Unicode case tables, the
  operating system, the file system, net/url) is taken as an explicit
  parameter, bundled in a record.

  All definitions come first; the lemmas and theorems follow. *)

From Stdlib Require Import ZArith NArith Ascii String.
From Stdlib Require Import DecimalString DecimalZ DecimalPos.
From stdpp Require Import base option list sorting strings gmap.

Set Warnings "-register-all".

(* ===================================================================== *)
(** * Part I: definitions                                                 *)
(* ===================================================================== *)

(** ** The Go standard library, as far as the program uses it *)

Module Go.

(** *** Bytes *)

Definition code (c : ascii) : N := N_of_ascii c.

Definition between (lo hi : N) (c : ascii) : bool :=
  ((lo <=? code c) && (code c <=? hi))%N.

Definition isByte (n : N) (c : ascii) : bool := (code c =? n)%N.

Definition isLower : ascii → bool := between 97 122.
Definition isUpper : ascii → bool := between 65 90.
Definition isDigit : ascii → bool := between 48 57.
Definition isLetter (c : ascii) : bool := isLower c || isUpper c.
Definition isAlnum (c : ascii) : bool := isLetter c || isDigit c.

(** [c < utf8.RuneSelf] *)
Definition isASCIIByte (c : ascii) : bool := (code c <? 128)%N.

Definition upperByte (c : ascii) : ascii :=
  if isLower c then ascii_of_N (code c - 32) else c.
Definition lowerByte (c : ascii) : ascii :=
  if isUpper c then ascii_of_N (code c + 32) else c.

Fixpoint all (p : ascii → bool) (s : string) : bool :=
  match s with
  | EmptyString => true
  | String c r => p c && all p r
  end.

Fixpoint mapBytes (f : ascii → ascii) (s : string) : string :=
  match s with
  | EmptyString => EmptyString
  | String c r => String (f c) (mapBytes f r)
  end.

Fixpoint dropWhile (p : ascii → bool) (s : string) : string :=
  match s with
  | EmptyString => EmptyString
  | String c r => if p c then dropWhile p r else s
  end.

(** Longest prefix of bytes satisfying [p], and what follows it. *)
Fixpoint span (p : ascii → bool) (s : string) : string * string :=
  match s with
  | EmptyString => (EmptyString, EmptyString)
  | String c r =>
      if p c then let '(h, t) := span p r in (String c h, t)
      else (EmptyString, s)
  end.

(** One-character strings that cannot be written as a literal. *)
Definition DQUOTE : string := String "034" "".
Definition SQUOTE : string := String "039" "".
Definition BACKSLASH : string := String "092" "".
Definition NEWLINE : string := String "010" "".

(** *** unicode/utf8 *)

Definition cont : ascii → bool := between 128 191.

Definition second3 (a b : ascii) : bool :=
  match code a with
  | 224 => between 160 191 b
  | 237 => between 128 159 b
  | _ => cont b
  end%N.

Definition second4 (a b : ascii) : bool :=
  match code a with
  | 240 => between 144 191 b
  | 244 => between 128 143 b
  | _ => cont b
  end%N.

(** [utf8.DecodeRuneInString]: the width in bytes of the first rune of
    [s]; an invalid or truncated encoding is one byte wide (RuneError). *)
Definition runeWidth (s : string) : nat :=
  match s with
  | EmptyString => 0
  | String a r =>
      if isASCIIByte a then 1
      else if between 194 223 a then
        match r with
        | String b _ => if cont b then 2 else 1
        | _ => 1
        end
      else if between 224 239 a then
        match r with
        | String b (String c _) => if second3 a b && cont c then 3 else 1
        | _ => 1
        end
      else if between 240 244 a then
        match r with
        | String b (String c (String d _)) =>
            if second4 a b && cont c && cont d then 4 else 1
        | _ => 1
        end
      else 1
  end.

(** *** strings.TrimSpace

    [unicode.IsSpace]: the ASCII bytes TAB, LF, VT, FF, CR and SPACE, and
    the runes U+0085, U+00A0, U+1680, U+2000..U+200A, U+2028, U+2029,
    U+202F, U+205F and U+3000, recognised here by their UTF-8 encodings. *)

Definition asciiSpace (c : ascii) : bool := between 9 13 c || isByte 32 c.

(** U+0085 and U+00A0 *)
Definition space2 (a b : ascii) : bool :=
  isByte 194 a && (isByte 133 b || isByte 160 b).

(** U+1680; U+2000..U+200A, U+2028, U+2029, U+202F; U+205F; U+3000 *)
Definition space3 (a b c : ascii) : bool :=
  (isByte 225 a && isByte 154 b && isByte 128 c)
  || (isByte 226 a && isByte 128 b
      && (between 128 138 c || isByte 168 c || isByte 169 c || isByte 175 c))
  || (isByte 226 a && isByte 129 b && isByte 159 c)
  || (isByte 227 a && isByte 128 b && isByte 128 c).

(** A byte of plain text: ASCII and not white space. *)
Definition plain (c : ascii) : bool := isASCIIByte c && negb (asciiSpace c).

(** Drops leading white-space runes; [is2] and [is3] recognise the two-
    and three-byte ones from the bytes in the order they are met. *)
Fixpoint trimRunes (is2 : ascii → ascii → bool)
    (is3 : ascii → ascii → ascii → bool) (s : string) : string :=
  match s with
  | String a r =>
      if asciiSpace a then trimRunes is2 is3 r
      else
        match r with
        | String b r2 =>
            if is2 a b then trimRunes is2 is3 r2
            else
              match r2 with
              | String c r3 =>
                  if is3 a b c then trimRunes is2 is3 r3 else s
              | EmptyString => s
              end
        | EmptyString => s
        end
  | EmptyString => s
  end.

Definition TrimLeftSpace : string → string := trimRunes space2 space3.

(** The same from the right end: the text is reversed, so the bytes of a
    rune are met last byte first. *)
Definition TrimRightSpace (s : string) : string :=
  String.rev
    (trimRunes (λ b a, space2 a b) (λ c b a, space3 a b c) (String.rev s)).

Definition TrimSpace (s : string) : string :=
  TrimRightSpace (TrimLeftSpace s).

(** *** strings.HasPrefix, HasSuffix, Trim, Replace, Join, Split *)

Definition HasPrefix (s p : string) : bool := String.prefix p s.

Definition HasSuffix (s p : string) : bool :=
  String.prefix (String.rev p) (String.rev s).

Fixpoint inSet (cutset : string) (c : ascii) : bool :=
  match cutset with
  | EmptyString => false
  | String d r => Ascii.eqb c d || inSet r c
  end.

(** [strings.Trim] for a cutset of ASCII bytes (the program's only use):
    every leading and every trailing byte of the cutset is removed. *)
Definition Trim (s cutset : string) : string :=
  String.rev
    (dropWhile (inSet cutset) (String.rev (dropWhile (inSet cutset) s))).

Definition TrimPrefix (s p : string) : string :=
  if HasPrefix s p then String.substring (String.length p)
                          (String.length s - String.length p) s
  else s.

(** [strings.Replace s old new (-1)]: every non-overlapping occurrence of
    [old], leftmost first.  [skip] counts the bytes of an occurrence that
    are still to be passed over. *)
Fixpoint replaceFrom (old new : string) (skip : nat) (s : string) : string :=
  match s with
  | EmptyString => EmptyString
  | String c r =>
      match skip with
      | S k => replaceFrom old new k r
      | O =>
          if String.prefix old s
          then new +:+ replaceFrom old new (String.length old - 1) r
          else String c (replaceFrom old new 0 r)
      end
  end.

(** The program only replaces non-empty constants; an empty [old] (which
    Go treats rune by rune) is left alone here. *)
Definition Replace (s old new : string) : string :=
  match old with
  | EmptyString => s
  | _ => replaceFrom old new 0 s
  end.

Definition Join (elems : list string) (sep : string) : string :=
  String.concat sep elems.

(** [strings.Split s sep] for a one-byte separator. *)
Fixpoint Split (s : string) (sep : ascii) : list string :=
  match s with
  | EmptyString => [EmptyString]
  | String c r =>
      if Ascii.eqb c sep then EmptyString :: Split r sep
      else
        match Split r sep with
        | h :: t => String c h :: t
        | [] => [String c EmptyString]
        end
  end.

(** [strings.Count s sub] for a one-byte [sub]. *)
Fixpoint Count (s : string) (sub : ascii) : nat :=
  match s with
  | EmptyString => 0
  | String c r => (if Ascii.eqb c sub then 1 else 0) + Count r sub
  end.

(** *** strings.ToUpper, strings.ToLower

    On a string of ASCII bytes Go maps the letters byte by byte.  Any
    other string goes through [strings.Map] with the Unicode case tables,
    which are not part of the program: they are a parameter. *)

Record Unicode : Type := {
  mapToUpper : string → string;
  mapToLower : string → string
}.

Definition ToUpper (u : Unicode) (s : string) : string :=
  if all isASCIIByte s then mapBytes upperByte s else mapToUpper u s.

Definition ToLower (u : Unicode) (s : string) : string :=
  if all isASCIIByte s then mapBytes lowerByte s else mapToLower u s.

(** *** sort.Strings, strconv.Itoa and the [%d] verb *)

(** The sorted rearrangement of a list under the byte-wise order of
    strings is unique, so any sorting algorithm models [sort.Strings]. *)
Definition SortStrings (l : list string) : list string :=
  merge_sort String.le l.

Definition Itoa (z : Z) : string := NilZero.string_of_int (Z.to_int z).

(** *** regexp: the replacements the program performs *)

(** [\s] of Go's regexp syntax: TAB, LF, FF, CR and SPACE (no VT). *)
Definition reSpace (c : ascii) : bool :=
  isByte 9 c || isByte 10 c || isByte 12 c || isByte 13 c || isByte 32 c.

(** [regexp.MustCompile(p+).ReplaceAllString(s, rep)] for a class [p] of
    ASCII bytes: every maximal run of [p]-bytes becomes one [rep]. *)
Fixpoint replaceRuns (p : ascii → bool) (rep : string) (inRun : bool)
    (s : string) : string :=
  match s with
  | EmptyString => EmptyString
  | String c r =>
      if p c then
        if inRun then replaceRuns p rep true r
        else rep +:+ replaceRuns p rep true r
      else String c (replaceRuns p rep false r)
  end.

(** [regexp.MustCompile(`[^a-zA-Z0-9]`).ReplaceAllString(s, rep)]: the
    class matches one rune at a time, whatever its width. *)
Fixpoint replaceNonAlnum (rep : string) (skip : nat) (s : string) : string :=
  match s with
  | EmptyString => EmptyString
  | String c r =>
      match skip with
      | S k => replaceNonAlnum rep k r
      | O =>
          if isAlnum c then String c (replaceNonAlnum rep 0 r)
          else rep +:+ replaceNonAlnum rep (runeWidth s - 1) r
      end
  end.

(** *** net/url

    [url.Parse] and the [String] method of a URL belong to the standard
    library; the program only reads and writes the fields of the parsed
    URL, so the two functions are parameters.  [Parse] yields [None]
    where Go returns an error. *)

Record URL : Type := {
  Scheme : string;
  Opaque : string;
  User : option string;
  Host : string;
  Path : string;
  RawQuery : string;
  Fragment : string
}.

Record NetURL : Type := {
  Parse : string → option URL;
  Stringify : URL → string
}.

(** *** Abnormal termination *)

Inductive result (A : Type) : Type :=
| Ok (a : A)
| Panic (msg : string).
Global Arguments Ok {A} a.
Global Arguments Panic {A} msg.

(** *** strings.TrimSuffix *)

Definition TrimSuffix (s p : string) : string :=
  if HasSuffix s p
  then String.substring 0 (String.length s - String.length p) s
  else s.

(** *** Text free of a byte *)

(** No byte of [s] is [sep]. *)
Definition free (sep : ascii) (s : string) : bool :=
  all (λ c, negb (Ascii.eqb c sep)) s.

(** *** utf8.ValidString *)

(** Every rune of the text is encoded in full; [skip] counts the bytes
    of a rune that are still to be passed over. *)
Fixpoint validFrom (skip : nat) (s : string) : bool :=
  match s with
  | EmptyString => true
  | String c r =>
      match skip with
      | S k => validFrom k r
      | O =>
          if isASCIIByte c then validFrom 0 r
          else if runeWidth s =? 1 then false
          else validFrom (runeWidth s - 1) r
      end
  end.

Definition ValidString (s : string) : bool := validFrom 0 s.

End Go.

(** ** shell/environment.go *)

Module Shell.

(** What the program reads from its platform: [runtime.GOOS] and the
    Unicode case tables behind [strings.ToUpper]. *)
Record Platform : Type := {
  GOOS : string;
  unicode : Go.Unicode
}.

(** [type Environment struct { env map[string]string }] *)
Abbreviation Environment := (gmap string string).

(** [EnvironmentVariableLineRegex] as [FindStringSubmatch] uses it: the
    two groups of the match, if the line matches.  The pattern is, anchored
    at both ends of the text: one or more letters then any number of
    letters, digits and underscores (group 1), an equals sign, and one or
    more bytes other than a line feed (group 2).  No byte of the first
    group can be an equals sign, so the group is the longest prefix of
    letters, digits and underscores; it must start with a letter and be
    followed by the equals sign.  The second group is the rest of the
    line, which must be non-empty and free of line feeds. *)
Definition isKeyByte (c : ascii) : bool := Go.isAlnum c || Go.isByte 95 c.

Definition notLF (c : ascii) : bool := negb (Go.isByte 10 c).

Definition EnvironmentVariableLineRegex (l : string)
    : option (string * string) :=
  match Go.span isKeyByte l with
  | (String k0 k, String sep value) =>
      if Go.isLetter k0 && Go.isByte 61 sep
         && negb (String.eqb value "") && Go.all notLF value
      then Some (String k0 k, value)
      else None
  | _ => None
  end.

(** [func (e *Environment) Get(key string) string]: a missing key reads
    as the empty string. *)
Definition Get (e : Environment) (key : string) : string :=
  default "" (e !! key).

Definition Exists (e : Environment) (key : string) : bool :=
  bool_decide (is_Some (e !! key)).

Definition quoted (value : string) : bool :=
  (Go.HasPrefix value Go.DQUOTE && Go.HasSuffix value Go.DQUOTE)
  || (Go.HasPrefix value Go.SQUOTE && Go.HasSuffix value Go.SQUOTE).

(** The value [Set] stores for the value it is given. *)
Definition setValue (value : string) : string :=
  let value := Go.TrimSpace value in
  if quoted value then
    let value := Go.Trim value (Go.DQUOTE +:+ Go.SQUOTE) in
    let value := Go.Replace value (Go.BACKSLASH +:+ Go.DQUOTE) Go.DQUOTE in
    Go.Replace value (Go.BACKSLASH +:+ "n") Go.NEWLINE
  else value.

(** The key [Set] stores under. *)
Definition setKey (pf : Platform) (key : string) : string :=
  let key := Go.TrimSpace key in
  if String.eqb (GOOS pf) "windows" then Go.ToUpper (unicode pf) key
  else key.

(** [func (e *Environment) Set(key string, value string) string]: the
    updated map and the returned string. *)
Definition Set_ (pf : Platform) (e : Environment) (key value : string)
    : Environment * string :=
  let key := setKey pf key in
  let value := setValue value in
  (<[key := value]> e, value).

Definition Remove (e : Environment) (key : string) : Environment * string :=
  (delete key e, Get e key).

Definition Length (e : Environment) : nat := size e.

(** [func (e *Environment) Copy() *Environment]: entries are copied as
    they are, without going through [Set]. *)
Definition Copy (e : Environment) : Environment :=
  foldl (λ c kv, <[kv.1 := kv.2]> c) ∅ (map_to_list e).

Definition ToMap (e : Environment) : gmap string string := e.

(** Ranging over a Go map visits the entries in an unspecified order;
    [diffOver] and [mergeOver] run the loop bodies over a given order. *)
Definition diffOver (pf : Platform) (other : Environment)
    (entries : list (string * string)) : Environment :=
  foldl (λ diff kv,
           if String.eqb (Get other kv.1) kv.2 then diff
           else (Set_ pf diff kv.1 kv.2).1)
        ∅ entries.

Definition Diff (pf : Platform) (e other : Environment) : Environment :=
  diffOver pf other (map_to_list e).

Definition mergeOver (pf : Platform) (c : Environment)
    (entries : list (string * string)) : Environment :=
  foldl (λ c kv, (Set_ pf c kv.1 kv.2).1) c entries.

Definition Merge (pf : Platform) (e other : Environment) : Environment :=
  mergeOver pf (Copy e) (map_to_list (ToMap other)).

(** [func (e *Environment) ToSlice() []string] *)
Definition line (kv : string * string) : string := kv.1 +:+ "=" +:+ kv.2.

Definition ToSlice (e : Environment) : list string :=
  Go.SortStrings (line <$> map_to_list e).

(** [func EnvironmentFromSlice(s []string) *Environment].  The loop state
    is [env], [currentKeyName] and [currentValueSlice]; the two
    [fmt.Println] calls only write to standard output. *)
Record scan : Type := {
  env : Environment;
  currentKeyName : string;
  currentValueSlice : list string
}.

Definition flush (pf : Platform) (st : scan) : scan :=
  if negb (String.eqb (currentKeyName st) "")
     && (0 <? length (currentValueSlice st))
  then {| env := (Set_ pf (env st) (currentKeyName st)
                    (Go.Join (currentValueSlice st) Go.NEWLINE)).1;
          currentKeyName := currentKeyName st;
          currentValueSlice := [] |}
  else st.

Definition scanLine (pf : Platform) (st : scan) (l : string) : scan :=
  match EnvironmentVariableLineRegex l with
  | Some (k, v) =>
      let st := flush pf st in
      {| env := env st;
         currentKeyName := k;
         currentValueSlice := currentValueSlice st ++ [v] |}
  | None =>
      if negb (String.eqb (currentKeyName st) "")
      then {| env := env st;
              currentKeyName := currentKeyName st;
              currentValueSlice := currentValueSlice st ++ [l] |}
      else st
  end.

Definition EnvironmentFromSlice (pf : Platform) (s : list string)
    : Environment :=
  let st := foldl (scanLine pf)
              {| env := ∅; currentKeyName := ""; currentValueSlice := [] |} s in
  if negb (String.eqb (currentKeyName st) "")
     && (0 <? length (currentValueSlice st))
  then (Set_ pf (env st) (currentKeyName st)
          (Go.Join (currentValueSlice st) Go.NEWLINE)).1
  else env st.

(** Keys and values that survive a trip through [ToSlice] and
    [EnvironmentFromSlice]: a key that the first group of the line
    pattern accepts (and, on Windows, has no lower-case letter); a value
    that is not empty, holds no line feed, has no white space at either
    end and is not enclosed in quotes. *)
Definition validKey (k : string) : bool :=
  match k with
  | String k0 _ => Go.isLetter k0 && Go.all isKeyByte k
  | EmptyString => false
  end.

Definition plainKey (pf : Platform) (k : string) : bool :=
  validKey k
  && (negb (String.eqb (GOOS pf) "windows")
      || Go.all (λ c, negb (Go.isLower c)) k).

Definition plainValue (v : string) : bool :=
  negb (String.eqb v "") && Go.all notLF v
  && String.eqb (Go.TrimSpace v) v && negb (quoted v).

(** [m[kv.1] = kv.2] *)
Definition put (m : Environment) (kv : string * string) : Environment :=
  <[kv.1 := kv.2]> m.

Definition plainEntry (pf : Platform) (kv : string * string) : Prop :=
  plainKey pf kv.1 = true ∧ plainValue kv.2 = true.

(** Between two lines the loop holds nothing, or one plain entry that
    is still to be stored. *)
Definition tidy (pf : Platform) (st : scan) : Prop :=
  (currentKeyName st = "" ∧ currentValueSlice st = [])
  ∨ ∃ v, plainEntry pf (currentKeyName st, v) ∧ currentValueSlice st = [v].

(** Two platforms to run the definitions on. *)
Definition noTables : Go.Unicode :=
  {| Go.mapToUpper := λ s, s; Go.mapToLower := λ s, s |}.
Definition linux : Platform := {| GOOS := "linux"; unicode := noTables |}.
Definition windows : Platform := {| GOOS := "windows"; unicode := noTables |}.

(** Environments to run the definitions on: a plain one, and three that
    [Set] can build ([emptyValue] by [Set("A", "")], [twoLines] by
    [Set("A", "x\ny")], [paddedValue] by [Set("K", "' a '")]). *)
Definition plainEnv : Environment :=
  {[ "HOME" := "/root"; "PATH" := "/bin:/usr/bin"; "A_1" := "x=y z" ]}.
Definition emptyValue : Environment := (Set_ linux ∅ "A" "").1.
Definition twoLines : Environment :=
  (Set_ linux ∅ "A" ("x" +:+ Go.NEWLINE +:+ "y")).1.
Definition paddedValue : Environment :=
  (Set_ linux ∅ "K" (Go.SQUOTE +:+ " a " +:+ Go.SQUOTE)).1.

(** *** Files and normal environments *)

(** [func EnvironmentFromFile(path string)], which returns an
    environment or an error.  [ReadFile] is [ioutil.ReadFile], which
    belongs to the operating system; [None] stands for an error. *)
Definition EnvironmentFromFile (pf : Platform)
    (ReadFile : string → option string) (path : string)
    : option Environment :=
  match ReadFile path with
  | None => None
  | Some body => Some (EnvironmentFromSlice pf (Go.Split body "010"))
  end.

(** An environment whose entries [Set] would store as they are. *)
Definition normal (pf : Platform) (e : Environment) : Prop :=
  ∀ k v, e !! k = Some v → setKey pf k = k ∧ setValue v = v.

(** ** shell/command.go *)

(** [func truncate(s string, i int) string], for [i] not negative (the
    program calls it with 40).  The slice [s[:i+1]] is out of range when
    [s] has [i] bytes. *)
Definition truncate (s : string) (i : nat) : Go.result string :=
  if String.length s <? i then Go.Ok s
  else if Go.ValidString (String.substring 0 i s)
  then Go.Ok (String.substring 0 i s +:+ "...")
  else if String.length s <? i + 1
  then Go.Panic "slice bounds out of range"
  else Go.Ok (String.substring 0 (i + 1) s +:+ "...").

End Shell.

(** ** agent/plugin.go *)

Module Agent.

(** A decoded JSON value held in a plugin configuration
    ([interface{}]): the dynamic types the program tells apart. *)
Inductive Value : Type :=
| VString (s : string)
| VBool (b : bool)
| VNumber (n : string)         (* json.Number, a string type *)
| VStrings (l : list string)   (* []string *)
| VSlice (l : list Value)      (* []interface{} *)
| VOther.                      (* nil, map[string]interface{}, ... *)

Record Plugin : Type := {
  Location : string;
  Version : string;
  Scheme : string;
  Authentication : string;
  Configuration : gmap string Value
}.

(** [func CreatePlugin(location string, config map[string]interface{})];
    [None] stands for a returned error.  [User] holds the user
    information in its string form. *)
Definition CreatePlugin (net : Go.NetURL) (location : string)
    (config : gmap string Value) : option Plugin :=
  match Go.Parse net location with
  | None => None
  | Some u =>
      let version := Go.Fragment u in
      if negb (String.eqb version "") && (0 <? Go.Count version "#")
      then None
      else Some {| Location := Go.Host u +:+ Go.Path u;
                   Version := version;
                   Scheme := Go.Scheme u;
                   Authentication := default "" (Go.User u);
                   Configuration := config |}
  end.

(** [locationSchemeRegex]: at the start of the text, one or more bytes
    out of [a-z] and [+], then [://]. *)
Definition isSchemeByte (c : ascii) : bool := Go.isLower c || Go.isByte 43 c.

Definition locationSchemeRegex (s : string) : bool :=
  match Go.span isSchemeByte s with
  | (String _ _, rest) => Go.HasPrefix rest "://"
  | _ => false
  end.

(** The location that [ResolvePluginLocation] hands to [url.Parse]. *)
Definition qualify (location : string) : string :=
  if locationSchemeRegex location then location
  else
    match length (Go.Split location "/") with
    | 0 => location
    | 1 => "https://github.com/buildkite-plugins/" +:+ location
    | 2 => "https://github.com/" +:+ location
    | _ => "https://" +:+ location
    end.

(** The two defaults applied to the parsed URL. *)
Definition withDefaults (u : Go.URL) : Go.URL :=
  let u := if String.eqb (Go.Fragment u) ""
           then {| Go.Scheme := Go.Scheme u; Go.Opaque := Go.Opaque u;
                   Go.User := Go.User u; Go.Host := Go.Host u;
                   Go.Path := Go.Path u; Go.RawQuery := Go.RawQuery u;
                   Go.Fragment := "master" |}
           else u in
  if String.eqb (Go.Scheme u) ""
  then {| Go.Scheme := "https"; Go.Opaque := Go.Opaque u;
          Go.User := Go.User u; Go.Host := Go.Host u;
          Go.Path := Go.Path u; Go.RawQuery := Go.RawQuery u;
          Go.Fragment := Go.Fragment u |}
  else u.

(** [func ResolvePluginLocation(location string) (string, error)];
    [None] stands for the error of [url.Parse].  The final test
    [u == nil] comes after [u] has been dereferenced and cannot hold. *)
Definition ResolvePluginLocation (net : Go.NetURL) (location : string)
    : option string :=
  match Go.Parse net (qualify location) with
  | None => None
  | Some u => Some (Go.Stringify net (withDefaults u))
  end.

(** The resolution of a location that is already fully qualified. *)
Definition resolved (net : Go.NetURL) (raw : string) : option string :=
  match Go.Parse net raw with
  | None => None
  | Some u => Some (Go.Stringify net (withDefaults u))
  end.

Definition isSlash : ascii → bool := Go.isByte 47.
Definition noSlash (s : string) : bool := Go.all (λ c, negb (isSlash c)) s.

(** The number of slashes in a string. *)
Fixpoint slashes (s : string) : nat :=
  match s with
  | EmptyString => 0
  | String c r => (if isSlash c then 1 else 0) + slashes r
  end.

(** A reading of URLs of the plain shape [scheme://host/path#fragment]
    (no user, query or escape), to run the definitions on: the fragment
    is what follows the first [#], the scheme what precedes [://], the
    host what precedes the next [/].  On such URLs it is what
    [url.Parse] and [String] do. *)
Definition plainParse (raw : string) : option Go.URL :=
  let '(body, frag) := Go.span (λ c, negb (Go.isByte 35 c)) raw in
  let '(scheme, rest) := Go.span (λ c, negb (Go.isByte 58 c)) body in
  if Go.HasPrefix rest "://" then
    let authority := String.substring 3 (String.length rest - 3) rest in
    let '(host, path) := Go.span (λ c, negb (isSlash c)) authority in
    Some {| Go.Scheme := scheme; Go.Opaque := ""; Go.User := None;
            Go.Host := host; Go.Path := path; Go.RawQuery := "";
            Go.Fragment := String.substring 1 (String.length frag - 1) frag |}
  else
    Some {| Go.Scheme := ""; Go.Opaque := ""; Go.User := None;
            Go.Host := ""; Go.Path := body; Go.RawQuery := "";
            Go.Fragment := String.substring 1 (String.length frag - 1) frag |}.

Definition plainString (u : Go.URL) : string :=
  (if String.eqb (Go.Scheme u) "" then "" else Go.Scheme u +:+ "://")
  +:+ Go.Host u +:+ Go.Path u
  +:+ (if String.eqb (Go.Fragment u) "" then "" else "#" +:+ Go.Fragment u).

Definition plainURL : Go.NetURL :=
  {| Go.Parse := plainParse; Go.Stringify := plainString |}.

(** *** MergePlugins *)

(** A Go [map[string]struct{}]: [None] is the nil map of a variable
    declared with [var] and never made. *)
Definition keyset : Type := option (gset string).

(** [m[k] = struct{}{}] *)
Definition assign (m : keyset) (k : string) : Go.result keyset :=
  match m with
  | None => Go.Panic "assignment to entry in nil map"
  | Some ks => Go.Ok (Some ({[ k ]} ∪ ks))
  end.

(** [_, exists := m[k]]: reading a nil map finds nothing. *)
Definition present (m : keyset) (k : string) : bool :=
  match m with
  | None => false
  | Some ks => bool_decide (k ∈ ks)
  end.

Fixpoint agentLoop (pluginMap : keyset) (result agentPlugins : list Plugin)
    : Go.result (keyset * list Plugin) :=
  match agentPlugins with
  | [] => Go.Ok (pluginMap, result)
  | plugin :: rest =>
      match assign pluginMap (Location plugin) with
      | Go.Panic msg => Go.Panic msg
      | Go.Ok pluginMap => agentLoop pluginMap (result ++ [plugin]) rest
      end
  end.

Definition jobLoop (pluginMap : keyset) (result jobPlugins : list Plugin)
    : list Plugin :=
  foldl (λ result plugin,
           if present pluginMap (Location plugin) then result
           else result ++ [plugin])
        result jobPlugins.

(** The two loops of [MergePlugins], from a given [pluginMap]. *)
Definition mergeFrom (pluginMap : keyset)
    (jobPlugins agentPlugins : list Plugin) : Go.result (list Plugin) :=
  match agentLoop pluginMap [] agentPlugins with
  | Go.Panic msg => Go.Panic msg
  | Go.Ok (pluginMap, result) => Go.Ok (jobLoop pluginMap result jobPlugins)
  end.

(** [func MergePlugins(jobPlugins, agentPlugins []*Plugin) []*Plugin]:
    [var pluginMap map[string]struct{}] is the nil map. *)
Definition MergePlugins (jobPlugins agentPlugins : list Plugin)
    : Go.result (list Plugin) :=
  mergeFrom None jobPlugins agentPlugins.

(** What the specification asks of the merge: the agent's plugins, then
    the job's plugins whose location no agent plugin has. *)
Definition mergeSpec (jobPlugins agentPlugins : list Plugin) : list Plugin :=
  agentPlugins
  ++ filter (λ p, Location p ∉ (Location <$> agentPlugins)) jobPlugins.

(** *** Plugin.Name and Plugin.ConfigurationToEnvironment *)

(** [func (p *Plugin) Name() string] *)
Definition Name (u : Go.Unicode) (p : Plugin) : string :=
  if negb (String.eqb (Location p) "") then
    let parts := Go.Split (Location p) "/" in
    let name := List.last parts "" in
    let name := Go.ToLower u name in
    let name := Go.replaceRuns Go.reSpace " " false name in
    let name := Go.replaceNonAlnum "-" 0 name in
    let name := Go.Replace name "-buildkite-plugin-git" "" in
    let name := Go.Replace name "-buildkite-plugin" "" in
    name
  else "".

Definition isDash : ascii → bool := Go.isByte 45.
Definition isUnderscore : ascii → bool := Go.isByte 95.

(** [toDashRegex], a dash or a run of white space, replaced by [_]:
    each dash on its own, each maximal run of white space as a whole. *)
Fixpoint toDash (inRun : bool) (s : string) : string :=
  match s with
  | EmptyString => EmptyString
  | String c r =>
      if isDash c then "_" +:+ toDash false r
      else if Go.reSpace c then
        if inRun then toDash true r else "_" +:+ toDash true r
      else String c (toDash false r)
  end.

(** The variable name computed for configuration key [k]. *)
Definition envName (u : Go.Unicode) (p : Plugin) (k : string) : string :=
  let k := Go.replaceRuns Go.reSpace " " false k in
  let name :=
    Go.ToUpper u (toDash false ("BUILDKITE_PLUGIN_" +:+ Name u p +:+ "_" +:+ k)) in
  Go.replaceRuns isUnderscore "_" false name.

(** The inner switch: element [i] of a [[]interface{}]. *)
Definition elementVars (name : string) (i : nat) (v : Value) : list string :=
  match v with
  | VNumber n => [name +:+ "_" +:+ Go.Itoa (Z.of_nat i) +:+ "=" +:+ n]
  | VString s => [name +:+ "_" +:+ Go.Itoa (Z.of_nat i) +:+ "=" +:+ s]
  | _ => []
  end.

Definition fmtBool (b : bool) : string := if b then "true" else "false".

(** The outer switch: what one configuration entry appends. *)
Definition entryVars (name : string) (v : Value) : list string :=
  match v with
  | VString s => [name +:+ "=" +:+ s]
  | VBool b => [name +:+ "=" +:+ fmtBool b]
  | VNumber n => [name +:+ "=" +:+ n]
  | VStrings l =>
      imap (λ i s, name +:+ "_" +:+ Go.Itoa (Z.of_nat i) +:+ "=" +:+ s) l
  | VSlice l => mjoin (imap (elementVars name) l)
  | VOther => []
  end.

(** The loop over the configuration, in a given order of its entries. *)
Definition envSliceOver (u : Go.Unicode) (p : Plugin)
    (entries : list (string * Value)) : list string :=
  foldl (λ envSlice kv, envSlice ++ entryVars (envName u p kv.1) kv.2)
        [] entries.

(** [func (p *Plugin) ConfigurationToEnvironment()]: the sorted
    [envSlice] that is handed to [env.FromSlice]. *)
Definition ConfigurationToEnvironment (u : Go.Unicode) (p : Plugin)
    : list string :=
  Go.SortStrings (envSliceOver u p (map_to_list (Configuration p))).

(** ** agent/header_times_streamer.go *)

(** The fields of [headerTimesStreamer] that [Upload] reads and writes.
    [cursor] is an index into [times]; it starts at zero and is only ever
    assigned a length.  [uploadWaitGroup] is the counter of the wait
    group. *)
Record headerTimesStreamer : Type := {
  times : list string;
  cursor : nat;
  uploadWaitGroup : Z
}.

(** One call of [uploadCallback(ctx, c, length, payload)].  The callback
    has no result: [func(context.Context, int, int, map[string]string)]. *)
Record uploadCall : Type := {
  callFrom : nat;
  callTo : nat;
  callPayload : gmap string string
}.

(** [payload[strconv.Itoa(h.cursor+index)] = time] for each pending time *)
Definition makePayload (cursor : nat) (pending : list string)
    : gmap string string :=
  foldl (λ payload it, <[Go.Itoa (Z.of_nat (cursor + it.1)) := it.2]> payload)
        ∅ (imap pair pending).

(** [func (h *headerTimesStreamer) Upload(ctx context.Context)]: the
    streamer afterwards and the call made to the callback, if any.
    Slicing [h.times[h.cursor:length]] panics when the cursor exceeds
    the length, and a wait group panics when its counter turns
    negative. *)
Definition Upload (h : headerTimesStreamer)
    : Go.result (headerTimesStreamer * option uploadCall) :=
  let c := cursor h in
  let length := length (times h) in
  if length <? cursor h then Go.Panic "slice bounds out of range"
  else
    let pending := drop (cursor h) (take length (times h)) in
    let payload := makePayload (cursor h) pending in
    let h := {| times := times h; cursor := length;
                uploadWaitGroup := uploadWaitGroup h |} in
    let timesToUpload := List.length pending in
    if timesToUpload =? 0 then Go.Ok (h, None)
    else
      let call := {| callFrom := c; callTo := length;
                     callPayload := payload |} in
      let counter := (uploadWaitGroup h + Z.of_nat timesToUpload * -1)%Z in
      if (counter <? 0)%Z then Go.Panic "sync: negative WaitGroup counter"
      else Go.Ok ({| times := times h; cursor := cursor h;
                     uploadWaitGroup := counter |}, Some call).

(** The header-recording half of [Scan]: a header line appends the
    current time and adds one to the wait group. *)
Definition recordHeader (now : string) (h : headerTimesStreamer)
    : headerTimesStreamer :=
  {| times := times h ++ [now]; cursor := cursor h;
     uploadWaitGroup := (uploadWaitGroup h + 1)%Z |}.

(** A streamer that has seen one header and has not flushed yet. *)
Definition oneHeader : headerTimesStreamer :=
  {| times := ["2016-05-04T03:02:01.000000001Z"]; cursor := 0;
     uploadWaitGroup := 1 |}.

(** A streamer with three headers, the first of them flushed. *)
Definition threeHeaders : headerTimesStreamer :=
  {| times := ["2016-05-04T03:02:01Z"; "2016-05-04T03:02:02Z";
               "2016-05-04T03:02:03Z"];
     cursor := 1; uploadWaitGroup := 2 |}.

(** ** agent/artifact_uploader.go *)

Definition ArtifactPathDelimiter : ascii := ";"%char.
Definition ArtifactFallbackMimeType : string := "binary/octet-stream".

Record ArtifactUploaderConfig : Type := {
  JobID : string;
  Paths : string;
  Destination : string;
  ContentType : string;
  DebugHTTP : bool;
  GlobResolveFollowSymlinks : bool;
  UploadSkipSymlinks : bool
}.

(** [api.Artifact], the fields [build] fills in. *)
Record Artifact : Type := {
  artPath : string;
  AbsolutePath : string;
  GlobPath : string;
  FileSize : Z;
  Sha1Sum : string;
  Sha256Sum : string;
  artContentType : string
}.

(** One call of the function given to [filepath.WalkDir]:
    [(p, d.IsDir(), error != nil)]. *)
Record walkEntry : Type := {
  walkPath : string;
  walkIsDir : bool;
  walkFailed : bool
}.

(** One call of the function given to zzglob's [Glob]: the path, whether
    [d] is non-nil and a directory, and whether [err] is non-nil. *)
Record globEntry : Type := {
  globbed : string;
  globbedDir : bool;
  globbedFailed : bool
}.

(** The result of a go-zglob call. *)
Inductive zglobResult : Type :=
| ZFiles (files : list string)
| ZNotExist                   (* errors.Is(err, os.ErrNotExist) *)
| ZError.

(** What [build] reads from an opened file: its size and the two
    digests, already formatted. *)
Record fileData : Type := {
  dataSize : Z;
  dataSha1 : string;
  dataSha256 : string
}.

(** The operating system, the file system and the libraries [Collect]
    calls into.  An [option] result is [None] where Go returns an
    error.  [WalkDir root] lists the calls the walk makes to its
    function, in order (the function of [Collect] never asks to skip a
    directory, so the calls do not depend on it); [zzglobGlob] likewise
    lists the calls and tells whether the walk itself succeeded. *)
Record World : Type := {
  goos : string;
  Getwd : option string;
  Abs : string → option string;
  EvalSymlinks : string → option string;
  Rel : string → string → option string;
  ToSlash : string → string;
  IsAbs : string → bool;
  VolumeName : string → string;
  Ext : string → string;
  StatIsDir : string → option bool;          (* os.Stat, then IsDir *)
  LstatIsSymlink : string → option bool;     (* os.Lstat, then the mode bit *)
  WalkDir : string → list walkEntry;
  zzglobParse : string → bool;
  zzglobGlob : string → bool → list globEntry * bool;
  zglobGlob : string → zglobResult;
  zglobGlobFollowSymlinks : string → zglobResult;
  openFile : string → option fileData;       (* os.Open, Stat and the hashing *)
  TypeByExtension : string → string;
  experiment : string → bool;                (* experiments.IsEnabled *)
  UseZZGlob : string;                        (* experiments.UseZZGlob *)
  NormalisedUploadPaths : string             (* experiments.NormalisedUploadPaths *)
}.

Definition isSymlink (w : World) (path : string) : bool :=
  default false (LstatIsSymlink w path).

Definition isDir (w : World) (path : string) : bool :=
  default false (StatIsDir w path).

(** [func (a *ArtifactUploader) build(path, absolutePath, globPath)] *)
Definition build (w : World) (conf : ArtifactUploaderConfig)
    (path absolutePath globPath : string) : option Artifact :=
  match openFile w absolutePath with
  | None => None
  | Some data =>
      let contentType := ContentType conf in
      let contentType :=
        if String.eqb contentType "" then
          let extension := Ext w absolutePath in
          let contentType := TypeByExtension w extension in
          if String.eqb contentType "" then ArtifactFallbackMimeType
          else contentType
        else contentType in
      Some {| artPath := path; AbsolutePath := absolutePath;
              GlobPath := globPath; FileSize := dataSize data;
              Sha1Sum := dataSha1 data; Sha256Sum := dataSha256 data;
              artContentType := contentType |}
  end.

(** The variables [Collect] updates as it goes. *)
Record collecting : Type := {
  wd : string;
  seenPaths : gset string;
  artifacts : list Artifact
}.

(** A loop whose body may return an error ([None]). *)
Fixpoint each {S A : Type} (body : S → A → option S) (st : S) (l : list A)
    : option S :=
  match l with
  | [] => Some st
  | x :: l =>
      match body st x with
      | None => None
      | Some st => each body st l
      end
  end.

(** The function [Collect] gives to [filepath.WalkDir]. *)
Definition walkFn (w : World) (conf : ArtifactUploaderConfig)
    (literalPath : string) (st : collecting) (e : walkEntry)
    : option collecting :=
  let p := walkPath e in
  if walkFailed e then None
  else if bool_decide (p ∈ seenPaths st) then Some st
  else if walkIsDir e then Some st
  else
    let resolved :=
      if GlobResolveFollowSymlinks conf then EvalSymlinks w p else Some p in
    match resolved with
    | None => None
    | Some path =>
        let seen := {[ p ]} ∪ seenPaths st in
        match Rel w (wd st) path with
        | None => None
        | Some path =>
            let path :=
              if experiment w "normalised-upload-paths" then ToSlash w path
              else path in
            match build w conf path p literalPath with
            | None => None
            | Some artifact =>
                Some {| wd := wd st; seenPaths := seen;
                        artifacts := artifacts st ++ [artifact] |}
            end
        end
    end.

(** The body of the first loop ("handle directories first"). *)
Definition dirStep (w : World) (conf : ArtifactUploaderConfig)
    (st : collecting) (literalPath : string) : option collecting :=
  let literalPath := Go.TrimSpace literalPath in
  if String.eqb literalPath "" then Some st
  else
    match Abs w literalPath with
    | None => None
    | Some absolutePath =>
        if bool_decide (absolutePath ∈ seenPaths st) then Some st
        else if isDir w absolutePath then
          each (walkFn w conf literalPath) st (WalkDir w absolutePath)
        else Some st
    end.

(** The files a glob pattern resolves to: [None] for an error,
    [Some None] where the loop continues with the next pattern. *)
Definition resolveGlob (w : World) (conf : ArtifactUploaderConfig)
    (globPath : string) : option (option (list string)) :=
  if experiment w (UseZZGlob w) then
    if zzglobParse w globPath then
      let '(calls, ok) :=
        zzglobGlob w globPath (GlobResolveFollowSymlinks conf) in
      let matched :=
        filter (λ c, globbedFailed c = false ∧ globbedDir c = false) calls in
      let files := globbed <$> matched in
      if ok then Some (Some files) else None
    else None
  else
    let globfunc :=
      if GlobResolveFollowSymlinks conf then zglobGlobFollowSymlinks w
      else zglobGlob w in
    match globfunc globPath with
    | ZFiles files => Some (Some files)
    | ZNotExist => Some None
    | ZError => None
    end.

(** The body of the loop over the files of one glob pattern. *)
Definition fileStep (w : World) (conf : ArtifactUploaderConfig)
    (globPath : string) (st : collecting) (file : string)
    : option collecting :=
  match Abs w file with
  | None => None
  | Some absolutePath =>
      if bool_decide (absolutePath ∈ seenPaths st) then Some st
      else
        let st := {| wd := wd st; seenPaths := {[ absolutePath ]} ∪ seenPaths st;
                     artifacts := artifacts st |} in
        if isDir w absolutePath then Some st
        else if UploadSkipSymlinks conf && isSymlink w absolutePath then Some st
        else
          let wd :=
            if IsAbs w globPath then
              if String.eqb (goos w) "windows"
              then VolumeName w absolutePath +:+ "/"
              else "/"
            else wd st in
          match Rel w wd absolutePath with
          | None => None
          | Some path =>
              let path :=
                if experiment w (NormalisedUploadPaths w) then ToSlash w path
                else path in
              match build w conf path absolutePath globPath with
              | None => None
              | Some artifact =>
                  Some {| wd := wd; seenPaths := seenPaths st;
                          artifacts := artifacts st ++ [artifact] |}
              end
          end
  end.

(** The body of the second loop. *)
Definition globStep (w : World) (conf : ArtifactUploaderConfig)
    (st : collecting) (globPath : string) : option collecting :=
  let globPath := Go.TrimSpace globPath in
  if String.eqb globPath "" then Some st
  else
    match resolveGlob w conf globPath with
    | None => None
    | Some None => Some st
    | Some (Some files) => each (fileStep w conf globPath) st files
    end.

(** [func (a *ArtifactUploader) Collect(ctx) ([]*api.Artifact, error)] *)
Definition Collect (w : World) (conf : ArtifactUploaderConfig)
    : option (list Artifact) :=
  match Getwd w with
  | None => None
  | Some wd =>
      let prospects := Go.Split (Paths conf) ArtifactPathDelimiter in
      let st := {| wd := wd; seenPaths := ∅; artifacts := [] |} in
      match each (dirStep w conf) st prospects with
      | None => None
      | Some st =>
          match each (globStep w conf) st prospects with
          | None => None
          | Some st => Some (artifacts st)
          end
      end
  end.

(** What [Collect] maintains: the artifacts collected so far have pairwise
    different absolute paths, all of them recorded in [seenPaths]. *)
Definition collected (st : collecting) : Prop :=
  NoDup (AbsolutePath <$> artifacts st)
  ∧ ∀ a, a ∈ artifacts st → AbsolutePath a ∈ seenPaths st.

(** A world to run [Collect] in.  The working directory [/w] holds the
    file [a.log], the symbolic link [b.log] to it, and the directory
    [out] with the file [x.log] and the symbolic link [y.log] to
    [x.log].  A glob pattern without wildcard resolves to itself. *)
Definition isLink (path : string) : bool :=
  String.eqb path "/w/b.log" || String.eqb path "/w/out/y.log".

Definition symlinkWorld : World :=
  {| goos := "linux";
     Getwd := Some "/w";
     Abs := λ path, Some (if Go.HasPrefix path "/" then path
                          else "/w/" +:+ path);
     EvalSymlinks := λ path,
       Some (if String.eqb path "/w/b.log" then "/w/a.log"
             else if String.eqb path "/w/out/y.log" then "/w/out/x.log"
             else path);
     Rel := λ base target, Some (Go.TrimPrefix target (base +:+ "/"));
     ToSlash := λ path, path;
     IsAbs := λ path, Go.HasPrefix path "/";
     VolumeName := λ _, "";
     Ext := λ _, ".log";
     StatIsDir := λ path, Some (String.eqb path "/w/out");
     LstatIsSymlink := λ path, Some (isLink path);
     WalkDir := λ root,
       if String.eqb root "/w/out"
       then [ {| walkPath := "/w/out"; walkIsDir := true; walkFailed := false |};
              {| walkPath := "/w/out/x.log"; walkIsDir := false;
                 walkFailed := false |};
              {| walkPath := "/w/out/y.log"; walkIsDir := false;
                 walkFailed := false |} ]
       else [];
     zzglobParse := λ _, true;
     zzglobGlob := λ _ _, ([], true);
     zglobGlob := λ pattern, ZFiles [pattern];
     zglobGlobFollowSymlinks := λ pattern, ZFiles [pattern];
     openFile := λ _,
       Some {| dataSize := 3;
               dataSha1 := "a9993e364706816aba3e25717850c26c9cd0d89d";
               dataSha256 :=
                 "ba7816bf8f01cfea414140de5dae2223b00361a396177a9cb410ff61f20015ad" |};
     TypeByExtension := λ _, "text/plain";
     experiment := λ _, false;
     UseZZGlob := "use-zzglob";
     NormalisedUploadPaths := "normalised-upload-paths" |}.

Definition uploadOf (paths : string) : ArtifactUploaderConfig :=
  {| JobID := "job"; Paths := paths; Destination := ""; ContentType := "";
     DebugHTTP := false; GlobResolveFollowSymlinks := false;
     UploadSkipSymlinks := false |}.

(** What the loop of [ConfigurationToEnvironment] appends in all: the
    variables of each entry, entry after entry. *)
Definition flatten (u : Go.Unicode) (p : Plugin)
    (entries : list (string * Value)) : list string :=
  mjoin ((λ kv, entryVars (envName u p kv.1) kv.2) <$> entries).

(** Whether two bytes of the class [p] stand next to each other. *)
Fixpoint doubled (p : ascii → bool) (s : string) : bool :=
  match s with
  | String a r =>
      match r with
      | String b _ => (p a && p b) || doubled p r
      | EmptyString => false
      end
  | EmptyString => false
  end.





(** Plugins to run the definitions on. *)
Definition dockerCompose (config : gmap string Value) : Plugin :=
  {| Location := "github.com/buildkite-plugins/docker-compose-buildkite-plugin";
     Version := "v1"; Scheme := "https"; Authentication := "";
     Configuration := config |}.

Definition scenario3 : Plugin :=
  dockerCompose {[ "run" := VString "app";
                   "env" := VSlice [VString "A=1"; VString "B=2"] ]}.



(** ** agent/plugin.go: the other methods of a plugin *)

(** [func (p *Plugin) Label() string] *)
Definition Label (p : Plugin) : string :=
  if negb (String.eqb (Version p) "")
  then Location p +:+ "#" +:+ Version p
  else Location p.

(** [func (p *Plugin) Identifier() (string, error)]; the error is always
    nil. *)
Definition Identifier (p : Plugin) : string :=
  let id := Label p in
  let id := Go.replaceNonAlnum "-" 0 id in
  let id := Go.replaceRuns isDash "-" false id in
  Go.Trim id "-".

(** The three errors of [constructRepositoryHost], with the arguments of
    their messages. *)
Inductive repositoryError : Type :=
| MissingLocation
| IncompletePath (location : string)
| IncompleteHostPath (host location : string).

Definition knownHost (host : string) : bool :=
  String.eqb host "github.com" || String.eqb host "bitbucket.org"
  || String.eqb host "gitlab.com".

(** The loop that gathers the parts of the repository: every part up to
    and including the first that ends in [.git]. *)
Fixpoint repoParts (parts : list string) : list string :=
  match parts with
  | [] => []
  | p :: parts => if Go.HasSuffix p ".git" then [p] else p :: repoParts parts
  end.

(** [func (p *Plugin) constructRepositoryHost() (string, error)].
    [parts[0]] is read when [parts] has two elements or more. *)
Definition constructRepositoryHost (p : Plugin) : repositoryError + string :=
  if String.eqb (Location p) "" then inl MissingLocation
  else
    let parts := Go.Split (Location p) "/" in
    if length parts <? 2 then inl (IncompletePath (Location p))
    else
      let host := default "" (head parts) in
      if knownHost host then
        if length parts <? 3 then inl (IncompleteHostPath host (Location p))
        else inr (Go.Join (take 3 parts) "/")
      else inr (Go.Join (repoParts parts) "/").

(** [func (p *Plugin) Repository() (string, error)] *)
Definition Repository (p : Plugin) : repositoryError + string :=
  match constructRepositoryHost p with
  | inl err => inl err
  | inr s =>
      let s := if negb (String.eqb (Authentication p) "")
               then Authentication p +:+ "@" +:+ s else s in
      let s := if negb (Go.HasPrefix s "/") then
                 if negb (String.eqb (Scheme p) "")
                 then Scheme p +:+ "://" +:+ s
                 else "https://" +:+ s
               else s in
      inr s
  end.

(** [func (p *Plugin) RepositorySubdirectory() (string, error)] *)
Definition RepositorySubdirectory (p : Plugin) : repositoryError + string :=
  match constructRepositoryHost p with
  | inl err => inl err
  | inr repository =>
      let dir := Go.TrimPrefix (Location p) repository in
      inr (Go.TrimPrefix dir "/")
  end.

(** [func CreatePluginsFromList(names []string) ([]*Plugin, error)]; the
    plugins are created with a nil configuration. *)
Definition CreatePluginsFromList (net : Go.NetURL) (names : list string)
    : option (list Plugin) :=
  each (λ plugins part,
          match ResolvePluginLocation net (Go.TrimSpace part) with
          | None => None
          | Some resolved =>
              match CreatePlugin net resolved ∅ with
              | None => None
              | Some plugin => Some (plugins ++ [plugin])
              end
          end)
       [] names.

(** A plugin of a repository on GitHub, in a subdirectory of it. *)
Definition monorepo : Plugin :=
  {| Location := "github.com/buildkite/plugins/docker/v2";
     Version := "v1.0"; Scheme := "ssh"; Authentication := "git";
     Configuration := ∅ |}.

(** ** agent/header_times_streamer.go: Scan *)

(** [func newHeaderTimesStreamer(l, upload)]: no times, cursor zero, an
    unused wait group. *)
Definition newHeaderTimesStreamer : headerTimesStreamer :=
  {| times := []; cursor := 0; uploadWaitGroup := 0 |}.

(** [ansiColourRE]: the byte ESC, an opening square bracket, optionally
    a run of semicolons and digits, and then [m] or [K].  The run is
    taken as long as it goes: the byte after it decides, since a shorter
    run would be followed by a semicolon or a digit.  [colourAt s] is the
    length of the match at the start of [s]. *)
Definition isParam (c : ascii) : bool := Go.isByte 59 c || Go.isDigit c.
Definition isFinal (c : ascii) : bool := Go.isByte 109 c || Go.isByte 75 c.

Definition colourAt (s : string) : option nat :=
  match s with
  | String e (String b r) =>
      if Go.isByte 27 e && Go.isByte 91 b then
        match Go.span isParam r with
        | (params, String f _) =>
            if isFinal f then Some (3 + String.length params) else None
        | _ => None
        end
      else None
  | _ => None
  end.

(** [ansiColourRE.ReplaceAllString(line, "")]: the matches are removed
    from left to right; [skip] counts the bytes of a match that are
    still to be passed over. *)
Fixpoint stripColours (skip : nat) (s : string) : string :=
  match s with
  | EmptyString => EmptyString
  | String c r =>
      match skip with
      | S k => stripColours k r
      | O =>
          match colourAt s with
          | Some n => stripColours (n - 1) r
          | None => String c (stripColours 0 r)
          end
      end
  end.

(** [headerRE]: at the start of the text, three dashes, three plus signs
    or three tildes, and then one byte of white space. *)
Definition headerRE (line : string) : bool :=
  (Go.HasPrefix line "---" || Go.HasPrefix line "+++"
   || Go.HasPrefix line "~~~")
  && match String.get 3 line with
     | Some c => Go.reSpace c
     | None => false
     end.

(** [headerExpansionRE]: at the start of the text, three carets, one
    byte of white space and three plus signs. *)
Definition headerExpansionRE (line : string) : bool :=
  Go.HasPrefix line "^^^"
  && match String.get 3 line with
     | Some c => Go.reSpace c
     | None => false
     end
  && Go.HasPrefix (String.substring 4 (String.length line - 4) line) "+++".

(** The header branch of [Scan] in its two steps: the time is appended
    while [timesMutex] is held, the wait group is added to after the
    mutex has been released.  One after the other they are
    [recordHeader]. *)
Definition appendTime (now : string) (h : headerTimesStreamer)
    : headerTimesStreamer :=
  {| times := times h ++ [now]; cursor := cursor h;
     uploadWaitGroup := uploadWaitGroup h |}.

Definition addTime (h : headerTimesStreamer) : headerTimesStreamer :=
  {| times := times h; cursor := cursor h;
     uploadWaitGroup := (uploadWaitGroup h + 1)%Z |}.

(** [func (h *headerTimesStreamer) Scan(line string) bool].  [now] is
    [time.Now().UTC().Format(time.RFC3339Nano)].  The scan wait group is
    added to on entry and released on return. *)
Definition Scan (now line : string) (h : headerTimesStreamer)
    : headerTimesStreamer * bool :=
  let line := stripColours 0 line in
  if negb (headerRE line) then (h, headerExpansionRE line)
  else (addTime (appendTime now h), true).

(** Calls of [Scan] and [Upload] on one streamer, one after the other;
    [uploads] gathers the calls made to the upload callback. *)
Inductive invocation : Type :=
| DoScan (now line : string)
| DoUpload.

Fixpoint invoke (h : headerTimesStreamer) (uploads : list uploadCall)
    (l : list invocation)
    : Go.result (headerTimesStreamer * list uploadCall) :=
  match l with
  | [] => Go.Ok (h, uploads)
  | DoScan now line :: l => invoke (Scan now line h).1 uploads l
  | DoUpload :: l =>
      match Upload h with
      | Go.Panic msg => Go.Panic msg
      | Go.Ok (h, None) => invoke h uploads l
      | Go.Ok (h, Some c) => invoke h (uploads ++ [c]) l
      end
  end.

(** The index ranges of successive uploads follow one another from
    [from] up to [to], none of them empty. *)
Fixpoint chained (from : nat) (uploads : list uploadCall) (to : nat) : Prop :=
  match uploads with
  | [] => from = to
  | c :: uploads =>
      callFrom c = from ∧ from < callTo c ∧ chained (callTo c) uploads to
  end.

(** The payload of an upload holds the times of its index range, each
    under its decimal index, and nothing else. *)
Definition carries (ts : list string) (c : uploadCall) : Prop :=
  ∀ k t, callPayload c !! k = Some t
         ↔ ∃ i, k = Go.Itoa (Z.of_nat i)
                ∧ callFrom c ≤ i < callTo c ∧ ts !! i = Some t.

(** What holds of a streamer between two calls: the cursor is within
    the times, the wait group counts the times that are not flushed yet,
    and the uploads made so far carry the flushed times, range after
    range. *)
Definition settled (h : headerTimesStreamer) (uploads : list uploadCall)
    : Prop :=
  cursor h ≤ length (times h)
  ∧ uploadWaitGroup h = Z.of_nat (length (times h) - cursor h)
  ∧ chained 0 uploads (cursor h)
  ∧ Forall (carries (times h)) uploads.

(** The escape character. *)
Definition ESC : string := String "027" "".

(** ** agent/artifact_uploader.go: where artifacts come from *)

(** How an artifact of [Collect] has come about: it was built for a file
    that the walk of a directory prospect has met, or for a file that
    the pattern of a prospect has matched.  [wd0] is the working
    directory at the start. *)
Inductive origin (w : World) (conf : ArtifactUploaderConfig) (wd0 : string)
    (prospects : list string) (a : Artifact) : Prop :=
| Walked (prospect absolutePath : string) (e : walkEntry)
    (resolved rel : string) :
    prospect ∈ prospects →
    Go.TrimSpace prospect ≠ "" →
    Abs w (Go.TrimSpace prospect) = Some absolutePath →
    isDir w absolutePath = true →
    e ∈ WalkDir w absolutePath →
    walkFailed e = false →
    walkIsDir e = false →
    (if GlobResolveFollowSymlinks conf then EvalSymlinks w (walkPath e)
     else Some (walkPath e)) = Some resolved →
    Rel w wd0 resolved = Some rel →
    build w conf
      (if experiment w "normalised-upload-paths" then ToSlash w rel else rel)
      (walkPath e) (Go.TrimSpace prospect) = Some a →
    origin w conf wd0 prospects a
| Globbed (prospect : string) (files : list string)
    (file absolutePath wd rel : string) :
    prospect ∈ prospects →
    Go.TrimSpace prospect ≠ "" →
    resolveGlob w conf (Go.TrimSpace prospect) = Some (Some files) →
    file ∈ files →
    Abs w file = Some absolutePath →
    isDir w absolutePath = false →
    UploadSkipSymlinks conf && isSymlink w absolutePath = false →
    wd = wd0
    ∨ (∃ earlier, earlier ∈ prospects
                  ∧ IsAbs w (Go.TrimSpace earlier) = true) →
    Rel w wd absolutePath = Some rel →
    build w conf
      (if experiment w (NormalisedUploadPaths w) then ToSlash w rel else rel)
      absolutePath (Go.TrimSpace prospect) = Some a →
    origin w conf wd0 prospects a.

(** What holds of the variables of [Collect] during its first loop, and
    during its second, which may change [wd]. *)
Definition walking (w : World) (conf : ArtifactUploaderConfig)
    (wd0 : string) (prospects : list string) (st : collecting) : Prop :=
  wd st = wd0 ∧ Forall (origin w conf wd0 prospects) (artifacts st).

Definition globbing (w : World) (conf : ArtifactUploaderConfig)
    (wd0 : string) (prospects : list string) (st : collecting) : Prop :=
  (wd st = wd0
   ∨ ∃ earlier, earlier ∈ prospects
                ∧ IsAbs w (Go.TrimSpace earlier) = true)
  ∧ Forall (origin w conf wd0 prospects) (artifacts st).

(** An upload that is to skip symbolic links. *)
Definition skippingLinks (paths : string) : ArtifactUploaderConfig :=
  {| JobID := "job"; Paths := paths; Destination := ""; ContentType := "";
     DebugHTTP := false; GlobResolveFollowSymlinks := false;
     UploadSkipSymlinks := true |}.

End Agent.

(** ** agent/s3_downloader.go *)

Module S3.

(** [type S3Downloader struct] *)
Record S3Downloader : Type := {
  Bucket : string;
  Destination : string;
  Path : string;
  Retries : Z;
  DebugHTTP : bool
}.

(** [func (d S3Downloader) destinationParts() []string] *)
Definition destinationParts (d : S3Downloader) : list string :=
  Go.Split (Go.TrimPrefix (Bucket d) "s3://") "/".

(** [func (d S3Downloader) BucketName() string]: [parts[0]] is out of
    range for an empty slice. *)
Definition BucketName (d : S3Downloader) : Go.result string :=
  match destinationParts d with
  | name :: _ => Go.Ok name
  | [] => Go.Panic "index out of range"
  end.

(** [func (d S3Downloader) BucketPath() string]: so is the slice
    [parts[1:len(parts)]]. *)
Definition BucketPath (d : S3Downloader) : Go.result string :=
  match destinationParts d with
  | _ :: parts => Go.Ok (Go.Join parts "/")
  | [] => Go.Panic "slice bounds out of range"
  end.

(** [func (d S3Downloader) BucketFileLocation() string] *)
Definition BucketFileLocation (d : S3Downloader) : Go.result string :=
  match BucketPath d with
  | Go.Panic msg => Go.Panic msg
  | Go.Ok bucketPath =>
      if negb (String.eqb bucketPath "")
      then Go.Ok (Go.TrimSuffix bucketPath "/" +:+ "/"
                  +:+ Go.TrimPrefix (Path d) "/")
      else Go.Ok (Path d)
  end.

(** A download from a folder of a bucket. *)
Definition download : S3Downloader :=
  {| Bucket := "s3://my-bucket-name/foo/bar"; Destination := "tmp";
     Path := "/logs/a.log"; Retries := 3; DebugHTTP := false |}.

End S3.

(** ** process/process.go *)

Module Process.

Record ProcessConfig : Type := {
  PTY : bool;
  Timestamp : bool;
  Script : list string;
  Env : list string;
  Handler : bool                       (* Handler != nil *)
}.

(** A [chan struct{}] on which the program only ever calls [close]. *)
Inductive chan : Type := Open | Closed.

(** [close(c)] on a channel that has been made. *)
Definition close (c : chan) : Go.result chan :=
  match c with
  | Open => Go.Ok Closed
  | Closed => Go.Panic "close of closed channel"
  end.

(** [command] tells whether [p.command] is non-nil; a channel field is
    [None] while it is nil. *)
Record Process : Type := {
  Pid : Z;
  ExitStatus : string;
  conf : ProcessConfig;
  command : bool;
  started : option chan;
  done : option chan
}.

Definition NewProcess (c : ProcessConfig) : Process :=
  {| Pid := 0; ExitStatus := ""; conf := c; command := false;
     started := None; done := None |}.

(** What [exec.ExitError.Sys()] holds: a [syscall.WaitStatus] or
    something else.  The type [W] of wait statuses and its method
    [ExitStatus] belong to package syscall and differ between
    platforms. *)
Inductive sysValue (W : Type) : Type :=
| SysWaitStatus (s : W)
| SysOther.
Global Arguments SysWaitStatus {W} s.
Global Arguments SysOther {W}.

(** The error returned by [Wait]: nil, an [*exec.ExitError], or an error
    of another type. *)
Inductive waitError (W : Type) : Type :=
| WaitNil
| ExitError (sys : sysValue W)
| OtherError.
Global Arguments WaitNil {W}.
Global Arguments ExitError {W} sys.
Global Arguments OtherError {W}.

(** [func (p *Process) getExitStatus(waitResult error) string]; the two
    [Error] calls only write to the log. *)
Definition getExitStatus {W : Type} (ExitStatusOf : W → Z)
    (waitResult : waitError W) : string :=
  let exitStatus := (-1)%Z in
  let exitStatus :=
    match waitResult with
    | ExitError (SysWaitStatus s) => ExitStatusOf s
    | ExitError SysOther => exitStatus
    | OtherError => exitStatus
    | WaitNil => 0%Z
    end in
  Go.Itoa exitStatus.

(** [syscall.WaitStatus.ExitStatus] on Linux, where a wait status is a
    32-bit word: the second byte if the low seven bits are zero. *)
Definition linuxExitStatus (w : Z) : Z :=
  if (Z.land w 127 =? 0)%Z then Z.land (Z.shiftr w 8) 255 else (-1)%Z.

(** *** timeoutWait *)

(** [time.Duration] counts nanoseconds. *)
Definition Second : Z := 1000000000.

(** [func timeoutWait(waitGroup *sync.WaitGroup) error].  [consumers] is
    the counter of the wait group; [drained] is the time, from the call
    on, at which the last of them is done ([None]: never).  The select
    takes the channel that is ready first; [timerFirst] settles the
    choice when both are ready together.  The result is the error
    ([None] for nil) and the time the call took. *)
Definition timeoutWait (consumers : nat) (drained : option Z)
    (timerFirst : bool) : option string * Z :=
  let ready := if consumers =? 0 then Some 0%Z else drained in
  let timeout := (10 * Second)%Z in
  match ready with
  | Some t =>
      if (t <? timeout)%Z then (None, Z.max 0 t)
      else if (t =? timeout)%Z && negb timerFirst then (None, timeout)
      else (Some "Timeout", timeout)
  | None => (Some "Timeout", timeout)
  end.

(** *** Start *)

(** What the operating system contributes to one call of [Start]. *)
Record child (W : Type) : Type := {
  spawned : option Z;          (* StartPTY / command.Start: the pid, or an error *)
  waited : waitError W;        (* what command.Wait returns *)
  drained : option Z;          (* see timeoutWait *)
  timerFirst : bool
}.
Global Arguments spawned {W} c.
Global Arguments waited {W} c.
Global Arguments drained {W} c.
Global Arguments timerFirst {W} c.

Inductive goroutine : Type := PTYCopier | Scanner | Discarder.

(** The steps of [Start] that other parts of the agent can observe, in
    the order in which the function takes them. *)
Inductive event (W : Type) : Type :=
| SetupProcessGroup
| ChildStarted (pid : Z)
| StartedClosed
| Spawned (g : goroutine)
| WaitReturned (waitResult : waitError W)
| LineWriterClosed
| DoneClosed
| ExitStatusSet (status : string)
| Drained (elapsed : Z) (timedOut : bool).
Global Arguments SetupProcessGroup {W}.
Global Arguments ChildStarted {W} pid.
Global Arguments StartedClosed {W}.
Global Arguments Spawned {W} g.
Global Arguments WaitReturned {W} waitResult.
Global Arguments LineWriterClosed {W}.
Global Arguments DoneClosed {W}.
Global Arguments ExitStatusSet {W} status.
Global Arguments Drained {W} elapsed timedOut.

(** [Start] runs on the fields of the process and leaves a record of the
    steps it has taken.  A computation goes on to the next statement,
    returns from [Start] with an error value ([None] for nil), or
    panics. *)
Record machine (W : Type) : Type := {
  proc : Process;
  steps : list (event W)
}.
Global Arguments proc {W} m.
Global Arguments steps {W} m.

Inductive flow (A : Type) : Type :=
| Next (a : A)
| Return (err : option string)
| Panics (msg : string).
Global Arguments Next {A} a.
Global Arguments Return {A} err.
Global Arguments Panics {A} msg.

Definition M (W A : Type) : Type := machine W → flow A * machine W.

Global Instance M_ret {W} : MRet (M W) := λ A a m, (Next a, m).

Global Instance M_bind {W} : MBind (M W) := λ A B f x m,
  match x m with
  | (Next a, m) => f a m
  | (Return err, m) => (Return err, m)
  | (Panics msg, m) => (Panics msg, m)
  end.

Definition read {W} : M W Process := λ m, (Next (proc m), m).

Definition write {W} (f : Process → Process) : M W unit :=
  λ m, (Next (), {| proc := f (proc m); steps := steps m |}).

Definition emit {W} (e : event W) : M W unit :=
  λ m, (Next (), {| proc := proc m; steps := steps m ++ [e] |}).

Definition return_ {W A} (err : option string) : M W A :=
  λ m, (Return err, m).

Definition panic {W A} (msg : string) : M W A := λ m, (Panics msg, m).

Definition when {W} (b : bool) (body : M W unit) : M W unit :=
  if b then body else mret ().

(** Field updates. *)
Definition setPid (pid : Z) (p : Process) : Process :=
  {| Pid := pid; ExitStatus := ExitStatus p; conf := conf p;
     command := command p; started := started p; done := done p |}.
Definition setExitStatus (s : string) (p : Process) : Process :=
  {| Pid := Pid p; ExitStatus := s; conf := conf p;
     command := command p; started := started p; done := done p |}.
Definition setCommand (p : Process) : Process :=
  {| Pid := Pid p; ExitStatus := ExitStatus p; conf := conf p;
     command := true; started := started p; done := done p |}.
Definition setStarted (c : chan) (p : Process) : Process :=
  {| Pid := Pid p; ExitStatus := ExitStatus p; conf := conf p;
     command := command p; started := Some c; done := done p |}.
Definition setDone (c : chan) (p : Process) : Process :=
  {| Pid := Pid p; ExitStatus := ExitStatus p; conf := conf p;
     command := command p; started := started p; done := Some c |}.

(** [close(p.started)] and [close(p.done)] *)
Definition closeChan {W} (field : Process → option chan)
    (set : chan → Process → Process) (e : event W) : M W unit :=
  p ← read;
  match field p with
  | None => panic "close of nil channel"
  | Some c =>
      match close c with
      | Go.Panic msg => panic msg
      | Go.Ok c => write (set c) ;; emit e
      end
  end.

(** The part of both branches after the child has been started. *)
Definition childStarted {W} (pid : Z) : M W unit :=
  write (setPid pid) ;;
  emit (ChildStarted pid) ;;
  closeChan started setStarted StartedClosed.

(** [func (p *Process) Start() error] *)
Definition Start {W : Type} (ExitStatusOf : W → Z) (os : child W)
    : M W unit :=
  p ← read;
  when (command p) (return_ (Some "Process is already running")) ;;
  match Script (conf p) with
  | [] => panic "index out of range"
  | _ :: _ => write setCommand
  end ;;
  when (negb (PTY (conf p))) (emit SetupProcessGroup) ;;
  when (bool_decide (done p = None)) (write (setDone Open)) ;;
  when (bool_decide (started p = None)) (write (setStarted Open)) ;;
  waitGroup ←
    (if PTY (conf p) then
       match spawned os with
       | None =>
           write (setExitStatus "1") ;; emit (ExitStatusSet "1") ;;
           return_ (Some "StartPTY")
       | Some pid =>
           childStarted pid ;;
           emit (Spawned PTYCopier) ;;
           mret 1%nat
       end
     else
       match spawned os with
       | None =>
           write (setExitStatus "1") ;; emit (ExitStatusSet "1") ;;
           return_ (Some "Start")
       | Some pid => childStarted pid ;; mret 0%nat
       end);
  waitGroup ←
    (if Handler (conf p) then emit (Spawned Scanner) ;; mret (waitGroup + 1)%nat
     else emit (Spawned Discarder) ;; mret waitGroup);
  let waitResult := waited os in
  emit (WaitReturned waitResult) ;;
  emit LineWriterClosed ;;
  closeChan done setDone DoneClosed ;;
  let status := getExitStatus ExitStatusOf waitResult in
  write (setExitStatus status) ;; emit (ExitStatusSet status) ;;
  let '(err, elapsed) := timeoutWait waitGroup (drained os) (timerFirst os) in
  emit (Drained elapsed (bool_decide (is_Some err))) ;;
  return_ None.

(** One call of [Start] on process [p]. *)
Definition run {W : Type} (ExitStatusOf : W → Z) (os : child W)
    (p : Process) : flow unit * machine W :=
  Start ExitStatusOf os {| proc := p; steps := [] |}.

(** [func (p *Process) Done() <-chan struct{}]: the channel is made here
    if [Start] has not made it yet. *)
Definition Done (p : Process) : Process * chan :=
  match done p with
  | None => (setDone Open p, Open)
  | Some d => (p, d)
  end.

(** A process and two children to run [Start] on: a child that exits
    with status 3 and whose output is never drained, and a child that
    cannot be started. *)
Definition shell : Process :=
  NewProcess {| PTY := true; Timestamp := false; Script := ["sh"; "-c"; "exit 3"];
                Env := []; Handler := true |}.

Definition exits3 : child Z :=
  {| spawned := Some 4242%Z; waited := ExitError (SysWaitStatus 768%Z);
     drained := None; timerFirst := false |}.

Definition unstartable : child Z :=
  {| spawned := None; waited := WaitNil; drained := Some 0%Z;
     timerFirst := false |}.

(** *** Started *)

(** [func (p *Process) Started() <-chan struct{}]: as [Done], for the
    channel that is closed when the child has been started. *)
Definition Started (p : Process) : Process * chan :=
  match started p with
  | None => (setStarted Open p, Open)
  | Some d => (p, d)
  end.

(** ** process/run.go *)

(** [func Run(l *logger.Logger, command string, arg ...string)].
    [Output] is [exec.Command(command, arg...).Output()], with [None]
    for an error; the output is returned without the line feeds at its
    ends. *)
Definition Run (Output : string → list string → option string)
    (command : string) (arg : list string) : option string :=
  match Output command arg with
  | None => None
  | Some output => Some (Go.Trim output Go.NEWLINE)
  end.

Definition isLF : ascii → bool := Go.isByte 10.

End Process.


(* ===================================================================== *)
(** * Part II: lemmas and theorems                                        *)
(* ===================================================================== *)

(** ** Facts about the library model *)

Module GoFacts.
Import Go.

Lemma app_nil_l (s : string) : "" +:+ s = s.
Proof. reflexivity. Qed.

Lemma app_cons (a : ascii) (s t : string) :
  String a s +:+ t = String a (s +:+ t).
Proof. reflexivity. Qed.

Lemma app_nil_r (s : string) : s +:+ "" = s.
Proof. induction s as [|a s IH]; [done|]. by rewrite app_cons, IH. Qed.

Lemma rev_app_twice (s t u : string) :
  String.rev_app (String.rev_app s t) u = String.rev_app t (s +:+ u).
Proof.
  revert t u. induction s as [|a s IH]; intros t u; simpl; [done|].
  by rewrite IH.
Qed.

Lemma rev_involutive (s : string) : String.rev (String.rev s) = s.
Proof.
  unfold String.rev. rewrite rev_app_twice. simpl. apply app_nil_r.
Qed.

Lemma all_rev_app (p : ascii → bool) (s t : string) :
  all p (String.rev_app s t) = all p s && all p t.
Proof.
  revert t. induction s as [|a s IH]; intros t; simpl; [done|].
  rewrite IH. simpl. destruct (p a), (all p s), (all p t); done.
Qed.

Lemma all_rev (p : ascii → bool) (s : string) :
  all p (String.rev s) = all p s.
Proof. unfold String.rev. rewrite all_rev_app. simpl. apply andb_true_r. Qed.

Lemma all_app (p : ascii → bool) (s t : string) :
  all p (s +:+ t) = all p s && all p t.
Proof.
  induction s as [|a s IH]; [done|].
  rewrite app_cons. simpl. rewrite IH. apply andb_assoc.
Qed.

Lemma all_impl (p q : ascii → bool) (s : string) :
  (∀ c, p c = true → q c = true) → all p s = true → all q s = true.
Proof.
  intros Hpq. induction s as [|a s IH]; simpl; [done|].
  intros [Ha Hs]%andb_true_iff. rewrite (Hpq _ Ha). simpl. auto.
Qed.

Lemma trimRunes_plain is2 is3 (a : ascii) (r : string) :
  asciiSpace a = false →
  (∀ b, is2 a b = false) → (∀ b c, is3 a b c = false) →
  trimRunes is2 is3 (String a r) = String a r.
Proof.
  intros Ha H2 H3. simpl. rewrite Ha.
  destruct r as [|b r2]; [done|]. rewrite H2.
  destruct r2 as [|c r3]; [done|]. by rewrite H3.
Qed.

Lemma plain_not_space (a : ascii) : plain a = true → asciiSpace a = false.
Proof. unfold plain. destruct (asciiSpace a); [|done]. by rewrite andb_false_r. Qed.

Lemma plain_ascii (a : ascii) : plain a = true → (code a < 128)%N.
Proof.
  unfold plain, isASCIIByte. intros [H _]%andb_true_iff. by apply N.ltb_lt.
Qed.

Lemma isByte_high (n : N) (a : ascii) :
  (code a < 128)%N → (128 <= n)%N → isByte n a = false.
Proof. unfold isByte. intros ??. apply N.eqb_neq. lia. Qed.

Lemma between_high (lo hi : N) (a : ascii) :
  (code a < 128)%N → (128 <= lo)%N → between lo hi a = false.
Proof.
  unfold between. intros ??. apply andb_false_iff. left. apply N.leb_gt. lia.
Qed.

Lemma plain_space2_l (a b : ascii) : plain a = true → space2 a b = false.
Proof.
  intros Ha%plain_ascii. unfold space2. by rewrite isByte_high.
Qed.

Lemma plain_space3_l (a b c : ascii) : plain a = true → space3 a b c = false.
Proof.
  intros Ha%plain_ascii. unfold space3.
  by rewrite !(isByte_high _ a) by done.
Qed.

Lemma plain_space2_r (a b : ascii) : plain b = true → space2 a b = false.
Proof.
  intros Hb%plain_ascii. unfold space2.
  rewrite !(isByte_high _ b) by done. apply andb_false_r.
Qed.

Lemma plain_space3_r (a b c : ascii) : plain c = true → space3 a b c = false.
Proof.
  intros Hc%plain_ascii. unfold space3.
  rewrite !(isByte_high _ c), (between_high _ _ c) by done.
  simpl. by rewrite !andb_false_r.
Qed.

Lemma TrimLeftSpace_plain (s : string) :
  all plain s = true → TrimLeftSpace s = s.
Proof.
  destruct s as [|a r]; [done|]. simpl. intros [Ha _]%andb_true_iff.
  apply trimRunes_plain;
    eauto using plain_not_space, plain_space2_l, plain_space3_l.
Qed.

Lemma TrimRightSpace_plain (s : string) :
  all plain s = true → TrimRightSpace s = s.
Proof.
  intros Hs. unfold TrimRightSpace.
  rewrite <- (all_rev plain) in Hs.
  destruct (String.rev s) as [|a r] eqn:Hrev.
  - simpl. by rewrite <- Hrev, rev_involutive.
  - simpl in Hs. apply andb_true_iff in Hs as [Ha _].
    rewrite trimRunes_plain;
      eauto using plain_not_space, plain_space2_r, plain_space3_r.
    by rewrite <- Hrev, rev_involutive.
Qed.

Lemma TrimSpace_plain (s : string) : all plain s = true → TrimSpace s = s.
Proof.
  intros Hs. unfold TrimSpace.
  rewrite TrimLeftSpace_plain by done. by apply TrimRightSpace_plain.
Qed.

Lemma span_all (p : ascii → bool) (k rest : string) :
  all p k = true → fst (span p rest) = "" →
  span p (k +:+ rest) = (k, rest).
Proof.
  intros Hk Hrest. induction k as [|a k IH].
  - rewrite app_nil_l. destruct rest as [|b rest]; [done|].
    simpl in *. destruct (p b); [|done].
    by destruct (span p rest).
  - simpl in Hk. apply andb_true_iff in Hk as [Ha Hk].
    rewrite app_cons. simpl. rewrite Ha, (IH Hk). done.
Qed.

Lemma Join_singleton (x sep : string) : Join [x] sep = x.
Proof. reflexivity. Qed.

Lemma SortStrings_Permutation (l : list string) : SortStrings l ≡ₚ l.
Proof. apply merge_sort_Permutation. Qed.

Lemma SortStrings_Sorted (l : list string) : Sorted String.le (SortStrings l).
Proof. apply (Sorted_merge_sort String.le). Qed.

(** The sorted result depends on the elements only, not on their order:
    the order in which a Go map is ranged over does not show. *)
Lemma SortStrings_order (l1 l2 : list string) :
  l1 ≡ₚ l2 → SortStrings l1 = SortStrings l2.
Proof.
  intros Hp. apply (Sorted_unique String.le); try apply SortStrings_Sorted.
  by rewrite !SortStrings_Permutation.
Qed.

Lemma Itoa_inj (z1 z2 : Z) : Itoa z1 = Itoa z2 → z1 = z2.
Proof.
  unfold Itoa. intros H.
  apply DecimalZ.to_int_inj.
  assert (Hn : ∀ z, Z.to_int z ≠ Decimal.Pos Decimal.Nil
                    ∧ Z.to_int z ≠ Decimal.Neg Decimal.Nil).
  { intros [|q|q]; simpl; split; try discriminate;
      intros [=Hq]; by apply DecimalPos.Unsigned.to_uint_nonnil in Hq. }
  apply (f_equal NilZero.int_of_string) in H.
  rewrite !NilZero.isi in H by apply Hn. congruence.
Qed.

End GoFacts.

(** ** More facts about the library model *)

Module GoLemmas.
Import Go GoFacts.

(** *** Concatenation and reversal *)

Lemma app_assoc (s t u : string) : (s +:+ t) +:+ u = s +:+ (t +:+ u).
Proof. induction s as [|c s IH]; [done|]. by rewrite !app_cons, IH. Qed.

Lemma length_app (s t : string) :
  String.length (s +:+ t) = String.length s + String.length t.
Proof.
  induction s as [|c s IH]; [done|]. rewrite app_cons. cbn [String.length].
  by rewrite IH.
Qed.

Lemma app_inv_length (a s b : string) : s = a +:+ s +:+ b → a = "" ∧ b = "".
Proof.
  intros H. apply (f_equal String.length) in H. rewrite !length_app in H.
  destruct a, b; simpl in H; try done; lia.
Qed.

Lemma rev_app_acc (s acc : string) :
  String.rev_app s acc = String.rev s +:+ acc.
Proof.
  unfold String.rev. revert acc.
  induction s as [|c s IH]; intros acc; [done|]. simpl.
  rewrite IH, (IH (String c "")). by rewrite app_assoc.
Qed.

Lemma rev_cons (c : ascii) (s : string) :
  String.rev (String c s) = String.rev s +:+ String c "".
Proof. unfold String.rev at 1. simpl. by rewrite rev_app_acc. Qed.

Lemma rev_app (s t : string) :
  String.rev (s +:+ t) = String.rev t +:+ String.rev s.
Proof.
  induction s as [|c s IH].
  - by rewrite app_nil_l, app_nil_r.
  - rewrite app_cons, !rev_cons, IH. by rewrite app_assoc.
Qed.

(** *** dropWhile and Trim *)

Lemma dropWhile_split (p : ascii → bool) (s : string) :
  ∃ a, s = a +:+ dropWhile p s ∧ all p a = true.
Proof.
  induction s as [|c s (a & Ha & Hp)]; [by exists ""|]. simpl.
  destruct (p c) eqn:Hc.
  - exists (String c a). rewrite app_cons, <- Ha. simpl. by rewrite Hc, Hp.
  - by exists "".
Qed.

Lemma dropWhile_head (p : ascii → bool) (s : string) (c : ascii) (r : string) :
  dropWhile p s = String c r → p c = false.
Proof.
  induction s as [|d s IH]; [done|]. simpl.
  destruct (p d) eqn:Hd; [done|]. intros [= -> _]. done.
Qed.

(** [Trim] cuts a run of cutset bytes off each end. *)
Lemma Trim_split (s cutset : string) :
  ∃ a b, s = a +:+ Trim s cutset +:+ b
         ∧ all (inSet cutset) a = true ∧ all (inSet cutset) b = true.
Proof.
  unfold Trim.
  destruct (dropWhile_split (inSet cutset) s) as (a & Ha & Hpa).
  destruct (dropWhile_split (inSet cutset)
              (String.rev (dropWhile (inSet cutset) s))) as (b & Hb & Hpb).
  exists a, (String.rev b). split; [|by rewrite all_rev].
  rewrite <- rev_app, <- Hb, rev_involutive. done.
Qed.

Lemma Trim_first (s cutset : string) (c : ascii) (r : string) :
  Trim s cutset = String c r → inSet cutset c = false.
Proof.
  unfold Trim. intros H.
  destruct (dropWhile_split (inSet cutset)
              (String.rev (dropWhile (inSet cutset) s))) as (b & Hb & _).
  apply (f_equal String.rev) in Hb. rewrite rev_involutive, rev_app, H in Hb.
  rewrite app_cons in Hb. by apply dropWhile_head in Hb.
Qed.

Lemma Trim_last (s cutset : string) (c : ascii) (r : string) :
  String.rev (Trim s cutset) = String c r → inSet cutset c = false.
Proof.
  unfold Trim. rewrite rev_involutive. apply dropWhile_head.
Qed.

(** *** Split, Join, Count *)

Lemma Split_nonempty (s : string) (sep : ascii) : Split s sep ≠ [].
Proof.
  destruct s as [|c s]; [done|]. simpl.
  destruct (Ascii.eqb c sep); [done|]. by destruct (Split s sep).
Qed.

Lemma Join_cons (x y : string) (l : list string) (sep : string) :
  Join (x :: y :: l) sep = x +:+ sep +:+ Join (y :: l) sep.
Proof. done. Qed.

Lemma Join_Split (s : string) (sep : ascii) :
  Join (Split s sep) (String sep "") = s.
Proof.
  induction s as [|c s IH]; [done|]. simpl.
  pose proof (Split_nonempty s sep) as Hne.
  destruct (Ascii.eqb c sep) eqn:Hc.
  - apply Ascii.eqb_eq in Hc as ->.
    destruct (Split s sep) as [|h t]; [done|].
    rewrite Join_cons, IH. done.
  - destruct (Split s sep) as [|h [|h' t]]; [done| |].
    + unfold Join in *. simpl in *. by rewrite IH.
    + rewrite Join_cons in *. rewrite app_cons. by rewrite IH.
Qed.

Lemma length_Split (s : string) (sep : ascii) :
  length (Split s sep) = S (Count s sep).
Proof.
  induction s as [|c s IH]; [done|]. simpl.
  pose proof (Split_nonempty s sep) as Hne.
  destruct (Ascii.eqb c sep); simpl; [by rewrite IH|].
  destruct (Split s sep); [done|]. done.
Qed.

Lemma Split_free (s : string) (sep : ascii) :
  free sep s = true → Split s sep = [s].
Proof.
  unfold free. induction s as [|c s IH]; [done|]. simpl.
  intros [Hc Hs]%andb_prop. apply negb_true_iff in Hc. rewrite Hc.
  by rewrite IH.
Qed.

Lemma Split_app (a b : string) (sep : ascii) :
  free sep a = true →
  Split (a +:+ String sep b) sep = a :: Split b sep.
Proof.
  unfold free. induction a as [|c a IH]; simpl.
  - intros _. by rewrite Ascii.eqb_refl.
  - intros [Hc Ha]%andb_prop. apply negb_true_iff in Hc. rewrite Hc.
    by rewrite IH.
Qed.

Lemma Split_Join (lines : list string) (sep : ascii) :
  lines ≠ [] → Forall (λ l, free sep l = true) lines →
  Split (Join lines (String sep "")) sep = lines.
Proof.
  induction lines as [|x [|y l] IH]; intros Hne Hall; [done| |].
  - apply Forall_inv in Hall. unfold Join. simpl. by apply Split_free.
  - rewrite Join_cons. rewrite app_cons, app_nil_l.
    rewrite Split_app by by apply Forall_inv in Hall.
    rewrite IH; [done|done|]. by apply Forall_inv_tail in Hall.
Qed.

Lemma Split_all (P : ascii → bool) (s : string) (sep : ascii) :
  all P s = true → Forall (λ x, all P x = true) (Split s sep).
Proof.
  induction s as [|c s IH]; [by repeat constructor|]. simpl.
  intros [Hc Hs]%andb_prop. specialize (IH Hs).
  destruct (Ascii.eqb c sep); [by constructor|].
  destruct (Split s sep) as [|h t].
  - repeat constructor. simpl. by rewrite Hc.
  - inversion IH; subst. constructor; [|done]. simpl. by rewrite Hc.
Qed.

(** *** HasPrefix and TrimPrefix *)

Lemma substring_all (s : string) : String.substring 0 (String.length s) s = s.
Proof. induction s as [|c s IH]; [done|]. simpl. by rewrite IH. Qed.

Lemma prefix_app (p t : string) : String.prefix p (p +:+ t) = true.
Proof.
  induction p as [|c p IH]; simpl; [by destruct t|].
  destruct (ascii_dec c c); [done|done].
Qed.

Lemma TrimPrefix_app (p t : string) : TrimPrefix (p +:+ t) p = t.
Proof.
  unfold TrimPrefix, HasPrefix. rewrite prefix_app, length_app.
  replace (String.length p + String.length t - String.length p)
    with (String.length t) by lia.
  induction p as [|c p IH]; simpl; [apply substring_all|done].
Qed.

(** *** TrimSpace *)

Lemma trimRunes_space is2 is3 (a : ascii) (r : string) :
  asciiSpace a = true →
  trimRunes is2 is3 (String a r) = trimRunes is2 is3 r.
Proof. intros H. cbn [trimRunes]. by rewrite H. Qed.

Lemma trimRunes_two is2 is3 (a b : ascii) (r : string) :
  asciiSpace a = false → is2 a b = true →
  trimRunes is2 is3 (String a (String b r)) = trimRunes is2 is3 r.
Proof. intros Ha Hb. cbn [trimRunes]. by rewrite Ha, Hb. Qed.

Lemma trimRunes_three is2 is3 (a b c : ascii) (r : string) :
  asciiSpace a = false → is2 a b = false → is3 a b c = true →
  trimRunes is2 is3 (String a (String b (String c r))) = trimRunes is2 is3 r.
Proof. intros Ha Hb Hc. cbn [trimRunes]. by rewrite Ha, Hb, Hc. Qed.

Lemma trimRunes_split is2 is3 (s : string) :
  ∃ a, s = a +:+ trimRunes is2 is3 s.
Proof.
  remember (String.length s) as n eqn:Hn. revert s Hn.
  induction n as [n IH] using lt_wf_ind. intros s ->.
  destruct s as [|a r]; [by exists ""|].
  destruct (asciiSpace a) eqn:Ha.
  { rewrite trimRunes_space by done.
    destruct (IH (String.length r) ltac:(simpl; lia) r eq_refl) as (x & Hx).
    exists (String a x). by rewrite app_cons, <- Hx. }
  destruct r as [|b r]; [exists ""; cbn [trimRunes]; by rewrite Ha|].
  destruct (is2 a b) eqn:Hb.
  { rewrite trimRunes_two by done.
    destruct (IH (String.length r) ltac:(simpl; lia) r eq_refl) as (x & Hx).
    exists (String a (String b x)). by rewrite !app_cons, <- Hx. }
  destruct r as [|c r]; [exists ""; cbn [trimRunes]; by rewrite Ha, Hb|].
  destruct (is3 a b c) eqn:Hc.
  { rewrite trimRunes_three by done.
    destruct (IH (String.length r) ltac:(simpl; lia) r eq_refl) as (x & Hx).
    exists (String a (String b (String c x))). by rewrite !app_cons, <- Hx. }
  exists "". cbn [trimRunes]. by rewrite Ha, Hb, Hc.
Qed.

Lemma trimRunes_length is2 is3 (s : string) :
  String.length (trimRunes is2 is3 s) ≤ String.length s.
Proof.
  destruct (trimRunes_split is2 is3 s) as (a & Ha).
  rewrite Ha at 2. rewrite length_app. lia.
Qed.

(** A text that the trimming leaves alone starts with no white space. *)
Lemma trimRunes_fixed is2 is3 (a : ascii) (r : string) :
  trimRunes is2 is3 (String a r) = String a r →
  asciiSpace a = false
  ∧ match r with
    | String b r2 =>
        is2 a b = false
        ∧ match r2 with
          | String c _ => is3 a b c = false
          | EmptyString => True
          end
    | EmptyString => True
    end.
Proof.
  intros H. apply (f_equal String.length) in H.
  destruct (asciiSpace a) eqn:Ha.
  { rewrite trimRunes_space in H by done.
    pose proof (trimRunes_length is2 is3 r). simpl in H. lia. }
  split; [done|]. destruct r as [|b r]; [done|].
  destruct (is2 a b) eqn:Hb.
  { rewrite trimRunes_two in H by done.
    pose proof (trimRunes_length is2 is3 r). simpl in H. lia. }
  split; [done|]. destruct r as [|c r]; [done|].
  destruct (is3 a b c) eqn:Hc; [|done].
  rewrite trimRunes_three in H by done.
  pose proof (trimRunes_length is2 is3 r). simpl in H. lia.
Qed.

Lemma TrimRightSpace_split (s : string) : ∃ b, s = TrimRightSpace s +:+ b.
Proof.
  unfold TrimRightSpace.
  destruct (trimRunes_split (λ b a, space2 a b) (λ c b a, space3 a b c)
              (String.rev s)) as (a & Ha).
  exists (String.rev a). rewrite <- rev_app, <- Ha. by rewrite rev_involutive.
Qed.

(** Where [TrimSpace] changes nothing, neither half of it does. *)
Lemma TrimSpace_fixed (s : string) :
  TrimSpace s = s → TrimLeftSpace s = s ∧ TrimRightSpace s = s.
Proof.
  unfold TrimSpace. intros H.
  destruct (trimRunes_split space2 space3 s) as (a & Ha).
  fold (TrimLeftSpace s) in Ha.
  destruct (TrimRightSpace_split (TrimLeftSpace s)) as (b & Hb).
  rewrite H in Hb. rewrite Hb in Ha.
  apply app_inv_length in Ha as [-> ->].
  rewrite app_nil_r in Hb. by rewrite Hb in H.
Qed.

Lemma TrimLeftSpace_LF (s : string) :
  s ≠ "" → TrimLeftSpace s = s → TrimLeftSpace (s +:+ NEWLINE) = s +:+ NEWLINE.
Proof.
  unfold TrimLeftSpace. destruct s as [|a r]; [done|]. intros _ H.
  apply trimRunes_fixed in H as (Ha & H).
  assert (∀ x, space2 x "010" = false) as H2.
  { intros x. unfold space2, isByte. simpl. by rewrite andb_false_r. }
  assert (∀ x y, space3 x y "010" = false) as H3.
  { intros x y. unfold space3, isByte, between. simpl.
    by rewrite !andb_false_r. }
  destruct r as [|b [|c r]].
  - change (String a "" +:+ NEWLINE) with (String a (String "010" "")).
    cbn [trimRunes]. by rewrite Ha, H2.
  - destruct H as (Hb & _).
    change (String a (String b "") +:+ NEWLINE)
      with (String a (String b (String "010" ""))).
    cbn [trimRunes]. by rewrite Ha, Hb, H3.
  - destruct H as (Hb & Hc). rewrite !app_cons. cbn [trimRunes].
    by rewrite Ha, Hb, Hc.
Qed.

Lemma TrimRightSpace_LF (s : string) :
  TrimRightSpace (s +:+ NEWLINE) = TrimRightSpace s.
Proof. unfold TrimRightSpace. by rewrite rev_app. Qed.

Lemma TrimSpace_LF (s : string) :
  TrimSpace s = s → TrimSpace (s +:+ NEWLINE) = s.
Proof.
  intros H. destruct (decide (s = "")) as [->|Hne]; [done|].
  apply TrimSpace_fixed in H as (Hl & Hr). unfold TrimSpace.
  by rewrite TrimLeftSpace_LF, TrimRightSpace_LF.
Qed.

(** *** Bytes *)

Lemma eqb_isByte (c d : ascii) : Ascii.eqb c d = isByte (code d) c.
Proof.
  unfold isByte, code. destruct (Ascii.eqb_spec c d) as [->|Hne].
  - by rewrite N.eqb_refl.
  - symmetry. apply N.eqb_neq. intros H. apply Hne.
    by rewrite <- (ascii_N_embedding c), <- (ascii_N_embedding d), H.
Qed.

End GoLemmas.

(** ** shell/environment.go *)

Module ShellSpec.
Import Go GoFacts Shell.

(** *** The line pattern *)

Lemma keyByte_plain (c : ascii) : isKeyByte c = true → plain c = true.
Proof.
  unfold isKeyByte, isAlnum, isLetter, isLower, isUpper, isDigit, plain,
    isASCIIByte, asciiSpace, between, isByte.
  generalize (code c). intros n H.
  repeat match type of H with
         | context [(?a <=? ?b)%N] => destruct (N.leb_spec a b)
         | context [(?a =? ?b)%N] => destruct (N.eqb_spec a b)
         end; simpl in H; try done;
    repeat match goal with
           | |- context [(?a <=? ?b)%N] => destruct (N.leb_spec a b)
           | |- context [(?a <? ?b)%N] => destruct (N.ltb_spec a b)
           | |- context [(?a =? ?b)%N] => destruct (N.eqb_spec a b)
           end; simpl; try done; lia.
Qed.

Lemma validKey_inv (k : string) :
  validKey k = true →
  ∃ k0 k', k = String k0 k' ∧ isLetter k0 = true ∧ all isKeyByte k = true.
Proof.
  destruct k as [|k0 k']; [done|]. unfold validKey.
  intros [??]%andb_true_iff. eauto.
Qed.

Lemma validKey_TrimSpace (k : string) : validKey k = true → TrimSpace k = k.
Proof.
  intros (k0 & k' & -> & _ & Hall)%validKey_inv.
  apply TrimSpace_plain. eapply all_impl; [apply keyByte_plain|done].
Qed.

(** A line [key=value] with a valid key and a non-empty value without
    line feed matches, and the groups are the key and the value. *)
Lemma regex_line (k v : string) :
  validKey k = true → v ≠ "" → all notLF v = true →
  EnvironmentVariableLineRegex (line (k, v)) = Some (k, v).
Proof.
  intros (k0 & k' & -> & Hk0 & Hall)%validKey_inv Hv Hlf.
  unfold EnvironmentVariableLineRegex, line. simpl fst. simpl snd.
  rewrite (span_all isKeyByte) by done.
  rewrite app_cons, app_nil_l, Hk0, Hlf.
  destruct (String.eqb_spec v ""); done.
Qed.

(** *** Set on plain keys and values *)

Lemma plainKey_inv pf (k : string) :
  plainKey pf k = true →
  validKey k = true ∧
  (GOOS pf = "windows" → all (λ c, negb (isLower c)) k = true).
Proof.
  unfold plainKey. intros [Hv Hw]%andb_true_iff. split; [done|].
  intros Hos. rewrite Hos in Hw. done.
Qed.

Lemma plainValue_inv (v : string) :
  plainValue v = true →
  v ≠ "" ∧ all notLF v = true ∧ TrimSpace v = v ∧ quoted v = false.
Proof.
  unfold plainValue.
  intros [[[Hne Hlf]%andb_true_iff Htrim]%andb_true_iff Hq]%andb_true_iff.
  repeat split; try done.
  - intros ->. done.
  - by apply String.eqb_eq.
  - by destruct (quoted v).
Qed.

Lemma mapBytes_upper_id (s : string) :
  all (λ c, negb (isLower c)) s = true → mapBytes upperByte s = s.
Proof.
  induction s as [|a s IH]; simpl; [done|].
  intros [Ha Hs]%andb_true_iff. rewrite (IH Hs). unfold upperByte.
  by destruct (isLower a).
Qed.

Lemma plain_isASCII (c : ascii) : plain c = true → isASCIIByte c = true.
Proof. unfold plain. by intros [??]%andb_true_iff. Qed.

Lemma setKey_plain pf (k : string) : plainKey pf k = true → setKey pf k = k.
Proof.
  intros [Hv Hw]%plainKey_inv. unfold setKey.
  rewrite validKey_TrimSpace by done.
  destruct (String.eqb_spec (GOOS pf) "windows") as [Hos|]; [|done].
  apply validKey_inv in Hv as (k0 & k' & -> & _ & Hall).
  unfold ToUpper.
  rewrite (all_impl isKeyByte isASCIIByte)
    by eauto using keyByte_plain, plain_isASCII.
  by apply mapBytes_upper_id, Hw.
Qed.

Lemma setValue_plain (v : string) : plainValue v = true → setValue v = v.
Proof.
  intros (_ & _ & Htrim & Hq)%plainValue_inv. unfold setValue.
  by rewrite Htrim, Hq.
Qed.

Lemma Set_plain pf (e : Environment) (k v : string) :
  plainKey pf k = true → plainValue v = true →
  Set_ pf e k v = (<[k := v]> e, v).
Proof.
  intros Hk Hv. unfold Set_. by rewrite setKey_plain, setValue_plain.
Qed.

Lemma validKey_nonempty (k : string) : validKey k = true → k ≠ "".
Proof. by intros (k0 & k' & -> & _)%validKey_inv. Qed.

(** *** The parsing loop on plain lines *)

Lemma flush_tidy pf (st : scan) :
  tidy pf st → currentValueSlice (flush pf st) = [].
Proof.
  intros [[Hk Hv]|(v & [Hk Hpv] & Hv)]; unfold flush; rewrite Hv.
  - by rewrite Hk.
  - simpl in Hk. apply plainKey_inv in Hk as [Hk%validKey_nonempty _].
    by destruct (String.eqb_spec (currentKeyName st) "").
Qed.

Lemma scanLine_plain pf (st : scan) (kv : string * string) :
  tidy pf st → plainEntry pf kv →
  tidy pf (scanLine pf st (line kv))
  ∧ env (flush pf (scanLine pf st (line kv))) = put (env (flush pf st)) kv.
Proof.
  intros Hst [Hk Hv]. destruct kv as [k v]. simpl in Hk, Hv.
  pose proof (plainKey_inv _ _ Hk) as [Hvk _].
  pose proof (plainValue_inv _ Hv) as (Hne & Hlf & _).
  unfold scanLine. rewrite regex_line by done.
  rewrite (flush_tidy pf st Hst). simpl app. split.
  - right. exists v. done.
  - unfold flush at 1. simpl.
    destruct (String.eqb_spec k "") as [->|_]; [done|]. simpl.
    by rewrite setKey_plain, setValue_plain.
Qed.

Lemma scan_plain pf (entries : list (string * string)) (st : scan) :
  tidy pf st → Forall (plainEntry pf) entries →
  env (flush pf (foldl (scanLine pf) st (line <$> entries)))
  = foldl put (env (flush pf st)) entries.
Proof.
  revert st. induction entries as [|kv entries IH]; intros st Hst Hall.
  - done.
  - apply Forall_cons in Hall as [Hkv Hall].
    destruct (scanLine_plain pf st kv Hst Hkv) as [Htidy Henv].
    simpl. rewrite IH by done. by rewrite Henv.
Qed.

Lemma EnvironmentFromSlice_flush pf (s : list string) :
  EnvironmentFromSlice pf s
  = env (flush pf (foldl (scanLine pf)
           {| env := ∅; currentKeyName := ""; currentValueSlice := [] |} s)).
Proof.
  unfold EnvironmentFromSlice, flush.
  by destruct (_ && _).
Qed.

Lemma foldl_put (l : list (string * string)) (m : Environment) :
  foldl put m l = list_to_map (reverse l) ∪ m.
Proof.
  revert m. induction l as [|[k v] l IH]; intros m; simpl.
  - by rewrite (left_id_L ∅ (∪)).
  - rewrite IH, reverse_cons, list_to_map_app. simpl.
    unfold put. simpl.
    rewrite <- (assoc_L (∪)). f_equal.
    by rewrite insert_empty, <- insert_union_singleton_l.
Qed.

(** Storing the entries of a map one by one, in any order, rebuilds the
    map. *)
Lemma foldl_put_entries (e : Environment) (l : list (string * string)) :
  l ≡ₚ map_to_list e → foldl put ∅ l = e.
Proof.
  intros Hl. rewrite foldl_put, (right_id_L ∅ (∪)).
  rewrite <- (list_to_map_to_list e).
  apply list_to_map_proper.
  - rewrite reverse_Permutation, Hl. apply NoDup_fst_map_to_list.
  - by rewrite reverse_Permutation.
Qed.

(** C1, as amended. For every environment in which every key is one the
    line pattern accepts (letters, digits and underscores after a first
    letter; no lower-case letter on Windows) and every value is
    non-empty, free of line feeds, without white space at either end and
    not enclosed in quotes, parsing the slice form of the environment
    gives the environment back:
    [EnvironmentFromSlice(e.ToSlice()) == e]. *)
Theorem EnvironmentFromSlice_ToSlice pf (e : Environment) :
  (∀ k v, e !! k = Some v → plainKey pf k = true ∧ plainValue v = true) →
  EnvironmentFromSlice pf (ToSlice e) = e.
Proof.
  intros Hplain.
  assert (Hsorted : Permutation (ToSlice e) (map line (map_to_list e)))
    by apply SortStrings_Permutation.
  apply Permutation_map_inv in Hsorted as (entries & Hlines & Hperm).
  change (map line entries) with (line <$> entries) in Hlines.
  rewrite EnvironmentFromSlice_flush, Hlines, scan_plain.
  - apply foldl_put_entries. by symmetry.
  - by left.
  - apply Forall_forall. intros [k v] Hin.
    apply Hplain, elem_of_map_to_list. by rewrite Hperm.
Qed.

(** The theorem at work on [plainEnv]. *)
Lemma EnvironmentFromSlice_ToSlice_witness :
  (∀ k v, plainEnv !! k = Some v →
          plainKey linux k = true ∧ plainValue v = true)
  ∧ EnvironmentFromSlice linux (ToSlice plainEnv) = plainEnv.
Proof.
  assert (H : ∀ k v, plainEnv !! k = Some v →
                     plainKey linux k = true ∧ plainValue v = true).
  { intros k v Hkv. apply elem_of_map_to_list in Hkv.
    vm_compute in Hkv.
    repeat (apply elem_of_cons in Hkv as [Hkv|Hkv];
            [injection Hkv as -> ->; vm_compute; done|]).
    by apply elem_of_nil in Hkv. }
  split; [exact H|]. apply (EnvironmentFromSlice_ToSlice linux plainEnv H).
Defined.

(** C1 as stated fails: an empty value is lost on the way (the line
    [A=] does not match the pattern), and so is a value with a line feed
    in it (the pattern's second group stops at a line feed, and the line
    as a whole must match).  A value with white space at its ends comes
    back trimmed. *)
Lemma EnvironmentFromSlice_ToSlice_fails :
  emptyValue !! "A" = Some ""
  ∧ EnvironmentFromSlice linux (ToSlice emptyValue) ≠ emptyValue
  ∧ twoLines !! "A" = Some ("x" +:+ NEWLINE +:+ "y")
  ∧ EnvironmentFromSlice linux (ToSlice twoLines) ≠ twoLines
  ∧ paddedValue !! "K" = Some " a "
  ∧ EnvironmentFromSlice linux (ToSlice paddedValue) ≠ paddedValue.
Proof.
  repeat split; try (vm_compute; reflexivity);
    intros H; apply (f_equal (λ m : Environment, m !! "A" ∪ m !! "K")) in H;
    vm_compute in H; discriminate.
Qed.

(** *** Set, Diff, Merge and Copy *)

Lemma Copy_id (e : Environment) : Copy e = e.
Proof. apply (foldl_put_entries e). done. Qed.

Lemma lookup_Set pf (e : Environment) (k v k' : string) :
  (Set_ pf e k v).1 !! k'
  = if decide (setKey pf k = k') then Some (setValue v) else e !! k'.
Proof. unfold Set_. simpl. apply lookup_insert. Qed.

Lemma diffOver_lookup pf (other : Environment)
    (entries : list (string * string)) (k' v' : string) :
  diffOver pf other entries !! k' = Some v' →
  ∃ k v, (k, v) ∈ entries ∧ Get other k ≠ v
         ∧ k' = setKey pf k ∧ v' = setValue v.
Proof.
  unfold diffOver.
  cut (∀ acc : Environment,
         foldl (λ diff kv,
                  if String.eqb (Get other kv.1) kv.2 then diff
                  else (Set_ pf diff kv.1 kv.2).1) acc entries !! k' = Some v' →
         acc !! k' = Some v'
         ∨ ∃ k v, (k, v) ∈ entries ∧ Get other k ≠ v
                  ∧ k' = setKey pf k ∧ v' = setValue v).
  { intros Hcut H. by destruct (Hcut ∅ H) as [?|?]. }
  induction entries as [|[k v] entries IH]; intros acc H;
    cbn [foldl fst snd] in H.
  - by left.
  - apply IH in H as [H|(k1 & v1 & Hin & ?)].
    + destruct (String.eqb_spec (Get other k) v) as [|Hne]; [by left|].
      rewrite lookup_Set in H. destruct (decide (setKey pf k = k')).
      * right. exists k, v. split; [by left|]. by simplify_eq.
      * by left.
    + right. exists k1, v1. split; [by right|done].
Qed.

Lemma mergeOver_lookup pf (c : Environment)
    (entries : list (string * string)) (k' v' : string) :
  mergeOver pf c entries !! k' = Some v' →
  c !! k' = Some v'
  ∨ ∃ k v, (k, v) ∈ entries ∧ k' = setKey pf k ∧ v' = setValue v.
Proof.
  unfold mergeOver. revert c.
  induction entries as [|[k v] entries IH]; intros c H;
    cbn [foldl fst snd] in H.
  - by left.
  - apply IH in H as [H|(k1 & v1 & Hin & ?)].
    + rewrite lookup_Set in H. destruct (decide (setKey pf k = k')).
      * right. exists k, v. split; [by left|]. by simplify_eq.
      * by left.
    + right. exists k1, v1. split; [by right|done].
Qed.

(** C10, as amended. [Set] stores under the trimmed key (upper-cased on
    Windows) the normalised value: the value trimmed of white space and,
    if it then begins and ends with a double quote or begins and ends
    with a single quote, stripped of the quotes at its ends with the
    escape sequences backslash-quote and backslash-n expanded.  Every
    entry of the result of [Diff], and every entry that [Merge] takes
    from the other environment, has been stored by [Set] in this way.
    [Copy] copies the stored entries as they are.  [Get] after [Set]
    can return a string other than the one given to [Set]. *)
Theorem Set_normalizes pf :
  (∀ (e : Environment) k v,
      (Set_ pf e k v).1 !! setKey pf k = Some (setValue v)
      ∧ (Set_ pf e k v).2 = setValue v)
  ∧ (∀ k, setKey pf k
          = if String.eqb (GOOS pf) "windows"
            then ToUpper (unicode pf) (TrimSpace k) else TrimSpace k)
  ∧ (∀ v, setValue v
          = if quoted (TrimSpace v)
            then Replace
                   (Replace (Trim (TrimSpace v) (DQUOTE +:+ SQUOTE))
                      (BACKSLASH +:+ DQUOTE) DQUOTE)
                   (BACKSLASH +:+ "n") NEWLINE
            else TrimSpace v)
  ∧ (∀ (e other : Environment) k' v',
      Diff pf e other !! k' = Some v' →
      ∃ k v, e !! k = Some v ∧ Get other k ≠ v
             ∧ k' = setKey pf k ∧ v' = setValue v)
  ∧ (∀ (e other : Environment) k' v',
      Merge pf e other !! k' = Some v' →
      e !! k' = Some v'
      ∨ ∃ k v, other !! k = Some v ∧ k' = setKey pf k ∧ v' = setValue v)
  ∧ (∀ e : Environment, Copy e = e)
  ∧ (∃ k v, Get (Set_ pf ∅ k v).1 k ≠ v).
Proof.
  repeat apply conj.
  - intros e k v. by rewrite lookup_Set, decide_True.
  - done.
  - done.
  - intros e other k' v' (k & v & Hin%elem_of_map_to_list & ?)%diffOver_lookup.
    eauto.
  - intros e other k' v' [H|(k & v & Hin%elem_of_map_to_list & ?)]%mergeOver_lookup.
    + left. by rewrite Copy_id in H.
    + right. eauto.
  - apply Copy_id.
  - exists "K", " x ". unfold Get. rewrite lookup_Set.
    assert (HK : setKey pf "K" = "K").
    { unfold setKey. by destruct (String.eqb (GOOS pf) "windows"). }
    rewrite HK, decide_True by done. vm_compute. discriminate.
Qed.

(** C10 as stated fails for [Copy]: the copy of a stored value is the
    value itself, not its normal form.  [paddedValue] holds the value
    [ a ] (with the blanks), which [Set] would store as [a]. *)
Lemma Copy_does_not_normalize :
  ¬ (∀ (e : Environment) k v,
       e !! k = Some v → Copy e !! setKey linux k = Some (setValue v)).
Proof.
  intros H. specialize (H paddedValue "K" " a ").
  vm_compute in H. by specialize (H eq_refl).
Qed.

(** Quoted values, as [Set] stores them. *)
Example setValue_double_quoted :
  setValue (DQUOTE +:+ "say " +:+ BACKSLASH +:+ DQUOTE +:+ "hi" +:+ BACKSLASH
            +:+ DQUOTE +:+ " now" +:+ BACKSLASH +:+ "n" +:+ DQUOTE)
  = "say " +:+ DQUOTE +:+ "hi" +:+ DQUOTE +:+ " now" +:+ NEWLINE.
Proof. reflexivity. Qed.

(** [strings.Trim] takes every quote off the ends, an escaped one too. *)
Example setValue_escaped_at_end :
  setValue (DQUOTE +:+ "a" +:+ BACKSLASH +:+ DQUOTE +:+ DQUOTE)
  = "a" +:+ BACKSLASH.
Proof. reflexivity. Qed.

Example setValue_single_quoted :
  setValue ("  " +:+ SQUOTE +:+ "it" +:+ SQUOTE +:+ "s" +:+ SQUOTE +:+ " ")
  = "it" +:+ SQUOTE +:+ "s".
Proof. reflexivity. Qed.

Example setValue_half_quoted :
  setValue (DQUOTE +:+ "a" +:+ SQUOTE) = DQUOTE +:+ "a" +:+ SQUOTE.
Proof. reflexivity. Qed.

End ShellSpec.

(** ** agent/plugin.go *)

Module PluginSpec.
Import Go GoFacts Agent.

(** *** MergePlugins *)

Lemma agentLoop_made (ks : gset string) (result agentPlugins : list Plugin) :
  agentLoop (Some ks) result agentPlugins
  = Ok (Some (list_to_set (Location <$> agentPlugins) ∪ ks),
        result ++ agentPlugins).
Proof.
  revert ks result.
  induction agentPlugins as [|p agentPlugins IH]; intros ks result; simpl.
  - by rewrite (left_id_L ∅ (∪)), List.app_nil_r.
  - rewrite IH, <- (assoc_L (++)). simpl. do 3 f_equal.
    apply set_eq. intros x. rewrite !elem_of_union. tauto.
Qed.

Lemma jobLoop_filter (m : keyset) (result jobPlugins : list Plugin) :
  jobLoop m result jobPlugins
  = result ++ filter (λ p, present m (Location p) = false) jobPlugins.
Proof.
  unfold jobLoop. revert result.
  induction jobPlugins as [|p jobPlugins IH]; intros result; simpl.
  - by rewrite filter_nil, List.app_nil_r.
  - rewrite IH. destruct (present m (Location p)) eqn:Hp.
    + by rewrite filter_cons_False by (rewrite Hp; done).
    + rewrite filter_cons_True by done. by rewrite <- (assoc_L (++)).
Qed.

(** Had [pluginMap] been made before the first loop, the two loops would
    compute what the specification asks for. *)
Lemma mergeFrom_made (jobPlugins agentPlugins : list Plugin) :
  mergeFrom (Some ∅) jobPlugins agentPlugins
  = Ok (mergeSpec jobPlugins agentPlugins).
Proof.
  unfold mergeFrom, mergeSpec. rewrite agentLoop_made, jobLoop_filter.
  simpl. do 2 f_equal. apply list_filter_iff. intros p. simpl.
  rewrite (right_id_L ∅ (∪)), bool_decide_eq_false.
  by rewrite elem_of_list_to_set.
Qed.

(** Without agent plugins the first loop never writes to the map, and
    the job's plugins are returned. *)
Lemma MergePlugins_no_agent (jobPlugins : list Plugin) :
  MergePlugins jobPlugins [] = Ok jobPlugins.
Proof.
  unfold MergePlugins, mergeFrom. simpl. rewrite jobLoop_filter. simpl.
  f_equal. induction jobPlugins as [|p l IH]; [done|].
  by rewrite filter_cons_True, IH.
Qed.

(** C2. With at least one agent plugin, [MergePlugins] panics at the
    first write to the map that was never made: it does not return the
    merged list. *)
Theorem MergePlugins_panics (jobPlugins agentPlugins : list Plugin)
    (plugin : Plugin) :
  MergePlugins jobPlugins (plugin :: agentPlugins)
  = Panic "assignment to entry in nil map".
Proof. reflexivity. Qed.

(** *** ResolvePluginLocation *)

Lemma Split_noSlash (s : string) :
  noSlash s = true → Split s "/" = [s].
Proof.
  induction s as [|c s IH]; [done|]. simpl.
  intros [Hc Hs]%andb_true_iff. rewrite (IH Hs).
  unfold isSlash, isByte in Hc.
  destruct (Ascii.eqb_spec c "/") as [->|_]; done.
Qed.

Lemma Split_segment (a b : string) :
  noSlash a = true → Split (a +:+ "/" +:+ b) "/" = a :: Split b "/".
Proof.
  induction a as [|c a IH]; [done|]. rewrite (app_cons c a). simpl.
  intros [Hc Ha]%andb_true_iff. rewrite (IH Ha). unfold isSlash, isByte in Hc.
  destruct (Ascii.eqb_spec c "/") as [->|_]; done.
Qed.

Lemma slashes_app (s t : string) : slashes (s +:+ t) = slashes s + slashes t.
Proof.
  induction s as [|c s IH]; [done|]. rewrite app_cons. simpl. lia.
Qed.



Lemma prefix_cons (a b : ascii) (s t : string) :
  String.prefix (String a s) (String b t) = true →
  a = b ∧ String.prefix s t = true.
Proof.
  change (String.prefix (String a s) (String b t))
    with (if Ascii.ascii_dec a b then String.prefix s t else false).
  by destruct (Ascii.ascii_dec a b).
Qed.








(** The step that follows in [CreatePluginsFromList]: the fragment of the
    resolved location is the version of the plugin. *)
Example CreatePlugin_resolved :
  (ResolvePluginLocation plainURL "docker-compose#v1.2"
     ≫= λ location, CreatePlugin plainURL location ∅)
  = Some {| Location := "github.com/buildkite-plugins/docker-compose";
            Version := "v1.2"; Scheme := "https"; Authentication := "";
            Configuration := ∅ |}
  ∧ (Version <$> (ResolvePluginLocation plainURL "owner/repo"
                    ≫= λ location, CreatePlugin plainURL location ∅))
    = Some "master".
Proof. split; reflexivity. Qed.

(** Segments are counted on the whole location, fragment included: a
    version with a slash in it moves a location to the next form. *)
Example qualify_version_with_slash :
  qualify "docker-compose#feature/x"
  = "https://github.com/docker-compose#feature/x".
Proof. reflexivity. Qed.

Example qualify_three_segments :
  qualify "example.com/owner/repo" = "https://example.com/owner/repo".
Proof. reflexivity. Qed.

Example qualify_with_scheme :
  qualify "git+ssh://example.com/repo" = "git+ssh://example.com/repo".
Proof. reflexivity. Qed.

End PluginSpec.

(** ** agent/plugin.go: ConfigurationToEnvironment *)

Module ConfigSpec.
Import Go GoFacts GoLemmas Agent.

Lemma all_and (p q : ascii → bool) (s : string) :
  all (λ c, p c && q c) s = all p s && all q s.
Proof.
  induction s as [|c s IH]; [done|]. simpl. rewrite IH.
  destruct (p c), (q c), (all p s), (all q s); done.
Qed.

Lemma replaceRuns_all (P p : ascii → bool) (rep : string) (b : bool)
    (s : string) :
  all P rep = true → all P s = true → all P (replaceRuns p rep b s) = true.
Proof.
  intros Hrep. revert b. induction s as [|c s IH]; intros b; [done|]. simpl.
  intros [Hc Hs]%andb_true_iff.
  destruct (p c); [destruct b|]; rewrite ?all_app; simpl;
    rewrite ?Hrep, ?Hc, ?IH; done.
Qed.



Lemma code_ascii_of_N (n : N) : (n < 256)%N → code (ascii_of_N n) = n.
Proof. apply N_ascii_embedding. Qed.





Lemma envSliceOver_flatten (u : Unicode) (p : Plugin)
    (entries : list (string * Value)) :
  envSliceOver u p entries = flatten u p entries.
Proof.
  unfold envSliceOver, flatten.
  cut (∀ acc, foldl (λ envSlice kv,
                       envSlice ++ entryVars (envName u p kv.1) kv.2)
                acc entries
              = acc ++ mjoin ((λ kv, entryVars (envName u p kv.1) kv.2)
                                <$> entries)).
  { intros H. by rewrite H. }
  induction entries as [|kv entries IH]; intros acc; simpl.
  - by rewrite List.app_nil_r.
  - by rewrite IH, <- (assoc_L (++)).
Qed.

(** The order in which the configuration map is ranged over does not
    show in the result. *)
Lemma ConfigurationToEnvironment_order (u : Unicode) (p : Plugin)
    (entries : list (string * Value)) :
  entries ≡ₚ map_to_list (Configuration p) →
  SortStrings (envSliceOver u p entries) = ConfigurationToEnvironment u p.
Proof.
  intros Hp. apply SortStrings_order.
  rewrite !envSliceOver_flatten. unfold flatten. by rewrite Hp.
Qed.


(** *** Replacement of runs, piece by piece *)








(** *** toDashRegex, piece by piece *)








(** *** Bytes *)







(** *** removeDoubleUnderscore *)




(** *** The name of a variable *)









(** The specification's scenario 3. *)
Example ConfigurationToEnvironment_scenario3 :
  ConfigurationToEnvironment Shell.noTables scenario3
  = ["BUILDKITE_PLUGIN_DOCKER_COMPOSE_ENV_0=A=1";
     "BUILDKITE_PLUGIN_DOCKER_COMPOSE_ENV_1=B=2";
     "BUILDKITE_PLUGIN_DOCKER_COMPOSE_RUN=app"].
Proof. vm_compute. reflexivity. Qed.



End ConfigSpec.

(** ** agent/header_times_streamer.go *)

Module StreamerSpec.
Import Go GoFacts Agent.

Lemma makePayload_snoc (c : nat) (pending : list string) (t : string) :
  makePayload c (pending ++ [t])
  = <[Itoa (Z.of_nat (c + length pending)) := t]> (makePayload c pending).
Proof.
  unfold makePayload. rewrite imap_app, foldl_app. simpl.
  by rewrite Nat.add_0_r.
Qed.

Lemma makePayload_lookup (c : nat) (pending : list string) (i : nat) :
  makePayload c pending !! Itoa (Z.of_nat (c + i)) = pending !! i.
Proof.
  induction pending as [|t pending IH] using rev_ind.
  - unfold makePayload. simpl. by rewrite lookup_empty, lookup_nil.
  - rewrite makePayload_snoc, lookup_insert.
    destruct (decide (Itoa (Z.of_nat (c + length pending))
                      = Itoa (Z.of_nat (c + i)))) as [Heq|Hne].
    + apply Itoa_inj in Heq. assert (i = length pending) as -> by lia.
      by rewrite list_lookup_middle.
    + rewrite IH. destruct (decide (i < length pending)).
      * by rewrite lookup_app_l.
      * assert (i ≠ length pending) by (intros ->; done).
        rewrite !lookup_ge_None_2; [done| |lia].
        rewrite length_app. simpl. lia.
Qed.

Lemma makePayload_keys (c : nat) (pending : list string) (k t : string) :
  makePayload c pending !! k = Some t →
  ∃ i, k = Itoa (Z.of_nat (c + i)) ∧ pending !! i = Some t.
Proof.
  induction pending as [|t' pending IH] using rev_ind.
  - unfold makePayload. simpl. by rewrite lookup_empty.
  - rewrite makePayload_snoc, lookup_insert.
    destruct (decide (Itoa (Z.of_nat (c + length pending)) = k)) as [<-|Hne].
    + intros [= ->]. exists (length pending). split; [done|].
      by rewrite list_lookup_middle.
    + intros (i & -> & Hi)%IH. exists i. split; [done|].
      rewrite lookup_app_l; [done|]. by eapply lookup_lt_Some.
Qed.

Lemma pending_lookup (h : headerTimesStreamer) (j : nat) :
  drop (cursor h) (take (length (times h)) (times h)) !! j
  = times h !! (cursor h + j).
Proof. by rewrite firstn_all, lookup_drop. Qed.

(** C3, as amended. Whenever [Upload] runs (on a streamer whose cursor
    lies within the recorded times and whose wait group counts the pending
    ones), it sets the cursor to the number of recorded times, and it does
    so before the callback is called and whatever becomes of the upload:
    the callback has no result.  If there are pending times, they are
    handed to the callback in one call, each keyed by its decimal index;
    otherwise the callback is not called.  A second [Upload] without new
    times flushes nothing. *)
Theorem Upload_advances (h : headerTimesStreamer) :
  cursor h ≤ length (times h) →
  (Z.of_nat (length (times h) - cursor h) ≤ uploadWaitGroup h)%Z →
  ∃ h' call,
    Upload h = Ok (h', call)
    ∧ times h' = times h
    ∧ cursor h' = length (times h)
    ∧ (call = None ↔ cursor h = length (times h))
    ∧ (∀ c, call = Some c →
         callFrom c = cursor h ∧ callTo c = length (times h)
         ∧ (∀ i, cursor h ≤ i →
                 callPayload c !! Itoa (Z.of_nat i) = times h !! i)
         ∧ (∀ k t, callPayload c !! k = Some t →
                   ∃ i, k = Itoa (Z.of_nat i) ∧ cursor h ≤ i
                        ∧ times h !! i = Some t))
    ∧ Upload h' = Ok (h', None).
Proof.
  intros Hcur Hwg. unfold Upload at 1.
  destruct (Nat.ltb_spec (length (times h)) (cursor h)) as [?|_]; [lia|].
  set (pending := drop (cursor h) (take (length (times h)) (times h))).
  assert (Hlen : length pending = length (times h) - cursor h).
  { unfold pending. by rewrite firstn_all, length_drop. }
  assert (Hagain : ∀ wg,
            Upload {| times := times h; cursor := length (times h);
                      uploadWaitGroup := wg |}
            = Ok ({| times := times h; cursor := length (times h);
                     uploadWaitGroup := wg |}, None)).
  { intros wg. unfold Upload. simpl.
    rewrite Nat.ltb_irrefl, firstn_all, drop_all. done. }
  cbn [times cursor uploadWaitGroup].
  destruct (Nat.eqb_spec (length pending) 0) as [Hz|Hnz].
  - eexists _, None. split_and!; try done; try apply Hagain.
    split; [intros _; lia|done].
  - destruct (Z.ltb_spec (uploadWaitGroup h + Z.of_nat (length pending) * -1) 0)
      as [?|_]; [lia|].
    eexists _, (Some _). split_and!; try done; try apply Hagain.
    + split; [done|intros ?; lia].
    + intros c [= <-]. cbn [callFrom callTo callPayload].
      split_and!; try done.
      * intros i Hi. replace i with (cursor h + (i - cursor h)) at 1 by lia.
        rewrite makePayload_lookup. unfold pending. rewrite pending_lookup.
        f_equal. lia.
      * intros k t (j & -> & Hj)%makePayload_keys.
        exists (cursor h + j). unfold pending in Hj.
        rewrite pending_lookup in Hj. split; [done|]. split; [lia|done].
Qed.

(** The theorem at work on [threeHeaders]: the two pending times are sent
    under the keys 1 and 2 and the cursor moves from 1 to 3. *)
Lemma Upload_advances_witness :
  ∃ h' c,
    Upload threeHeaders = Ok (h', Some c)
    ∧ cursor h' = 3
    ∧ callPayload c !! "1" = Some "2016-05-04T03:02:02Z"
    ∧ callPayload c !! "2" = Some "2016-05-04T03:02:03Z"
    ∧ callPayload c !! "0" = None.
Proof.
  destruct (Upload_advances threeHeaders) as (h' & call & Hup & _ & Hc & _).
  - simpl. lia.
  - simpl. lia.
  - exists h'. vm_compute in Hup. injection Hup as <- <-.
    eexists. split; [reflexivity|]. vm_compute. done.
Defined.

(** C3 as stated fails: whatever tells an acknowledged flush from one that
    was not, [Upload] has moved the cursor past the flushed times.  On
    [oneHeader] the cursor goes from 0 to 1 even if the flush of time 0 is
    never acknowledged. *)
Lemma Upload_ignores_acknowledgement :
  ¬ (∀ (acknowledged : uploadCall → bool) h h' c,
       Upload h = Ok (h', Some c) → acknowledged c = false →
       cursor h' = cursor h).
Proof.
  intros H.
  assert (Hup : ∃ h' c, Upload oneHeader = Ok (h', Some c) ∧ cursor h' = 1).
  { vm_compute. eauto. }
  destruct Hup as (h' & c & Hup & Hcur).
  specialize (H (λ _, false) oneHeader h' c Hup eq_refl).
  rewrite Hcur in H. discriminate.
Qed.

End StreamerSpec.

(** ** agent/artifact_uploader.go *)

Module ArtifactSpec.
Import Go GoFacts Agent.

Lemma each_preserves {S A : Type} (P : S → Prop) (body : S → A → option S) :
  (∀ st x st', P st → body st x = Some st' → P st') →
  ∀ l st st', P st → each body st l = Some st' → P st'.
Proof.
  intros Hbody. induction l as [|x l IH]; intros st st' Hst; simpl.
  - by intros [= <-].
  - destruct (body st x) as [st1|] eqn:Hx; [|done]. eauto.
Qed.

Lemma build_AbsolutePath (w : World) (conf : ArtifactUploaderConfig)
    (path absolutePath globPath : string) (a : Artifact) :
  build w conf path absolutePath globPath = Some a →
  AbsolutePath a = absolutePath.
Proof.
  unfold build. destruct (openFile w absolutePath); [|done].
  by intros [= <-].
Qed.

Lemma collected_add (st : collecting) (wd' : string) (a : Artifact) :
  collected st → AbsolutePath a ∉ seenPaths st →
  collected {| wd := wd'; seenPaths := {[ AbsolutePath a ]} ∪ seenPaths st;
               artifacts := artifacts st ++ [a] |}.
Proof.
  intros [Hnodup Hseen] Hnew. split; simpl.
  - rewrite fmap_app. apply NoDup_app. split; [done|]. split.
    + intros x (b & -> & Hb)%list_elem_of_fmap Hx.
      apply list_elem_of_singleton in Hx. apply Hnew. rewrite <- Hx.
      by apply Hseen.
    + apply NoDup_singleton.
  - intros b [Hb| ->%list_elem_of_singleton]%elem_of_app.
    + apply elem_of_union_r. by apply Hseen.
    + by apply elem_of_union_l, elem_of_singleton.
Qed.

Lemma collected_mark (st : collecting) (path : string) :
  collected st →
  collected {| wd := wd st; seenPaths := {[ path ]} ∪ seenPaths st;
               artifacts := artifacts st |}.
Proof.
  intros [Hnodup Hseen]. split; [done|]. simpl. intros a Ha.
  by apply elem_of_union_r, Hseen.
Qed.

Lemma walkFn_collected (w : World) (conf : ArtifactUploaderConfig)
    (literalPath : string) (st : collecting) (e : walkEntry)
    (st' : collecting) :
  collected st → walkFn w conf literalPath st e = Some st' → collected st'.
Proof.
  intros Hst. unfold walkFn.
  destruct (walkFailed e); [done|].
  destruct (bool_decide_reflect (walkPath e ∈ seenPaths st)) as [|Hnew];
    [by intros [= <-]|].
  destruct (walkIsDir e); [by intros [= <-]|].
  destruct (if GlobResolveFollowSymlinks conf then _ else _); [|done].
  destruct (Rel w (wd st) _); [|done].
  destruct (build w conf _ (walkPath e) literalPath) as [a|] eqn:Ha; [|done].
  intros [= <-]. apply build_AbsolutePath in Ha. rewrite <- Ha in *.
  by apply collected_add.
Qed.

Lemma dirStep_collected (w : World) (conf : ArtifactUploaderConfig)
    (st : collecting) (literalPath : string) (st' : collecting) :
  collected st → dirStep w conf st literalPath = Some st' → collected st'.
Proof.
  intros Hst. unfold dirStep.
  destruct (String.eqb _ ""); [by intros [= <-]|].
  destruct (Abs w _) as [absolutePath|]; [|done].
  destruct (bool_decide _); [by intros [= <-]|].
  destruct (isDir w absolutePath); [|by intros [= <-]].
  intros H. eapply (each_preserves collected); [|exact Hst|exact H].
  intros st1 x st2 H1 H2. by eapply walkFn_collected.
Qed.

Lemma fileStep_collected (w : World) (conf : ArtifactUploaderConfig)
    (globPath : string) (st : collecting) (file : string)
    (st' : collecting) :
  collected st → fileStep w conf globPath st file = Some st' → collected st'.
Proof.
  intros Hst. unfold fileStep.
  destruct (Abs w file) as [absolutePath|]; [|done].
  destruct (bool_decide_reflect (absolutePath ∈ seenPaths st)) as [|Hnew];
    [by intros [= <-]|].
  destruct (isDir w absolutePath);
    [intros [= <-]; by apply collected_mark|].
  destruct (UploadSkipSymlinks conf && isSymlink w absolutePath);
    [intros [= <-]; by apply collected_mark|].
  cbn [wd seenPaths artifacts].
  destruct (Rel w _ absolutePath); [|done].
  destruct (build w conf _ absolutePath globPath) as [a|] eqn:Ha; [|done].
  intros [= <-]. apply build_AbsolutePath in Ha. rewrite <- Ha in *.
  by apply collected_add.
Qed.

Lemma globStep_collected (w : World) (conf : ArtifactUploaderConfig)
    (st : collecting) (globPath : string) (st' : collecting) :
  collected st → globStep w conf st globPath = Some st' → collected st'.
Proof.
  intros Hst. unfold globStep.
  destruct (String.eqb _ ""); [by intros [= <-]|].
  destruct (resolveGlob w conf _) as [[files|]|]; [|by intros [= <-]|done].
  intros H. eapply (each_preserves collected); [|exact Hst|exact H].
  intros st1 x st2 H1 H2. by eapply fileStep_collected.
Qed.

(** C4, as amended. Whenever [Collect] returns artifacts, no two of them
    have the same absolute path, across the directory walk and the glob
    expansion alike.  The path compared is the one the artifact carries:
    the walked path, or [filepath.Abs] of the glob match; symbolic links
    are not resolved for it. *)
Theorem Collect_distinct (w : World) (conf : ArtifactUploaderConfig)
    (collection : list Artifact) :
  Collect w conf = Some collection → NoDup (AbsolutePath <$> collection).
Proof.
  unfold Collect. destruct (Getwd w) as [wd0|]; [|done].
  set (st0 := {| wd := wd0; seenPaths := ∅; artifacts := [] |}).
  assert (H0 : collected st0).
  { split; [apply NoDup_nil_2|]. by intros a Ha%elem_of_nil. }
  destruct (each (dirStep w conf) st0 _) as [st1|] eqn:H1; [|done].
  destruct (each (globStep w conf) st1 _) as [st2|] eqn:H2; [|done].
  intros [= <-].
  eapply (each_preserves collected) in H1;
    [|intros ?????; by eapply dirStep_collected|done].
  eapply (each_preserves collected) in H2;
    [|intros ?????; by eapply globStep_collected|done].
  apply H2.
Qed.

(** The theorem at work in [symlinkWorld]: a pattern given twice, and a
    directory given both as a directory and by a file in it. *)
Lemma Collect_distinct_witness :
  ∃ collection,
    Collect symlinkWorld (uploadOf "a.log; a.log;out;out/x.log") = Some collection
    ∧ AbsolutePath <$> collection
      = ["/w/out/x.log"; "/w/out/y.log"; "/w/a.log"]
    ∧ NoDup (AbsolutePath <$> collection).
Proof.
  eexists. split; [vm_compute; reflexivity|]. split; [reflexivity|].
  apply (Collect_distinct symlinkWorld
           (uploadOf "a.log; a.log;out;out/x.log")).
  vm_compute. reflexivity.
Defined.

(** C4 as stated fails: a file and a symbolic link to it are two
    artifacts, with different absolute paths that resolve to the same
    file; so it is in the glob expansion ([a.log] and [b.log]) and in the
    directory walk ([out/x.log] and [out/y.log]). *)
Lemma Collect_keeps_symlinks :
  (∃ a b, Collect symlinkWorld (uploadOf "a.log;b.log") = Some [a; b]
          ∧ AbsolutePath a ≠ AbsolutePath b
          ∧ EvalSymlinks symlinkWorld (AbsolutePath a)
            = EvalSymlinks symlinkWorld (AbsolutePath b))
  ∧ (∃ a b, Collect symlinkWorld (uploadOf "out") = Some [a; b]
            ∧ AbsolutePath a ≠ AbsolutePath b
            ∧ EvalSymlinks symlinkWorld (AbsolutePath a)
              = EvalSymlinks symlinkWorld (AbsolutePath b)).
Proof.
  split; eexists _, _; (split; [vm_compute; reflexivity|]);
    split; [discriminate|reflexivity|discriminate|reflexivity].
Qed.

End ArtifactSpec.

(** ** process/process.go *)

Module ProcessSpec.
Import Go GoFacts Process.

(** *** getExitStatus *)

(** C5. [getExitStatus] returns "0" for a nil wait error, the decimal
    form of the wait status' exit code for an [exec.ExitError] whose
    [Sys()] is a [syscall.WaitStatus], and "-1" for an [ExitError]
    without a wait status and for any other error. *)
Theorem getExitStatus_cases {W : Type} (ExitStatusOf : W → Z) :
  getExitStatus ExitStatusOf WaitNil = "0"
  ∧ (∀ s, getExitStatus ExitStatusOf (ExitError (SysWaitStatus s))
          = Itoa (ExitStatusOf s))
  ∧ getExitStatus ExitStatusOf (ExitError SysOther) = "-1"
  ∧ getExitStatus ExitStatusOf OtherError = "-1"
  ∧ (∀ waitResult,
       getExitStatus ExitStatusOf waitResult = "-1" →
       waitResult ≠ WaitNil
       ∧ ∀ s, waitResult = ExitError (SysWaitStatus s) → ExitStatusOf s = (-1)%Z).
Proof.
  split_and!; try done.
  intros waitResult H. split.
  - by intros ->.
  - intros s ->. by apply (Itoa_inj (ExitStatusOf s) (-1)) in H.
Qed.

(** On Linux, a child that exits with code [n] is reported as [n]. *)
Lemma linuxExitStatus_exited (n : Z) :
  (0 ≤ n < 256)%Z → linuxExitStatus (n * 256) = n.
Proof.
  intros Hn. unfold linuxExitStatus.
  assert (Hlow : Z.land (n * 256) 127 = 0%Z).
  { change 127%Z with (Z.ones 7). rewrite Z.land_ones by lia.
    replace (n * 256)%Z with (n * 2 * 2 ^ 7)%Z by lia. apply Z_mod_mult. }
  assert (Hhigh : Z.land (Z.shiftr (n * 256) 8) 255 = n).
  { change 255%Z with (Z.ones 8). rewrite Z.land_ones by lia.
    rewrite Z.shiftr_div_pow2 by lia. change (2 ^ 8)%Z with 256%Z.
    rewrite Z_div_mult by lia. apply Z.mod_small. lia. }
  by rewrite Hlow, Hhigh.
Qed.

Example getExitStatus_linux :
  getExitStatus linuxExitStatus (ExitError (SysWaitStatus 768%Z)) = "3"
  ∧ getExitStatus linuxExitStatus (ExitError (SysWaitStatus 9%Z)) = "-1".
Proof. split; reflexivity. Qed.

(** *** timeoutWait *)

Lemma timeoutWait_bound (consumers : nat) (drain : option Z) (tf : bool) :
  (0 ≤ (timeoutWait consumers drain tf).2 ≤ 10 * Second)%Z.
Proof.
  unfold timeoutWait, Second.
  destruct (consumers =? 0), drain as [t|]; simpl; try lia;
    repeat match goal with
           | |- context [(?a <? ?b)%Z] => destruct (Z.ltb_spec a b)
           | |- context [(?a =? ?b)%Z] => destruct (Z.eqb_spec a b)
           end; simpl; try lia; destruct tf; simpl; lia.
Qed.

Lemma timeoutWait_never (consumers : nat) (tf : bool) :
  consumers ≠ 0 →
  timeoutWait consumers None tf = (Some "Timeout", (10 * Second)%Z).
Proof.
  intros Hn. unfold timeoutWait. by destruct (Nat.eqb_spec consumers 0).
Qed.

Lemma timeoutWait_in_time (consumers : nat) (t : Z) (tf : bool) :
  (0 ≤ t < 10 * Second)%Z → timeoutWait consumers (Some t) tf = (None, Z.max 0 t)
                             ∨ timeoutWait consumers (Some t) tf = (None, 0%Z).
Proof.
  intros Ht. unfold timeoutWait.
  destruct (consumers =? 0); [by right|]. left.
  destruct (Z.ltb_spec t (10 * Second)); [done|lia].
Qed.

(** What [timeoutWait] returns, and when, case by case. *)
Lemma timeoutWait_spec (consumers : nat) (drain : option Z) (tf : bool)
    (err : option string) (elapsed : Z) :
  timeoutWait consumers drain tf = (err, elapsed) →
  (consumers = 0 → err = None ∧ elapsed = 0%Z)
  ∧ (consumers ≠ 0 → drain = None →
     err = Some "Timeout" ∧ elapsed = (10 * Second)%Z)
  ∧ (consumers ≠ 0 → ∀ t, drain = Some t →
     ((t < 10 * Second)%Z → err = None ∧ elapsed = Z.max 0 t)
     ∧ ((10 * Second < t)%Z →
        err = Some "Timeout" ∧ elapsed = (10 * Second)%Z)
     ∧ (t = (10 * Second)%Z →
        err = (if tf then Some "Timeout" else None)
        ∧ elapsed = (10 * Second)%Z)).
Proof.
  unfold timeoutWait. intros H. split_and!.
  - intros ->. cbn in H. by injection H as <- <-.
  - intros Hn ->. destruct (Nat.eqb_spec consumers 0); [done|].
    by injection H as <- <-.
  - intros Hn t ->. destruct (Nat.eqb_spec consumers 0); [done|].
    destruct (Z.ltb_spec t (10 * Second)), (Z.eqb_spec t (10 * Second)),
      tf; cbn in H; injection H as <- <-; split_and!; intros; try done; lia.
Qed.

(** *** Start *)

(** All the ways in which a process and a child can differ as far as
    [Start] looks at them. *)
Ltac cases p os :=
  destruct p as [pid status [pty ts script env handler] cmd st dn];
  destruct os as [sp wt dr tf]; cbn [command conf Script started done] in *;
  destruct cmd, script as [|arg0 args], pty, handler, sp as [childPid|],
    st as [[|]|], dn as [[|]|]; try done.

Ltac at_index n := exists n; split; [lia|reflexivity].

Ltac found :=
  first [ at_index 0 | at_index 1 | at_index 2 | at_index 3 | at_index 4
        | at_index 5 | at_index 6 | at_index 7 | at_index 8 | at_index 9 ].

(** [Done] and [Started] store the channel that they hand out. *)
Lemma Done_stores (p : Process) : done (Done p).1 = Some (Done p).2.
Proof. unfold Done. by destruct (done p) eqn:H. Qed.

Lemma Started_stores (p : Process) : started (Started p).1 = Some (Started p).2.
Proof. unfold Started. by destruct (started p) eqn:H. Qed.

(** A call of [Done] before [Start] changes nothing in the run: [Start]
    finds the channel and makes none. *)
Lemma run_after_Done {W : Type} (ExitStatusOf : W → Z) (os : child W)
    (p : Process) :
  run ExitStatusOf os (Done p).1
  = ((run ExitStatusOf os p).1,
     {| proc := (Done (proc (run ExitStatusOf os p).2)).1;
        steps := steps (run ExitStatusOf os p).2 |}).
Proof.
  unfold run, Done.
  cases p os; cbv -[getExitStatus timeoutWait];
    try destruct (timeoutWait _ _ _) as [err elapsed]; done.
Qed.

Ltac absent H :=
  exfalso; repeat (apply elem_of_cons in H as [H|H]; [discriminate H|]);
  by apply elem_of_nil in H.

(** C8. In every run of [Start] on a process whose done channel has not
    been closed before: the done channel is closed only after [Wait] has
    returned, it is closed whenever [Wait] has returned, it is closed
    before the exit status of the child is stored (and no exit status is
    stored before it), and when [Start] returns nil the channel is closed
    and the exit status is the one derived from the wait result.  An
    exit status is stored with the channel still open in one case only:
    the status 1 of a child that could not be started, for which there
    is no [Wait].  The channel is the one that [Done] hands out: [Done]
    stores the channel it returns, which is open before [Start]; a call
    of [Done] before [Start] changes neither the steps nor the result of
    the run; and [Start] makes no channel in the place of one that is
    stored: where that one is closed already, it closes no other, and
    panics at [close] if it comes as far as [Wait]. *)
Theorem done_closed_after_wait {W : Type} (ExitStatusOf : W → Z)
    (os : child W) (p : Process) (fl : flow unit) (m : machine W) :
  run ExitStatusOf os p = (fl, m) →
  (done p ≠ Some Closed →
     (∀ i, steps m !! i = Some DoneClosed →
        (∃ j, j < i ∧ steps m !! j = Some (WaitReturned (waited os)))
        ∧ steps m !! S i
          = Some (ExitStatusSet (getExitStatus ExitStatusOf (waited os)))
        ∧ ∀ j s, j < i → steps m !! j ≠ Some (ExitStatusSet s))
     ∧ (∀ j w, steps m !! j = Some (WaitReturned w) →
          ∃ i, j < i ∧ steps m !! i = Some DoneClosed)
     ∧ (done (proc m) = Some Closed ↔ DoneClosed ∈ steps m)
     ∧ (fl = Return None →
          done (proc m) = Some Closed
          ∧ ExitStatus (proc m) = getExitStatus ExitStatusOf (waited os))
     ∧ (∀ j s, steps m !! j = Some (ExitStatusSet s) →
          (∃ i, i < j ∧ steps m !! i = Some DoneClosed)
          ∨ (spawned os = None ∧ s = "1" ∧ fl ≠ Return None
             ∧ done (proc m) = Some Open ∧ DoneClosed ∉ steps m)))
  ∧ done (Done p).1 = Some (Done p).2
  ∧ (done p ≠ Some Closed → (Done p).2 = Open)
  ∧ run ExitStatusOf os (Done p).1
    = (fl, {| proc := (Done (proc m)).1; steps := steps m |})
  ∧ ((Done p).2 = Closed →
       (DoneClosed ∉ steps m)
       ∧ ∀ j w, steps m !! j = Some (WaitReturned w) →
           fl = Panics "close of closed channel").
Proof.
  intros Hrun. split_and!.
  - intros Hdone. unfold run in Hrun.
    cases p os;
    cbv -[getExitStatus timeoutWait] in Hrun;
    try destruct (timeoutWait _ _ _) as [err elapsed];
    injection Hrun as <- <-; cbn [steps proc done ExitStatus waited setDone
      setStarted setExitStatus setPid setCommand spawned];
    (split; [|split; [|split; [|split]]];
     [ intros i Hi; repeat (destruct i as [|i]; try discriminate Hi);
       (split;
        [found
        |split; [done|intros j s Hj; repeat (destruct j as [|j]; try done); lia]])
     | intros j w Hj; repeat (destruct j as [|j]; try discriminate Hj); found
     | split; [intros Hc;
               first [done
                     |repeat (apply elem_of_cons; first [by left|right])]
              |intros Hin; try done;
                        repeat (apply elem_of_cons in Hin as [Hin|Hin];
                                try discriminate Hin);
                        by apply elem_of_nil in Hin]
     | try done
     | intros j s Hj; repeat (destruct j as [|j]; try discriminate Hj);
       first [ left; found
             | right; injection Hj as <-; split_and!; try done;
               intros Hin; absent Hin ] ]).
  - apply Done_stores.
  - intros Hdone. unfold Done. by destruct (done p) as [[|]|].
  - rewrite run_after_Done, Hrun. done.
  - unfold Done. destruct (done p) as [[|]|] eqn:Hd; try done. intros _.
    unfold run in Hrun.
    cases p os;
    cbv -[getExitStatus timeoutWait] in Hrun;
    try destruct (timeoutWait _ _ _) as [err elapsed];
    injection Hrun as <- <-; cbn [steps];
    (split; [intros Hin; absent Hin
            |intros j w Hj; repeat (destruct j as [|j]; try discriminate Hj)]);
    done.
Qed.

(** The theorem at work on a child that exits with status 3: the done
    channel is closed at step 6, the exit status is stored at step 7,
    and the channel that [Done] has handed out before is the one that is
    closed. *)
Lemma done_closed_after_wait_witness :
  steps (run linuxExitStatus exits3 shell).2 !! 6 = Some DoneClosed
  ∧ (∃ j, j < 6
          ∧ steps (run linuxExitStatus exits3 shell).2 !! j
            = Some (WaitReturned (waited exits3)))
  ∧ steps (run linuxExitStatus exits3 shell).2 !! 7 = Some (ExitStatusSet "3")
  ∧ done (Done shell).1 = Some (Done shell).2
  ∧ (Done shell).2 = Open
  ∧ done (proc (run linuxExitStatus exits3 (Done shell).1).2) = Some Closed.
Proof.
  assert (Hdone : done shell ≠ Some Closed) by discriminate.
  destruct (done_closed_after_wait linuxExitStatus exits3 shell
              (run linuxExitStatus exits3 shell).1
              (run linuxExitStatus exits3 shell).2 eq_refl)
    as (Hopen & Hstores & Hhanded & Hrun & _).
  destruct (Hopen Hdone) as (Hclosed & _ & _ & Hnil & _).
  destruct (Hclosed 6 eq_refl) as (Hwait & Hstatus & _).
  destruct (Hnil eq_refl) as [Hfinal _].
  split_and!; [reflexivity|exact Hwait|exact Hstatus|exact Hstores
              |exact (Hhanded Hdone)|].
  rewrite Hrun. exact Hfinal.
Defined.

Ltac at_step n :=
  exists n; split_and!;
  [reflexivity|reflexivity|reflexivity|reflexivity|reflexivity|..].

(** C9. When the child has been started, [Start] returns nil.  After
    [Wait] has returned and the writer side of the pipe has been closed,
    its last step is the wait for the consumers, which takes at most ten
    seconds.  With no consumer in the wait group the wait is over at
    once.  With a consumer, the wait lasts until the consumers are done
    if that is before ten seconds have passed, and does not time out;
    if they are done later, or never, it times out after ten seconds
    and [Start] returns all the same; if they are done at ten seconds
    sharp, the select takes either channel. *)
Theorem Start_proceeds_after_drain {W : Type} (ExitStatusOf : W → Z)
    (os : child W) (p : Process) :
  command p = false → Script (conf p) ≠ [] →
  started p ≠ Some Closed → done p ≠ Some Closed →
  is_Some (spawned os) →
  ∃ m elapsed timedOut i,
    run ExitStatusOf os p = (Return None, m)
    ∧ steps m !! i = Some (WaitReturned (waited os))
    ∧ steps m !! (i + 1) = Some LineWriterClosed
    ∧ steps m !! (i + 4) = Some (Drained elapsed timedOut)
    ∧ length (steps m) = i + 5
    ∧ (0 ≤ elapsed ≤ 10 * Second)%Z
    ∧ (drained os = None → PTY (conf p) || Handler (conf p) = true →
       timedOut = true ∧ elapsed = (10 * Second)%Z)
    ∧ (PTY (conf p) || Handler (conf p) = false →
       timedOut = false ∧ elapsed = 0%Z)
    ∧ (∀ t, drained os = Some t → PTY (conf p) || Handler (conf p) = true →
       ((t < 10 * Second)%Z → timedOut = false ∧ elapsed = Z.max 0 t)
       ∧ ((10 * Second < t)%Z →
          timedOut = true ∧ elapsed = (10 * Second)%Z)
       ∧ (t = (10 * Second)%Z →
          timedOut = timerFirst os ∧ elapsed = (10 * Second)%Z)).
Proof.
  intros Hcmd Hscript Hstarted Hdone [childPid' Hspawn].
  destruct (run ExitStatusOf os p) as [fl m] eqn:Hrun. unfold run in Hrun.
  cases p os; cbn [PTY Handler drained spawned timerFirst] in *;
    cbv -[getExitStatus timeoutWait] in Hrun;
    match type of Hrun with
    | context [timeoutWait ?n ?d ?t] =>
        pose proof (timeoutWait_bound n d t) as Hbound;
        destruct (timeoutWait n d t) as [err elapsed] eqn:Hwait;
        apply timeoutWait_spec in Hwait as (Hnone & Hnever & Hsome)
    end;
    injection Hrun as <- <-; cbn [snd] in Hbound;
    eexists _, elapsed, _;
    first [ at_step 2 | at_step 3 | at_step 4 | at_step 5 ];
    try apply Hbound.
  all: match goal with
       | |- _ = None → _ =>
           intros -> Hc;
           first [ discriminate Hc | by destruct Hnever as [-> ->] ]
       | |- ∀ t : Z, _ =>
           intros t -> Hc; first [ discriminate Hc | idtac ];
           destruct (Hsome ltac:(done) t eq_refl) as (H1 & H2 & H3);
           split_and!; intros Ht;
           first [ by destruct (H1 Ht) as [-> ->]
                 | by destruct (H2 Ht) as [-> ->]
                 | destruct (H3 Ht) as [-> ->]; by destruct tf ]
       | |- _ =>
           intros Hc;
           first [ discriminate Hc | by destruct Hnone as [-> ->] ]
       end.
Qed.

(** The theorem at work on a child whose output is never drained. *)
Lemma Start_proceeds_after_drain_witness :
  ∃ m, run linuxExitStatus exits3 shell = (Return None, m)
       ∧ last (steps m) = Some (Drained (10 * Second) true).
Proof.
  destruct (Start_proceeds_after_drain linuxExitStatus exits3 shell)
    as (m & elapsed & timedOut & i & Hrun & _ & _ & Hlast & Hlen & _ & Hout
        & _);
    try done.
  exists m. split; [exact Hrun|].
  destruct (Hout eq_refl eq_refl) as [-> ->].
  vm_compute in Hrun. injection Hrun as <-. reflexivity.
Defined.

(** A child that cannot be started: [Start] returns the error with the
    exit status "1", and the done channel stays open. *)
Example Start_unstartable :
  (run linuxExitStatus unstartable shell).1 = Return (Some "StartPTY")
  ∧ steps (run linuxExitStatus unstartable shell).2 = [ExitStatusSet "1"]
  ∧ done (proc (run linuxExitStatus unstartable shell).2) = Some Open.
Proof. vm_compute. done. Qed.

End ProcessSpec.

(** ** shell/environment.go: parsing, files, Diff, Merge and Remove *)

Module ShellProps.
Import Go GoFacts GoLemmas Shell ShellSpec.

(** *** Lines that continue a value, and lines before the first variable *)

Lemma regex_key (l k v : string) :
  EnvironmentVariableLineRegex l = Some (k, v) → k ≠ "".
Proof.
  unfold EnvironmentVariableLineRegex.
  destruct (span isKeyByte l) as [[|k0 k'] [|sep value]]; try done.
  destruct (_ && _); [|done]. by intros [= <- _].
Qed.

Lemma scan_continued pf (more : list string) (e : Environment) (k : string)
    (values : list string) :
  k ≠ "" →
  Forall (λ c, EnvironmentVariableLineRegex c = None) more →
  foldl (scanLine pf)
    {| env := e; currentKeyName := k; currentValueSlice := values |} more
  = {| env := e; currentKeyName := k; currentValueSlice := values ++ more |}.
Proof.
  intros Hk. revert values.
  induction more as [|c more IH]; intros values Hall.
  - by rewrite List.app_nil_r.
  - apply Forall_cons in Hall as [Hc Hall]. simpl.
    unfold scanLine at 2. rewrite Hc. simpl.
    destruct (String.eqb_spec k "") as [->|_]; [done|]. simpl.
    rewrite IH by done. by rewrite <- List.app_assoc.
Qed.

Lemma scan_ignored pf (junk : list string) :
  Forall (λ c, EnvironmentVariableLineRegex c = None) junk →
  foldl (scanLine pf)
    {| env := ∅; currentKeyName := ""; currentValueSlice := [] |} junk
  = {| env := ∅; currentKeyName := ""; currentValueSlice := [] |}.
Proof.
  induction junk as [|c junk IH]; intros Hall; [done|].
  apply Forall_cons in Hall as [Hc Hall]. simpl.
  unfold scanLine at 2. rewrite Hc. simpl. by apply IH.
Qed.

(** X1.  A line that matches the pattern opens a variable, and every
    following line that does not match continues its value: the lines
    are joined by line feeds and stored by one [Set]. *)
Theorem EnvironmentFromSlice_continuation pf (l k v : string)
    (more : list string) :
  EnvironmentVariableLineRegex l = Some (k, v) →
  Forall (λ c, EnvironmentVariableLineRegex c = None) more →
  EnvironmentFromSlice pf (l :: more)
  = (Set_ pf ∅ k (Join (v :: more) NEWLINE)).1.
Proof.
  intros Hl Hmore. pose proof (regex_key _ _ _ Hl) as Hk.
  assert (foldl (scanLine pf)
            {| env := ∅; currentKeyName := ""; currentValueSlice := [] |}
            (l :: more)
          = {| env := ∅; currentKeyName := k;
               currentValueSlice := v :: more |}) as Hst.
  { cbn [foldl].
    assert (scanLine pf
              {| env := ∅; currentKeyName := ""; currentValueSlice := [] |} l
            = {| env := ∅; currentKeyName := k;
                 currentValueSlice := [v] |}) as ->.
    { unfold scanLine. by rewrite Hl. }
    by rewrite scan_continued. }
  unfold EnvironmentFromSlice. rewrite Hst.
  cbn [currentKeyName currentValueSlice env length].
  by destruct (String.eqb_spec k "") as [->|_].
Qed.

(** The theorem at work on a value of three lines. *)
Lemma EnvironmentFromSlice_continuation_witness :
  EnvironmentFromSlice linux ["A=x"; "y"; "  z"]
  = {[ "A" := "x" +:+ NEWLINE +:+ "y" +:+ NEWLINE +:+ "  z" ]}.
Proof.
  rewrite (EnvironmentFromSlice_continuation linux "A=x" "A" "x" ["y"; "  z"]).
  - vm_compute. reflexivity.
  - vm_compute. reflexivity.
  - repeat constructor.
Defined.

(** X2.  Lines in front of the first line that matches the pattern are
    dropped; a slice without a matching line gives the empty
    environment. *)
Theorem EnvironmentFromSlice_leading pf (junk s : list string) :
  Forall (λ c, EnvironmentVariableLineRegex c = None) junk →
  EnvironmentFromSlice pf (junk ++ s) = EnvironmentFromSlice pf s
  ∧ EnvironmentFromSlice pf junk = ∅.
Proof.
  intros Hjunk. unfold EnvironmentFromSlice.
  rewrite foldl_app, !scan_ignored by done. done.
Qed.

(** The theorem at work: a comment, an empty line and a key that starts
    with a digit are no variables. *)
Lemma EnvironmentFromSlice_leading_witness :
  EnvironmentFromSlice linux (["# comment"; ""; "1A=x"] ++ ["B=y"])
  = EnvironmentFromSlice linux ["B=y"]
  ∧ EnvironmentFromSlice linux ["# comment"; ""; "1A=x"] = ∅.
Proof.
  apply (EnvironmentFromSlice_leading linux ["# comment"; ""; "1A=x"] ["B=y"]).
  repeat constructor.
Defined.

(** *** Files *)

Lemma free_notLF (s : string) : all notLF s = true → free "010" s = true.
Proof.
  unfold free. apply all_impl. intros c. unfold notLF.
  by rewrite eqb_isByte.
Qed.

Lemma line_free (pf : Platform) (kv : string * string) :
  plainEntry pf kv → free "010" (line kv) = true.
Proof.
  intros [Hk Hv]. destruct kv as [k v]. simpl in Hk, Hv.
  apply plainKey_inv in Hk as [Hk _].
  apply validKey_inv in Hk as (k0 & k' & _ & _ & Hk).
  apply plainValue_inv in Hv as (_ & Hv & _).
  unfold line, free. cbn [fst snd]. rewrite !all_app.
  apply andb_true_intro; split; [|apply andb_true_intro; split].
  - apply free_notLF. revert Hk. apply all_impl. intros c Hc.
    apply keyByte_plain in Hc. unfold notLF.
    unfold plain, asciiSpace in Hc. destruct (isByte 10 c) eqn:H10; [|done].
    unfold isByte in H10. apply N.eqb_eq in H10.
    unfold between in Hc. rewrite H10 in Hc. simpl in Hc.
    by rewrite andb_false_r in Hc.
  - done.
  - by apply free_notLF.
Qed.

Lemma scan_tidy pf (entries : list (string * string)) (st : scan) :
  tidy pf st → Forall (plainEntry pf) entries →
  tidy pf (foldl (scanLine pf) st (line <$> entries)).
Proof.
  revert st. induction entries as [|kv entries IH]; intros st Hst Hall.
  - done.
  - apply Forall_cons in Hall as [Hkv Hall].
    destruct (scanLine_plain pf st kv Hst Hkv) as [Htidy _].
    simpl. by apply IH.
Qed.

(** An empty line after a plain entry continues its value with a line
    feed, which [Set] trims off again. *)
Lemma scanLine_empty pf (st : scan) :
  tidy pf st → env (flush pf (scanLine pf st "")) = env (flush pf st).
Proof.
  intros [[Hk Hv]|(v & [Hk Hpv] & Hv)].
  - unfold scanLine. simpl. by rewrite Hk.
  - simpl in Hk, Hpv. apply plainKey_inv in Hk as [Hk%validKey_nonempty _].
    apply plainValue_inv in Hpv as (_ & _ & Htrim & Hq).
    unfold scanLine. simpl.
    destruct (String.eqb_spec (currentKeyName st) "") as [|_]; [done|].
    simpl. unfold flush. simpl. rewrite Hv. simpl.
    destruct (String.eqb_spec (currentKeyName st) "") as [|_]; [done|].
    simpl. f_equal. unfold setValue.
    change (Join [v; ""] NEWLINE) with (v +:+ NEWLINE +:+ "").
    change (Join [v] NEWLINE) with v.
    rewrite app_nil_r, (TrimSpace_LF v Htrim), Htrim. done.
Qed.

Lemma Join_snoc (lines : list string) (x sep : string) :
  lines ≠ [] → Join (lines ++ [x]) sep = Join lines sep +:+ sep +:+ x.
Proof.
  induction lines as [|a [|b l] IH]; intros Hne; [done|done|].
  change ((a :: b :: l) ++ [x]) with (a :: b :: (l ++ [x])).
  rewrite !Join_cons. change (b :: l ++ [x]) with ((b :: l) ++ [x]).
  rewrite IH by done. by rewrite !app_assoc.
Qed.

(** Parsing the lines [line <$> entries], with or without an empty line
    at the end, stores the entries one by one. *)
Lemma parse_lines pf (entries : list (string * string)) (tail : list string) :
  Forall (plainEntry pf) entries → tail = [] ∨ tail = [""] →
  EnvironmentFromSlice pf ((line <$> entries) ++ tail) = foldl put ∅ entries.
Proof.
  intros Hall Htail. rewrite EnvironmentFromSlice_flush, foldl_app.
  assert (tidy pf {| env := ∅; currentKeyName := "";
                     currentValueSlice := [] |}) as Hinit by by left.
  destruct Htail as [->| ->]; cbn [foldl].
  - by rewrite scan_plain.
  - rewrite scanLine_empty by by apply scan_tidy.
    by rewrite scan_plain.
Qed.

(** X3.  A file written from the slice form of an environment of plain
    keys and values, one element per line, reads back as that
    environment, whether or not the last line ends with a line feed. *)
Theorem EnvironmentFromFile_ToSlice pf (ReadFile : string → option string)
    (path : string) (e : Environment) :
  (∀ k v, e !! k = Some v → plainKey pf k = true ∧ plainValue v = true) →
  ReadFile path = Some (Join (ToSlice e) NEWLINE)
  ∨ ReadFile path = Some (Join (ToSlice e) NEWLINE +:+ NEWLINE) →
  EnvironmentFromFile pf ReadFile path = Some e.
Proof.
  intros Hplain Hbody.
  assert (Hsorted : Permutation (ToSlice e) (map line (map_to_list e)))
    by apply SortStrings_Permutation.
  apply Permutation_map_inv in Hsorted as (entries & Hlines & Hperm).
  change (map line entries) with (line <$> entries) in Hlines.
  assert (Forall (plainEntry pf) entries) as Hall.
  { apply Forall_forall. intros [k v] Hin.
    apply Hplain, elem_of_map_to_list. by rewrite Hperm. }
  assert (Forall (λ l, free "010" l = true) (line <$> entries)) as Hfree.
  { apply Forall_fmap. eapply Forall_impl; [exact Hall|]. intros kv.
    apply line_free. }
  assert (foldl put ∅ entries = e) as He
    by (apply foldl_put_entries; by symmetry).
  unfold EnvironmentFromFile. rewrite Hlines in Hbody.
  destruct entries as [|kv entries].
  { destruct Hbody as [-> | ->]; by rewrite <- He. }
  destruct Hbody as [-> | ->]; f_equal; rewrite <- He.
  - unfold NEWLINE. rewrite Split_Join by done.
    rewrite <- (parse_lines pf (kv :: entries) []) by auto.
    by rewrite List.app_nil_r.
  - change (Join (line <$> kv :: entries) NEWLINE +:+ NEWLINE)
      with (Join (line <$> kv :: entries) NEWLINE +:+ NEWLINE +:+ "").
    rewrite <- Join_snoc by done.
    unfold NEWLINE. rewrite Split_Join.
    + by apply parse_lines; auto.
    + by destruct entries.
    + apply Forall_app. split; [done|]. by repeat constructor.
Qed.

(** The theorem at work on the file of [plainEnv], its last line ended
    by a line feed. *)
Lemma EnvironmentFromFile_ToSlice_witness :
  EnvironmentFromFile linux
    (λ _, Some (Join (ToSlice plainEnv) NEWLINE +:+ NEWLINE)) "env"
  = Some plainEnv.
Proof.
  apply (EnvironmentFromFile_ToSlice linux _ "env" plainEnv).
  - intros k v Hkv. apply elem_of_map_to_list in Hkv.
    vm_compute in Hkv.
    repeat (apply elem_of_cons in Hkv as [Hkv|Hkv];
            [injection Hkv as -> ->; vm_compute; done|]).
    by apply elem_of_nil in Hkv.
  - right. reflexivity.
Defined.

(** *** ToSlice *)

(** X4.  [ToSlice] gives one element [KEY=VALUE] per entry, and nothing
    else, in ascending byte order. *)
Theorem ToSlice_lines (e : Environment) :
  Sorted String.le (ToSlice e)
  ∧ length (ToSlice e) = Length e
  ∧ ∀ x, x ∈ ToSlice e ↔ ∃ k v, e !! k = Some v ∧ x = k +:+ "=" +:+ v.
Proof.
  pose proof (SortStrings_Permutation (line <$> map_to_list e)) as Hperm.
  fold (ToSlice e) in Hperm. split_and!.
  - apply SortStrings_Sorted.
  - rewrite Hperm, length_fmap. unfold Length. by rewrite length_map_to_list.
  - intros x. rewrite Hperm, list_elem_of_fmap. split.
    + intros ([k v] & -> & Hin%elem_of_map_to_list). by exists k, v.
    + intros (k & v & Hkv & ->). exists (k, v).
      split; [done|]. by apply elem_of_map_to_list.
Qed.

(** *** Diff and Merge on normal environments *)

Lemma Set_normal pf (e d : Environment) (k v : string) :
  normal pf e → e !! k = Some v → (Set_ pf d k v).1 = <[k := v]> d.
Proof.
  intros He Hkv. destruct (He k v Hkv) as [Hk Hv].
  unfold Set_. simpl. by rewrite Hk, Hv.
Qed.

Lemma diffOver_normal pf (e other : Environment)
    (entries : list (string * string)) (d : Environment) :
  normal pf e → (∀ kv, kv ∈ entries → e !! kv.1 = Some kv.2) →
  foldl (λ diff kv,
           if String.eqb (Get other kv.1) kv.2 then diff
           else (Set_ pf diff kv.1 kv.2).1) d entries
  = foldl put d (filter (λ kv, Get other kv.1 ≠ kv.2) entries).
Proof.
  intros He. revert d.
  induction entries as [|[k v] entries IH]; intros d Hin; [done|].
  cbn [foldl fst snd]. rewrite filter_cons. cbn [fst snd].
  assert (e !! k = Some v) as Hkv by apply (Hin (k, v)), list_elem_of_here.
  assert (∀ kv, kv ∈ entries → e !! kv.1 = Some kv.2) as Hin'.
  { intros kv H. apply Hin. by apply list_elem_of_further. }
  destruct (String.eqb_spec (Get other k) v) as [Heq|Hne].
  - rewrite decide_False by (intros H; by apply H). by apply IH.
  - rewrite decide_True by done. cbn [foldl].
    rewrite (Set_normal pf e) by done. by apply IH.
Qed.

(** X5.  On an environment whose entries [Set] leaves alone, [Diff]
    is the sub-map of the entries whose value differs from what [other]
    reads for the key.  A missing key reads as the empty string: an entry
    with an empty value whose key [other] lacks is not in the difference,
    and nothing is reported for a key that only [other] has. *)
Theorem Diff_normal pf (e other : Environment) :
  normal pf e →
  Diff pf e other = filter (λ kv, Get other kv.1 ≠ kv.2) e
  ∧ (∀ k, e !! k = Some "" → other !! k = None → Diff pf e other !! k = None)
  ∧ (∀ k, e !! k = None → Diff pf e other !! k = None).
Proof.
  intros He.
  assert (Diff pf e other = filter (λ kv, Get other kv.1 ≠ kv.2) e) as Hd.
  { unfold Diff, diffOver. rewrite (diffOver_normal pf e) by
      (try done; intros [k v]; apply elem_of_map_to_list).
    rewrite foldl_put, (right_id_L ∅ (∪)), map_filter_alt.
    apply list_to_map_proper; [|by rewrite reverse_Permutation].
    rewrite reverse_Permutation. apply NoDup_fmap_fst.
    - intros k v1 v2 [_ H1%elem_of_map_to_list]%list_elem_of_filter
        [_ H2%elem_of_map_to_list]%list_elem_of_filter. congruence.
    - apply NoDup_filter, NoDup_map_to_list. }
  rewrite Hd. split_and!; [done| |].
  - intros k Hk Ho. apply map_lookup_filter_None. right. intros v Hv.
    rewrite Hk in Hv. injection Hv as <-. unfold Get. simpl. rewrite Ho.
    simpl. by intros H.
  - intros k Hk. apply map_lookup_filter_None. by left.
Qed.

(** The theorem at work: [A] is unchanged, the empty [B] and the new [D]
    are not reported, [C] is. *)
Lemma Diff_normal_witness :
  Diff linux {[ "A" := "1"; "B" := ""; "C" := "3" ]}
    {[ "A" := "1"; "C" := "4"; "D" := "5" ]}
  = {[ "C" := "3" ]}.
Proof.
  destruct (Diff_normal linux {[ "A" := "1"; "B" := ""; "C" := "3" ]}
              {[ "A" := "1"; "C" := "4"; "D" := "5" ]}) as (H & _).
  - intros k v Hkv. apply elem_of_map_to_list in Hkv.
    vm_compute in Hkv.
    repeat (apply elem_of_cons in Hkv as [Hkv|Hkv];
            [injection Hkv as -> ->; vm_compute; done|]).
    by apply elem_of_nil in Hkv.
  - rewrite H. vm_compute. reflexivity.
Defined.

(** X6.  The difference of an environment with itself is empty,
    whatever its entries. *)
Theorem Diff_self pf (e : Environment) : Diff pf e e = ∅.
Proof.
  unfold Diff, diffOver.
  assert (∀ entries d,
            (∀ kv, kv ∈ entries → e !! kv.1 = Some kv.2) →
            foldl (λ diff kv,
                     if String.eqb (Get e kv.1) kv.2 then diff
                     else (Set_ pf diff kv.1 kv.2).1) d entries = d) as H.
  { induction entries as [|[k v] entries IH]; intros d Hin; [done|].
    pose proof (Hin (k, v) (list_elem_of_here _ _)) as Hkv.
    cbn [fst snd] in Hkv.
    assert (Get e k = v) as Hget by (unfold Get; by rewrite Hkv).
    cbn [foldl fst snd]. rewrite Hget, String.eqb_refl. apply IH.
    intros kv H. apply Hin. by apply list_elem_of_further. }
  apply H. intros [k v]. apply elem_of_map_to_list.
Qed.

(** X7.  Merging a normal environment into another is the union in
    which the merged entries win; the receiver's own entries are copied
    as they are. *)
Theorem Merge_normal pf (e other : Environment) :
  normal pf other → Merge pf e other = other ∪ e.
Proof.
  intros Ho. unfold Merge, mergeOver, ToMap. rewrite Copy_id.
  assert (∀ entries c,
            (∀ kv, kv ∈ entries → other !! kv.1 = Some kv.2) →
            foldl (λ c kv, (Set_ pf c kv.1 kv.2).1) c entries
            = foldl put c entries) as H.
  { induction entries as [|[k v] entries IH]; intros c Hin; [done|].
    cbn [foldl fst snd].
    rewrite (Set_normal pf other)
      by (try done; apply (Hin (k, v)), list_elem_of_here).
    apply IH. intros kv Hkv. apply Hin. by apply list_elem_of_further. }
  rewrite H by (intros [k v]; apply elem_of_map_to_list).
  rewrite foldl_put. f_equal.
  rewrite <- (foldl_put_entries other (map_to_list other)) at 2 by done.
  by rewrite foldl_put, (right_id_L ∅ (∪)).
Qed.

(** The theorem at work: [B] is overwritten, [C] is added, and the
    padded value of [A] is copied as it is. *)
Lemma Merge_normal_witness :
  Merge linux {[ "A" := " kept as it is "; "B" := "2" ]}
    {[ "B" := "3"; "C" := "" ]}
  = {[ "A" := " kept as it is "; "B" := "3"; "C" := "" ]}.
Proof.
  rewrite (Merge_normal linux {[ "A" := " kept as it is "; "B" := "2" ]}
             {[ "B" := "3"; "C" := "" ]}).
  - vm_compute. reflexivity.
  - intros k v Hkv. apply elem_of_map_to_list in Hkv.
    vm_compute in Hkv.
    repeat (apply elem_of_cons in Hkv as [Hkv|Hkv];
            [injection Hkv as -> ->; vm_compute; done|]).
    by apply elem_of_nil in Hkv.
Defined.

(** *** Remove *)

(** X8.  Removing a key that is not there changes nothing and returns the
    empty string; setting such a key adds one entry, and removing it
    again under the key it was stored under gives the environment back
    and returns the stored value. *)
Theorem Remove_after_Set pf (e : Environment) (k v : string) :
  e !! setKey pf k = None →
  Remove e (setKey pf k) = (e, "")
  ∧ Length (Set_ pf e k v).1 = S (Length e)
  ∧ Remove (Set_ pf e k v).1 (setKey pf k) = (e, setValue v)
  ∧ Exists (Remove (Set_ pf e k v).1 (setKey pf k)).1 (setKey pf k) = false.
Proof.
  intros Hk. unfold Remove, Set_, Get, Length, Exists. cbn [fst snd].
  rewrite delete_id by done. rewrite Hk, lookup_insert_eq.
  rewrite delete_insert_eq, delete_id by done.
  rewrite map_size_insert_None by done. split_and!; try done.
  apply bool_decide_eq_false. rewrite Hk. by intros [? ?].
Qed.

(** The theorem at work on Windows, with a padded key and a quoted
    value. *)
Lemma Remove_after_Set_witness :
  Remove (Set_ windows plainEnv " tmp " " '/t m p' ").1 "TMP"
  = (plainEnv, "/t m p").
Proof.
  apply (Remove_after_Set windows plainEnv " tmp " " '/t m p' ").
  vm_compute. reflexivity.
Defined.

End ShellProps.

(** ** shell/command.go *)

Module CommandProps.
Import Go GoFacts GoLemmas Shell.

Lemma length_substring (n : nat) (s : string) :
  String.length (String.substring 0 n s) = n `min` String.length s.
Proof.
  revert n. induction s as [|c s IH]; intros [|n]; simpl; try done.
  by rewrite IH.
Qed.

(** X9.  [truncate] leaves a text of fewer than [i] bytes alone and cuts
    a longer one to [i] bytes, or to [i + 1] bytes when the first [i] are
    not valid UTF-8, followed by three dots.  A text of exactly [i]
    bytes is followed by the dots although nothing is cut off, and when
    it is not valid UTF-8 the cut is out of range and [truncate]
    panics. *)
Theorem truncate_bounds (s : string) (i : nat) :
  (String.length s < i → truncate s i = Ok s)
  ∧ (String.length s = i →
     truncate s i = if ValidString s then Ok (s +:+ "...")
                    else Panic "slice bounds out of range")
  ∧ (i < String.length s →
     truncate s i
     = Ok (String.substring 0
             (if ValidString (String.substring 0 i s) then i else i + 1) s
           +:+ "..."))
  ∧ (∀ r, truncate s i = Ok r → String.length r ≤ i + 4).
Proof.
  unfold truncate. split_and!.
  - intros H. by destruct (Nat.ltb_spec (String.length s) i); [|lia].
  - intros <-. rewrite Nat.ltb_irrefl, substring_all.
    destruct (ValidString s); [done|].
    by destruct (Nat.ltb_spec (String.length s) (String.length s + 1));
      [|lia].
  - intros H. destruct (Nat.ltb_spec (String.length s) i); [lia|].
    destruct (ValidString _); [done|].
    by destruct (Nat.ltb_spec (String.length s) (i + 1)); [lia|].
  - intros r. destruct (Nat.ltb_spec (String.length s) i).
    { intros [= <-]. lia. }
    destruct (ValidString _).
    { intros [= <-]. rewrite length_app, length_substring. simpl. lia. }
    destruct (Nat.ltb_spec (String.length s) (i + 1)); [done|].
    intros [= <-]. rewrite length_app, length_substring. simpl. lia.
Qed.

(** The theorem at work: a short text, a text of exactly three bytes, a
    lone byte that is no UTF-8, and a cut inside a rune of two bytes. *)
Lemma truncate_bounds_witness :
  truncate "ls -la" 40 = Ok "ls -la"
  ∧ truncate "abc" 3 = Ok "abc..."
  ∧ truncate (String "233" "") 1 = Panic "slice bounds out of range"
  ∧ truncate ("caf" +:+ String "195" (String "169" "s")) 4
    = Ok ("caf" +:+ String "195" (String "169" "...")).
Proof.
  split_and!.
  - apply (truncate_bounds "ls -la" 40). simpl. lia.
  - destruct (truncate_bounds "abc" 3) as (_ & H & _). exact (H eq_refl).
  - destruct (truncate_bounds (String "233" "") 1) as (_ & H & _).
    exact (H eq_refl).
  - destruct (truncate_bounds ("caf" +:+ String "195" (String "169" "s")) 4)
      as (_ & _ & H & _).
    apply H. simpl. lia.
Defined.

End CommandProps.

(** ** agent/plugin.go: identifier, repository and name of a plugin *)

Module PluginProps.
Import Go GoFacts GoLemmas Agent PluginSpec ConfigSpec.

(** *** Identifier *)

Lemma doubled_app_r (p : ascii → bool) (a b : string) :
  doubled p (a +:+ b) = false → doubled p b = false.
Proof.
  induction a as [|c a IH]; [done|]. rewrite app_cons. cbn [doubled].
  destruct (a +:+ b) as [|d r] eqn:Hab.
  - destruct a, b; done.
  - intros [_ H]%orb_false_elim. by apply IH.
Qed.

Lemma doubled_app_l (p : ascii → bool) (a b : string) :
  doubled p (a +:+ b) = false → doubled p a = false.
Proof.
  induction a as [|c [|d a] IH]; [done|done|].
  rewrite !app_cons. cbn [doubled].
  intros [H1 H2]%orb_false_elim. rewrite H1. simpl. apply IH.
  by rewrite app_cons.
Qed.

Lemma replaceRuns_first (p : ascii → bool) (rep s : string) (a : ascii)
    (r : string) :
  replaceRuns p rep true s = String a r → p a = false.
Proof.
  induction s as [|c s IH]; [done|]. cbn [replaceRuns].
  destruct (p c) eqn:Hc; [done|]. by intros [= <- _].
Qed.

(** After the replacement no two bytes of the class are neighbours. *)
Lemma replaceRuns_single (p : ascii → bool) (c : ascii) (b : bool)
    (s : string) :
  doubled p (replaceRuns p (String c "") b s) = false.
Proof.
  revert b. induction s as [|d s IH]; intros b; [done|]. cbn [replaceRuns].
  destruct (p d) eqn:Hd; [destruct b|].
  - apply IH.
  - rewrite app_cons, app_nil_l.
    pose proof (replaceRuns_first p (String c "") s) as Hhead.
    specialize (IH true).
    destruct (replaceRuns p (String c "") true s) as [|a r]; [done|].
    cbn [doubled] in *. by rewrite IH, (Hhead a r), andb_false_r.
  - specialize (IH false).
    destruct (replaceRuns p (String c "") false s) as [|a r]; [done|].
    cbn [doubled] in *. by rewrite IH, Hd.
Qed.

(** What the replacement of the runes that are no letters or digits
    leaves: letters and digits of the text, and the replacement. *)
Lemma replaceNonAlnum_all (P Q : ascii → bool) (rep : string) (k : nat)
    (s : string) :
  (∀ c, isAlnum c = true → Q c = true → P c = true) →
  all P rep = true → all Q s = true →
  all P (replaceNonAlnum rep k s) = true.
Proof.
  intros HPQ Hrep. revert k.
  induction s as [|c s IH]; intros k Hs; [done|].
  cbn [all] in Hs. apply andb_prop in Hs as [Hc Hs].
  cbn [replaceNonAlnum]. destruct k as [|k]; [|by apply IH].
  destruct (isAlnum c) eqn:Ha.
  - cbn [all]. by rewrite (HPQ c Ha Hc), IH.
  - by rewrite all_app, Hrep, IH.
Qed.

Lemma all_true (s : string) : all (λ _, true) s = true.
Proof. by induction s. Qed.

(** X10.  The identifier of a plugin, used as a directory name, holds
    only ASCII letters, digits and dashes, has no two dashes in a row
    and neither begins nor ends with a dash. *)
Theorem Identifier_slug (p : Plugin) :
  all (λ c, isAlnum c || isDash c) (Identifier p) = true
  ∧ doubled isDash (Identifier p) = false
  ∧ HasPrefix (Identifier p) "-" = false
  ∧ HasSuffix (Identifier p) "-" = false.
Proof.
  unfold Identifier.
  set (id := replaceRuns isDash "-" false (replaceNonAlnum "-" 0 (Label p))).
  assert (all (λ c, isAlnum c || isDash c) id = true) as Hall.
  { apply replaceRuns_all; [done|].
    apply (replaceNonAlnum_all _ (λ _, true)); [|done|apply all_true].
    intros c Hc _. by rewrite Hc. }
  assert (doubled isDash id = false) as Hdbl by apply replaceRuns_single.
  destruct (Trim_split id "-") as (a & b & Hid & _ & _).
  split_and!.
  - rewrite Hid, !all_app in Hall.
    by apply andb_prop in Hall as [_ [H _]%andb_prop].
  - rewrite Hid in Hdbl. by apply doubled_app_r, doubled_app_l in Hdbl.
  - unfold HasPrefix. destruct (Trim id "-") as [|c r] eqn:Ht; [done|].
    apply Trim_first in Ht. cbn [inSet] in Ht. rewrite orb_false_r in Ht.
    apply Ascii.eqb_neq in Ht.
    destruct (String.prefix "-" (String c r)) eqn:Hp; [|done].
    by apply prefix_cons in Hp as [<- _].
  - unfold HasSuffix. change (String.rev "-") with "-".
    destruct (String.rev (Trim id "-")) as [|c r] eqn:Ht; [done|].
    apply Trim_last in Ht. cbn [inSet] in Ht. rewrite orb_false_r in Ht.
    apply Ascii.eqb_neq in Ht.
    destruct (String.prefix "-" (String c r)) eqn:Hp; [|done].
    by apply prefix_cons in Hp as [<- _].
Qed.

(** *** The repository of a plugin *)

Lemma Count_slashes (s : string) : Count s "/" = slashes s.
Proof.
  induction s as [|c s IH]; [done|]. cbn [Count slashes].
  rewrite IH. f_equal. by rewrite eqb_isByte.
Qed.

Lemma slashes_noSlash (s : string) : slashes s = 0 → noSlash s = true.
Proof.
  unfold noSlash. induction s as [|c s IH]; [done|]. cbn [slashes all].
  destruct (isSlash c); [done|]. intros H. by rewrite IH.
Qed.

Lemma repoParts_take (parts : list string) :
  ∃ n, repoParts parts = take (S n) parts.
Proof.
  induction parts as [|x parts (n & IH)]; [by exists 0|]. cbn [repoParts].
  destruct (HasSuffix x ".git").
  - exists 0. by destruct parts.
  - exists (S n). by rewrite IH.
Qed.

(** The first parts of a path, joined again, are the path up to one of
    its slashes. *)
Lemma Join_take (parts : list string) (n : nat) :
  ∃ rest, Join parts "/" = Join (take (S n) parts) "/" +:+ rest
          ∧ (rest = "" ∨ HasPrefix rest "/" = true).
Proof.
  revert n. induction parts as [|x [|y l] IH]; intros n.
  - exists "". split; [done|by left].
  - exists "". split; [|by left]. destruct n; by rewrite app_nil_r.
  - destruct n as [|n].
    + exists ("/" +:+ Join (y :: l) "/"). split; [done|]. right.
      apply prefix_app.
    + destruct (IH n) as (rest & Hrest & Hp). exists rest. split; [|done].
      change (take (S (S n)) (x :: y :: l))
        with (x :: y :: take n l).
      change (take (S n) (y :: l)) with (y :: take n l) in Hrest.
      rewrite (Join_cons x y l), (Join_cons x y (take n l)), Hrest.
      by rewrite !app_assoc.
Qed.

(** X11.  The repository of a plugin is its location up to one of its
    slashes, or the whole location; what follows that slash is the
    subdirectory. *)
Theorem constructRepositoryHost_prefix (p : Plugin) (repository : string) :
  constructRepositoryHost p = inr repository →
  ∃ rest, Location p = repository +:+ rest
          ∧ (rest = "" ∨ HasPrefix rest "/" = true)
          ∧ RepositorySubdirectory p = inr (TrimPrefix rest "/").
Proof.
  intros Hc.
  assert (∃ n, repository = Join (take (S n) (Split (Location p) "/")) "/")
    as (n & Hn).
  { unfold constructRepositoryHost in Hc.
    destruct (String.eqb (Location p) ""); [done|].
    destruct (length _ <? 2); [done|].
    destruct (knownHost _).
    - destruct (length _ <? 3); [done|]. injection Hc as <-. by exists 2.
    - injection Hc as <-.
      destruct (repoParts_take (Split (Location p) "/")) as (n & ->).
      by exists n. }
  destruct (Join_take (Split (Location p) "/") n) as (rest & Hrest & Hp).
  rewrite Join_Split, <- Hn in Hrest.
  exists rest. split_and!; [done|done|].
  unfold RepositorySubdirectory. rewrite Hc.
  rewrite Hrest at 1. by rewrite TrimPrefix_app.
Qed.

(** The theorem at work on [monorepo]. *)
Lemma constructRepositoryHost_prefix_witness :
  ∃ rest, Location monorepo = "github.com/buildkite/plugins" +:+ rest
          ∧ (rest = "" ∨ HasPrefix rest "/" = true)
          ∧ RepositorySubdirectory monorepo = inr (TrimPrefix rest "/").
Proof.
  apply (constructRepositoryHost_prefix monorepo "github.com/buildkite/plugins").
  vm_compute. reflexivity.
Defined.

Lemma knownHost_inv (host : string) :
  knownHost host = true →
  host = "github.com" ∨ host = "bitbucket.org" ∨ host = "gitlab.com".
Proof.
  unfold knownHost. intros [[H|H]%orb_prop|H]%orb_prop;
    apply String.eqb_eq in H; auto.
Qed.

Lemma prefix_nil (s : string) : String.prefix "" s = true.
Proof. by destruct s. Qed.

Lemma HasPrefix_app_l (a b : string) :
  a ≠ "" → HasPrefix (a +:+ b) (String "/" "") = HasPrefix a (String "/" "").
Proof.
  destruct a as [|x a]; [done|]. intros _. unfold HasPrefix.
  rewrite app_cons. cbn [String.prefix].
  destruct (ascii_dec "/" x); [|done]. by rewrite !prefix_nil.
Qed.

(** X12.  For a location on github.com, bitbucket.org or gitlab.com the
    repository is the host with the next two parts of the path; what
    follows them is the subdirectory.  [Repository] puts the
    authentication and the scheme, [https] when there is none, in front
    of it. *)
Theorem Repository_known_host (p : Plugin) (host owner repo : string)
    (sub : option string) :
  knownHost host = true → noSlash owner = true → noSlash repo = true →
  Location p
  = host +:+ "/" +:+ owner +:+ "/" +:+ repo
    +:+ match sub with Some d => "/" +:+ d | None => "" end →
  HasPrefix (Authentication p) "/" = false →
  constructRepositoryHost p = inr (host +:+ "/" +:+ owner +:+ "/" +:+ repo)
  ∧ RepositorySubdirectory p = inr (default "" sub)
  ∧ Repository p
    = inr ((if String.eqb (Scheme p) "" then "https://"
            else Scheme p +:+ "://")
           +:+ (if String.eqb (Authentication p) "" then ""
                else Authentication p +:+ "@")
           +:+ host +:+ "/" +:+ owner +:+ "/" +:+ repo).
Proof.
  intros Hhost Howner Hrepo Hloc Hauth.
  assert (noSlash host = true ∧ host ≠ ""
          ∧ ∀ t, HasPrefix (host +:+ t) "/" = false) as (Hh & Hne & Hpre).
  { apply knownHost_inv in Hhost as [->|[->| ->]]; by split_and!. }
  assert (constructRepositoryHost p
          = inr (host +:+ "/" +:+ owner +:+ "/" +:+ repo)) as Hc.
  { unfold constructRepositoryHost. rewrite Hloc.
    destruct (String.eqb_spec
                (host +:+ "/" +:+ owner +:+ "/" +:+ repo
                 +:+ match sub with Some d => "/" +:+ d | None => "" end) "")
      as [He|_].
    { destruct host; [done|by rewrite app_cons in He]. }
    rewrite !Split_segment by done.
    assert (∃ t, Split (repo +:+ match sub with
                                 | Some d => "/" +:+ d | None => "" end) "/"
                 = repo :: t) as (t & ->).
    { destruct sub as [d|].
      - rewrite Split_segment by done. by eexists.
      - rewrite app_nil_r, Split_noSlash by done. by eexists. }
    cbn [length Nat.ltb Nat.leb head hd_error from_option id take].
    rewrite Hhost. by destruct t. }
  split_and!; [done| |].
  - unfold RepositorySubdirectory. rewrite Hc, Hloc.
    rewrite <- !app_assoc. rewrite TrimPrefix_app.
    destruct sub as [d|]; [|done]. by rewrite (TrimPrefix_app "/" d).
  - unfold Repository. rewrite Hc.
    destruct (String.eqb_spec (Authentication p) "") as [Ha|Ha]; cbn [negb].
    + rewrite Hpre. cbn [negb].
      destruct (String.eqb (Scheme p) ""); cbn [negb];
        by rewrite ?app_nil_l, ?app_assoc.
    + rewrite HasPrefix_app_l, Hauth by done. cbn [negb].
      destruct (String.eqb (Scheme p) ""); cbn [negb];
        by rewrite ?app_assoc.
Qed.

(** The theorem at work on [monorepo]. *)
Lemma Repository_known_host_witness :
  constructRepositoryHost monorepo = inr "github.com/buildkite/plugins"
  ∧ RepositorySubdirectory monorepo = inr "docker/v2"
  ∧ Repository monorepo = inr "ssh://git@github.com/buildkite/plugins".
Proof.
  apply (Repository_known_host monorepo "github.com" "buildkite" "plugins"
           (Some "docker/v2")); vm_compute; reflexivity.
Defined.

Lemma Split_pair (host rest : string) :
  slashes (host +:+ "/" +:+ rest) = 1 →
  Split (host +:+ "/" +:+ rest) "/" = [host; rest].
Proof.
  rewrite !slashes_app. change (slashes "/") with 1. intros H.
  rewrite Split_segment by (apply slashes_noSlash; lia).
  rewrite Split_noSlash by (apply slashes_noSlash; lia). done.
Qed.

(** X13.  [constructRepositoryHost] fails in three cases only: for an
    empty location, for a location without a slash, and for a location
    with one slash whose first part is one of the three known hosts.
    [Repository] and [RepositorySubdirectory] fail with it, and with the
    same error. *)
Theorem constructRepositoryHost_errors (p : Plugin) (err : repositoryError) :
  (constructRepositoryHost p = inl err ↔
     (Location p = "" ∧ err = MissingLocation)
     ∨ (Location p ≠ "" ∧ slashes (Location p) = 0
        ∧ err = IncompletePath (Location p))
     ∨ (slashes (Location p) = 1
        ∧ ∃ host rest, Location p = host +:+ "/" +:+ rest
                       ∧ knownHost host = true
                       ∧ err = IncompleteHostPath host (Location p)))
  ∧ (Repository p = inl err ↔ constructRepositoryHost p = inl err)
  ∧ (RepositorySubdirectory p = inl err ↔ constructRepositoryHost p = inl err).
Proof.
  split_and!.
  2,3: unfold Repository, RepositorySubdirectory;
       destruct (constructRepositoryHost p); split; congruence.
  unfold constructRepositoryHost.
  pose proof (length_Split (Location p) "/") as Hlen.
  rewrite Count_slashes in Hlen.
  pose proof (Join_Split (Location p) "/") as Hjoin.
  assert (∀ h r, Location p = h +:+ "/" +:+ r → slashes (Location p) = 1 →
                 Split (Location p) "/" = [h; r]) as Hpair.
  { intros h r Hl H1. rewrite Hl in *. by apply Split_pair. }
  destruct (String.eqb_spec (Location p) "") as [He|He].
  { split; [intros [= <-]; by left|].
    intros [[_ ->]|[(? & _)|(H1 & _)]]; [done|done|].
    by rewrite He in H1. }
  destruct (Split (Location p) "/") as [|host [|rest parts]] eqn:Hparts;
    [done| |]; cbn [length] in Hlen.
  - change (length [host] <? 2) with true. cbv iota. split.
    + intros [= <-]. right. left. split_and!; [done|lia|done].
    + intros [(? & _)|[(_ & _ & ->)|(H1 & _)]]; [done|done|lia].
  - change (length (host :: rest :: parts) <? 2) with false.
    cbn [head hd_error from_option id]. cbv iota.
    destruct (knownHost host) eqn:Hk; [destruct parts as [|x parts]|].
    + change (length [host; rest] <? 3) with true. cbv iota. split.
      * intros [= <-]. right. right. split; [cbn [length] in Hlen; lia|].
        exists host, rest. by rewrite <- Hjoin.
      * intros [(? & _)|[(_ & H0 & _)|(H1 & h & r & Hl & _ & ->)]];
          [done|lia|].
        specialize (Hpair h r Hl H1). by injection Hpair as <- _.
    + change (length (host :: rest :: x :: parts) <? 3) with false.
      cbv iota. cbn [length] in Hlen. split; [done|].
      intros [(? & _)|[(_ & H0 & _)|(H1 & _)]]; [done|lia|lia].
    + split; [done|].
      intros [(? & _)|[(_ & H0 & _)|(H1 & h & r & Hl & Hkh & _)]];
        [done|lia|].
      specialize (Hpair h r Hl H1). injection Hpair as <- _. congruence.
Qed.

(** *** Name *)

Lemma replaceFrom_all (P : ascii → bool) (old new : string) (k : nat)
    (s : string) :
  all P new = true → all P s = true → all P (replaceFrom old new k s) = true.
Proof.
  intros Hnew. revert k. induction s as [|c s IH]; intros k Hs; [done|].
  cbn [all] in Hs. apply andb_prop in Hs as [Hc Hs].
  cbn [replaceFrom]. destruct k as [|k]; [|by apply IH].
  destruct (String.prefix old (String c s)).
  - by rewrite all_app, Hnew, IH.
  - cbn [all]. by rewrite Hc, IH.
Qed.

Lemma Replace_all (P : ascii → bool) (s old new : string) :
  all P new = true → all P s = true → all P (Replace s old new) = true.
Proof.
  intros Hnew Hs. unfold Replace. destruct old; [done|].
  by apply replaceFrom_all.
Qed.

Lemma lowerByte_not_upper (c : ascii) : isUpper (lowerByte c) = false.
Proof.
  unfold lowerByte. destruct (isUpper c) eqn:Hc; [|done].
  unfold isUpper, between in *. apply andb_prop in Hc as [H1 H2].
  apply N.leb_le in H1, H2.
  rewrite code_ascii_of_N by lia.
  apply andb_false_iff. right. apply N.leb_gt. lia.
Qed.

Lemma mapBytes_lower (s : string) :
  all (λ c, negb (isUpper c)) (mapBytes lowerByte s) = true.
Proof.
  induction s as [|c s IH]; [done|]. cbn [mapBytes all].
  by rewrite lowerByte_not_upper, IH.
Qed.

Lemma last_all (P : ascii → bool) (l : list string) :
  Forall (λ x, all P x = true) l → all P (List.last l "") = true.
Proof.
  induction l as [|x [|y l] IH]; intros H; [done| |].
  - by apply Forall_inv in H.
  - apply IH. by apply Forall_inv_tail in H.
Qed.

(** X14.  The name of a plugin holds only ASCII letters, digits and
    dashes; when the location is ASCII text, no letter of the name is
    upper-case. *)
Theorem Name_bytes (u : Unicode) (p : Plugin) :
  all (λ c, isAlnum c || isDash c) (Name u p) = true
  ∧ (all isASCIIByte (Location p) = true →
     all (λ c, isLower c || isDigit c || isDash c) (Name u p) = true).
Proof.
  unfold Name. destruct (String.eqb (Location p) ""); [done|]. cbn [negb].
  split.
  - do 2 (apply Replace_all; [done|]).
    apply (replaceNonAlnum_all _ (λ _, true)); [|done|apply all_true].
    intros c Hc _. by rewrite Hc.
  - intros Hascii. do 2 (apply Replace_all; [done|]).
    apply (replaceNonAlnum_all _ (λ c, negb (isUpper c))); [|done|].
    + intros c Hc Hu. unfold isAlnum, isLetter in Hc.
      apply negb_true_iff in Hu. rewrite Hu, orb_false_r in Hc.
      by rewrite Hc.
    + apply replaceRuns_all; [done|].
      unfold ToLower.
      rewrite (last_all isASCIIByte) by by apply Split_all.
      apply mapBytes_lower.
Qed.

(** The theorem at work on the docker-compose plugin. *)
Lemma Name_bytes_witness :
  all (λ c, isLower c || isDigit c || isDash c)
      (Name Shell.noTables (dockerCompose ∅)) = true.
Proof.
  apply (Name_bytes Shell.noTables (dockerCompose ∅)).
  vm_compute. reflexivity.
Defined.

(** *** ConfigurationToEnvironment *)

(** X15.  The variables [ConfigurationToEnvironment] emits do not depend
    on the order in which the configuration map is ranged over. *)
Theorem ConfigurationToEnvironment_any_order (u : Unicode) (p : Plugin)
    (entries1 entries2 : list (string * Value)) :
  entries1 ≡ₚ map_to_list (Configuration p) →
  entries2 ≡ₚ map_to_list (Configuration p) →
  SortStrings (envSliceOver u p entries1)
  = SortStrings (envSliceOver u p entries2).
Proof.
  intros H1 H2.
  by rewrite !ConfigurationToEnvironment_order.
Qed.

(** The theorem at work on the two orders of the entries of
    [scenario3]. *)
Lemma ConfigurationToEnvironment_any_order_witness :
  SortStrings (envSliceOver Shell.noTables scenario3
                 [("run", VString "app");
                  ("env", VSlice [VString "A=1"; VString "B=2"])])
  = SortStrings (envSliceOver Shell.noTables scenario3
                   [("env", VSlice [VString "A=1"; VString "B=2"]);
                    ("run", VString "app")]).
Proof.
  apply (ConfigurationToEnvironment_any_order Shell.noTables scenario3).
  - replace (map_to_list (Configuration scenario3))
      with [("env", VSlice [VString "A=1"; VString "B=2"]);
            ("run", VString "app")] by (vm_compute; reflexivity).
    apply perm_swap.
  - replace (map_to_list (Configuration scenario3))
      with [("env", VSlice [VString "A=1"; VString "B=2"]);
            ("run", VString "app")] by (vm_compute; reflexivity).
    reflexivity.
Defined.

(** *** CreatePluginsFromList *)

(** X16.  [CreatePluginsFromList] gives one plugin per name, in the order
    of the names: the plugin that [CreatePlugin] makes of the resolved,
    trimmed name.  Its configuration is empty and its version holds no
    [#]. *)
Theorem CreatePluginsFromList_each (net : NetURL) (names : list string)
    (plugins : list Plugin) :
  CreatePluginsFromList net names = Some plugins →
  Forall2 (λ name plugin,
             ∃ location, ResolvePluginLocation net (TrimSpace name)
                         = Some location
                         ∧ CreatePlugin net location ∅ = Some plugin)
          names plugins
  ∧ Forall (λ plugin, Configuration plugin = ∅
                      ∧ Count (Version plugin) "#" = 0) plugins.
Proof.
  unfold CreatePluginsFromList. intros H.
  assert (Forall2 (λ name plugin,
             ∃ location, ResolvePluginLocation net (TrimSpace name)
                         = Some location
                         ∧ CreatePlugin net location ∅ = Some plugin)
          names plugins) as Hall.
  { change plugins with ([] ++ plugins) in H.
    assert (∀ acc result,
              each (λ plugins part,
                match ResolvePluginLocation net (TrimSpace part) with
                | None => None
                | Some resolved =>
                    match CreatePlugin net resolved ∅ with
                    | None => None
                    | Some plugin => Some (plugins ++ [plugin])
                    end
                end) acc names = Some result →
              ∃ new, result = acc ++ new
                ∧ Forall2 (λ name plugin,
                     ∃ location, ResolvePluginLocation net (TrimSpace name)
                                 = Some location
                                 ∧ CreatePlugin net location ∅ = Some plugin)
                    names new) as Hgen.
    { clear. induction names as [|name names IH]; intros acc result.
      - intros [= <-]. exists []. by rewrite List.app_nil_r.
      - cbn [each].
        destruct (ResolvePluginLocation net (TrimSpace name))
          as [location|] eqn:Hr; [|done].
        destruct (CreatePlugin net location ∅) as [plugin|] eqn:Hp; [|done].
        intros (new & -> & Hnew)%IH. exists (plugin :: new).
        split; [by rewrite <- List.app_assoc|].
        constructor; [by exists location|done]. }
    apply Hgen in H as (new & Hnew & H). simpl in Hnew. by subst. }
  split; [done|].
  apply Forall_forall. intros plugin [i Hi]%list_elem_of_lookup.
  destruct (Forall2_lookup_r _ _ _ _ _ Hall Hi)
    as (name & _ & location & _ & Hp).
  unfold CreatePlugin in Hp.
  destruct (Parse net location) as [url|]; [|done].
  destruct (negb (String.eqb (Fragment url) "")) eqn:Hv.
  - destruct (0 <? Count (Fragment url) "#") eqn:Hc; [done|].
    injection Hp as <-. split; [done|]. simpl.
    apply Nat.ltb_ge in Hc. lia.
  - injection Hp as <-. split; [done|]. simpl.
    apply negb_false_iff, String.eqb_eq in Hv. by rewrite Hv.
Qed.

(** The theorem at work on a list of two names. *)
Lemma CreatePluginsFromList_each_witness :
  Forall (λ plugin, Configuration plugin = ∅
                    ∧ Count (Version plugin) "#" = 0)
    [ {| Location := "github.com/buildkite-plugins/docker-compose";
         Version := "v1.2"; Scheme := "https"; Authentication := "";
         Configuration := ∅ |};
      {| Location := "github.com/owner/repo";
         Version := "master"; Scheme := "https"; Authentication := "";
         Configuration := ∅ |} ].
Proof.
  apply (CreatePluginsFromList_each plainURL
           [" docker-compose#v1.2"; "owner/repo "]).
  vm_compute. reflexivity.
Defined.

End PluginProps.

(** ** agent/header_times_streamer.go: Scan and Upload together *)

Module StreamerProps.
Import Go GoFacts GoLemmas Agent StreamerSpec.

(** *** Calls that follow one another *)

Lemma chained_bound (from : nat) (uploads : list uploadCall) (to : nat) :
  chained from uploads to →
  from ≤ to ∧ Forall (λ c, from ≤ callFrom c ∧ callTo c ≤ to) uploads.
Proof.
  revert from. induction uploads as [|c uploads IH]; intros from; simpl.
  - intros ->. by split.
  - intros (Hf & Hlt & [Hle Hall]%IH). split; [lia|].
    constructor; [lia|]. eapply Forall_impl; [exact Hall|].
    simpl. intros c'. lia.
Qed.

Lemma chained_snoc (from : nat) (uploads : list uploadCall) (to : nat)
    (c : uploadCall) :
  chained from uploads to → callFrom c = to → to < callTo c →
  chained from (uploads ++ [c]) (callTo c).
Proof.
  revert from. induction uploads as [|c' uploads IH]; intros from; simpl.
  - intros -> Hc Hlt. done.
  - intros (Hf & Hlt & Hch) Hc Hto. split_and!; [done|done|]. by apply IH.
Qed.

Lemma carries_snoc (ts : list string) (now : string) (c : uploadCall) :
  callTo c ≤ length ts → carries ts c → carries (ts ++ [now]) c.
Proof.
  intros Hto Hc k t. rewrite (Hc k t). split.
  - intros (i & -> & Hi & Ht). exists i. split_and!; try done; try lia.
    by rewrite lookup_app_l by lia.
  - intros (i & -> & Hi & Ht). exists i. split_and!; try done; try lia.
    by rewrite lookup_app_l in Ht by lia.
Qed.

(** [Upload] on a streamer whose wait group counts the pending times. *)
Lemma Upload_settled (h : headerTimesStreamer) :
  cursor h ≤ length (times h) →
  uploadWaitGroup h = Z.of_nat (length (times h) - cursor h) →
  Upload h
  = Ok ({| times := times h; cursor := length (times h);
           uploadWaitGroup := 0 |},
        if cursor h =? length (times h) then None
        else Some {| callFrom := cursor h; callTo := length (times h);
                     callPayload :=
                       makePayload (cursor h)
                         (drop (cursor h)
                            (take (length (times h)) (times h))) |}).
Proof.
  intros Hcur Hwg. unfold Upload.
  destruct (Nat.ltb_spec (length (times h)) (cursor h)) as [?|_]; [lia|].
  set (pending := drop (cursor h) (take (length (times h)) (times h))).
  assert (Hlen : length pending = length (times h) - cursor h).
  { unfold pending. by rewrite firstn_all, length_drop. }
  cbn [times cursor uploadWaitGroup]. rewrite Hlen, Hwg.
  destruct (Nat.eqb_spec (length (times h) - cursor h) 0) as [Hz|Hnz].
  - destruct (Nat.eqb_spec (cursor h) (length (times h))) as [_|?]; [|lia].
    do 3 f_equal. lia.
  - destruct (Nat.eqb_spec (cursor h) (length (times h))) as [?|_]; [lia|].
    destruct (Z.ltb_spec
                (Z.of_nat (length (times h) - cursor h)
                 + Z.of_nat (length (times h) - cursor h) * -1) 0)
      as [?|_]; [lia|].
    do 3 f_equal. lia.
Qed.

Lemma carries_pending (h : headerTimesStreamer) :
  cursor h ≤ length (times h) →
  carries (times h)
    {| callFrom := cursor h; callTo := length (times h);
       callPayload :=
         makePayload (cursor h)
           (drop (cursor h) (take (length (times h)) (times h))) |}.
Proof.
  intros Hcur k t. cbn [callFrom callTo callPayload]. split.
  - intros (j & -> & Hj)%makePayload_keys. rewrite pending_lookup in Hj.
    exists (cursor h + j). split_and!; [done|lia| |done].
    apply lookup_lt_Some in Hj. lia.
  - intros (i & -> & Hi & Ht).
    replace i with (cursor h + (i - cursor h)) at 1 by lia.
    rewrite makePayload_lookup, pending_lookup. rewrite <- Ht. f_equal. lia.
Qed.

Lemma Scan_settled (now line : string) (h : headerTimesStreamer)
    (uploads : list uploadCall) :
  settled h uploads → settled (Scan now line h).1 uploads.
Proof.
  intros (Hcur & Hwg & Hch & Hcar). unfold Scan.
  destruct (negb (headerRE (stripColours 0 line))); [done|].
  cbn [fst]. unfold settled, addTime, appendTime.
  cbn [times cursor uploadWaitGroup]. rewrite List.length_app. cbn [length].
  split_and!; [lia|lia|done|].
  apply chained_bound in Hch as [_ Hb].
  apply Forall_forall. intros c Hc.
  apply carries_snoc.
  - rewrite Forall_forall in Hb. specialize (Hb c Hc). lia.
  - rewrite Forall_forall in Hcar. by apply Hcar.
Qed.

Lemma invoke_settled (l : list invocation) (h : headerTimesStreamer)
    (uploads : list uploadCall) :
  settled h uploads →
  ∃ h' uploads', invoke h uploads l = Ok (h', uploads') ∧ settled h' uploads'.
Proof.
  revert h uploads. induction l as [|[now line|] l IH]; intros h uploads Hs.
  - by exists h, uploads.
  - cbn [invoke]. by apply IH, Scan_settled.
  - cbn [invoke]. destruct Hs as (Hcur & Hwg & Hch & Hcar).
    rewrite Upload_settled by done.
    destruct (Nat.eqb_spec (cursor h) (length (times h))) as [He|Hne].
    + apply IH. unfold settled. cbn [times cursor uploadWaitGroup].
      split_and!; [done|lia|by rewrite <- He|done].
    + apply IH. unfold settled. cbn [times cursor uploadWaitGroup].
      split_and!; [done|lia| |].
      * apply (chained_snoc 0 uploads (cursor h)
                 {| callFrom := cursor h; callTo := length (times h);
                    callPayload := _ |}); [done|done|].
        cbn [callTo]. lia.
      * apply Forall_app. split; [done|]. constructor; [|done].
        by apply carries_pending.
Qed.

Lemma settled_new : settled newHeaderTimesStreamer [].
Proof. by split_and!. Qed.

(** X17.  Calls of [Scan] and [Upload] that follow one another on a new
    streamer never panic; after each of them the cursor is within the
    recorded times and the wait group counts the times that have not
    been handed to the upload callback yet. *)
Theorem invoke_never_panics (l : list invocation) :
  ∃ h uploads,
    invoke newHeaderTimesStreamer [] l = Ok (h, uploads)
    ∧ cursor h ≤ length (times h)
    ∧ uploadWaitGroup h = Z.of_nat (length (times h) - cursor h).
Proof.
  destruct (invoke_settled l _ _ settled_new)
    as (h & uploads & Hrun & Hcur & Hwg & _).
  by exists h, uploads.
Qed.

Lemma invoke_app (l1 l2 : list invocation) (h : headerTimesStreamer)
    (uploads : list uploadCall) :
  invoke h uploads (l1 ++ l2)
  = match invoke h uploads l1 with
    | Ok (h, uploads) => invoke h uploads l2
    | Panic msg => Panic msg
    end.
Proof.
  revert h uploads. induction l1 as [|[now line|] l1 IH]; intros h uploads.
  - done.
  - cbn [invoke app]. apply IH.
  - cbn [invoke app]. destruct (Upload h) as [[h' [c|]]|msg]; [apply IH..|done].
Qed.

(** X18.  When a last [Upload] has followed the calls, every recorded
    time has been handed to the upload callback exactly once: the index
    ranges of the uploads follow one another from zero to the number of
    times, each upload carries the times of its range under their
    decimal indexes and nothing else, and the wait group is back at
    zero, so that [Stop] does not wait. *)
Theorem invoke_flushes_once (l : list invocation) :
  ∃ h uploads,
    invoke newHeaderTimesStreamer [] (l ++ [DoUpload]) = Ok (h, uploads)
    ∧ uploadWaitGroup h = 0%Z
    ∧ cursor h = length (times h)
    ∧ chained 0 uploads (length (times h))
    ∧ Forall (carries (times h)) uploads.
Proof.
  destruct (invoke_settled (l ++ [DoUpload]) _ _ settled_new)
    as (h & uploads & Hrun & Hcur & Hwg & Hch & Hcar).
  exists h, uploads.
  assert (cursor h = length (times h)) as Hc.
  { rewrite invoke_app in Hrun.
    destruct (invoke_settled l _ _ settled_new)
      as (h1 & uploads1 & H1 & Hcur1 & Hwg1 & _).
    rewrite H1 in Hrun. cbn [invoke] in Hrun.
    rewrite Upload_settled in Hrun by done.
    destruct (cursor h1 =? length (times h1)); by injection Hrun as <- _. }
  split_and!; [done|lia|done|by rewrite <- Hc|done].
Qed.

(** X19.  [Scan] appends the time before it adds to the wait group, and
    holds no lock in between.  An [Upload] that runs between the two
    steps takes the new time with it and subtracts it from a wait group
    that does not count it yet: the counter turns negative and [Upload]
    panics. *)
Theorem Upload_between_append_and_add (now : string)
    (h : headerTimesStreamer) :
  cursor h ≤ length (times h) →
  uploadWaitGroup h = Z.of_nat (length (times h) - cursor h) →
  (∀ line, headerRE (stripColours 0 line) = true →
           Scan now line h = (addTime (appendTime now h), true))
  ∧ Upload (appendTime now h) = Panic "sync: negative WaitGroup counter"
  ∧ ∃ h' c, Upload (addTime (appendTime now h)) = Ok (h', Some c).
Proof.
  intros Hcur Hwg. split_and!.
  - intros line Hline. unfold Scan. by rewrite Hline.
  - unfold Upload, appendTime. cbn [times cursor uploadWaitGroup].
    rewrite firstn_all, length_drop, List.length_app. cbn [length].
    destruct (Nat.ltb_spec (length (times h) + 1) (cursor h)) as [?|_]; [lia|].
    destruct (Nat.eqb_spec (length (times h) + 1 - cursor h) 0) as [?|_];
      [lia|].
    destruct (Z.ltb_spec
                (uploadWaitGroup h
                 + Z.of_nat (length (times h) + 1 - cursor h) * -1) 0)
      as [_|?]; [done|lia].
  - rewrite Upload_settled; cbn [addTime appendTime times cursor
                                  uploadWaitGroup];
      rewrite ?List.length_app; cbn [length]; [|lia|lia].
    destruct (Nat.eqb_spec (cursor h) (length (times h) + 1)) as [?|_]; [lia|].
    by eexists _, _.
Qed.

(** The theorem at work on the first header of a new streamer. *)
Lemma Upload_between_append_and_add_witness :
  Upload (appendTime "2016-05-04T03:02:01Z" newHeaderTimesStreamer)
  = Panic "sync: negative WaitGroup counter".
Proof.
  apply (Upload_between_append_and_add "2016-05-04T03:02:01Z"
           newHeaderTimesStreamer); [simpl; lia|reflexivity].
Defined.

(** *** Colour sequences *)

Lemma stripColours_skip (a r : string) (k : nat) :
  stripColours (String.length a + k) (a +:+ r) = stripColours k r.
Proof.
  induction a as [|c a IH]; [done|].
  rewrite app_cons. cbn [String.length Nat.add stripColours]. apply IH.
Qed.

Lemma final_not_param (c : ascii) : isFinal c = true → isParam c = false.
Proof.
  unfold isFinal, isParam, isDigit, between, isByte.
  intros [H|H]%orb_prop; apply N.eqb_eq in H; by rewrite H.
Qed.

Lemma colourAt_sequence (params : string) (final : ascii) (line : string) :
  all isParam params = true → isFinal final = true →
  colourAt (ESC +:+ "[" +:+ params +:+ String final line)
  = Some (3 + String.length params).
Proof.
  intros Hp Hf.
  change (ESC +:+ "[" +:+ params +:+ String final line)
    with (String "027" (String "[" (params +:+ String final line))).
  cbn [colourAt]. change (isByte 27 "027" && isByte 91 "[") with true.
  cbv iota. rewrite (span_all isParam params (String final line)); [|done|].
  - cbv iota beta. by rewrite Hf.
  - cbn [span]. by rewrite (final_not_param _ Hf).
Qed.

Lemma colourAt_ESC (s : string) (n : nat) :
  colourAt s = Some n → ∃ r, s = String "027" r.
Proof.
  destruct s as [|e [|b r]]; [done|done|]. cbn [colourAt].
  destruct (isByte 27 e) eqn:He; [|done]. intros _.
  unfold isByte, code in He. apply N.eqb_eq in He.
  exists (String b r). f_equal.
  by rewrite <- (ascii_N_embedding e), He.
Qed.

(** X20.  A colour sequence in front of a line does not hide its header
    from [Scan], and a line without an escape character is tested as it
    is. *)
Theorem Scan_colour_prefix (now params : string) (final : ascii)
    (line : string) (h : headerTimesStreamer) :
  all isParam params = true → isFinal final = true →
  Scan now (ESC +:+ "[" +:+ params +:+ String final line) h = Scan now line h
  ∧ (all (λ c, negb (isByte 27 c)) line = true → stripColours 0 line = line).
Proof.
  intros Hp Hf. split.
  - unfold Scan.
    assert (stripColours 0 (ESC +:+ "[" +:+ params +:+ String final line)
            = stripColours 0 line) as ->; [|done].
    pose proof (colourAt_sequence params final line Hp Hf) as Hc.
    change (ESC +:+ "[" +:+ params +:+ String final line)
      with (String "027" (String "[" (params +:+ String final line))) in *.
    cbn [stripColours]. rewrite Hc.
    replace (3 + String.length params - 1)
      with (S (String.length params + 1)) by lia.
    cbn [stripColours]. rewrite stripColours_skip. done.
  - clear. induction line as [|c line IH]; [done|]. cbn [all].
    intros [Hc Hl]%andb_prop. cbn [stripColours].
    destruct (colourAt (String c line)) as [n|] eqn:Hn.
    + apply colourAt_ESC in Hn as (r & [= -> _]). done.
    + by rewrite IH.
Qed.

(** The theorem at work on a header written in bold green. *)
Lemma Scan_colour_prefix_witness :
  Scan "2016-05-04T03:02:01Z" (ESC +:+ "[" +:+ "1;32" +:+ String "m" "--- build")
    newHeaderTimesStreamer
  = ({| times := ["2016-05-04T03:02:01Z"]; cursor := 0;
        uploadWaitGroup := 1 |}, true).
Proof.
  destruct (Scan_colour_prefix "2016-05-04T03:02:01Z" "1;32" "m" "--- build"
              newHeaderTimesStreamer) as [H _]; [reflexivity..|].
  rewrite H. reflexivity.
Defined.

End StreamerProps.

(** ** agent/artifact_uploader.go: what Collect returns *)

Module ArtifactProps.
Import Go GoFacts GoLemmas Agent ArtifactSpec.

Lemma each_preserves_in {S A : Type} (P : S → Prop) (body : S → A → option S)
    (l : list A) :
  (∀ st x st', x ∈ l → P st → body st x = Some st' → P st') →
  ∀ st st', P st → each body st l = Some st' → P st'.
Proof.
  induction l as [|x l IH]; intros Hbody st st' Hst; simpl.
  - by intros [= <-].
  - destruct (body st x) as [st1|] eqn:Hx; [|done].
    apply IH.
    + intros st2 y st3 Hy. apply Hbody. by apply list_elem_of_further.
    + eapply Hbody; [apply list_elem_of_here|exact Hst|exact Hx].
Qed.

Section Collecting.
Context (w : World) (conf : ArtifactUploaderConfig) (wd0 : string)
  (prospects : list string).

Lemma dirStep_walking (st : collecting) (prospect : string)
    (st' : collecting) :
  prospect ∈ prospects → walking w conf wd0 prospects st →
  dirStep w conf st prospect = Some st' → walking w conf wd0 prospects st'.
Proof.
  intros Hin Hst. unfold dirStep.
  destruct (String.eqb_spec (TrimSpace prospect) "") as [|Hne];
    [by intros [= <-]|].
  destruct (Abs w (TrimSpace prospect)) as [absolutePath|] eqn:Habs; [|done].
  destruct (bool_decide _); [by intros [= <-]|].
  destruct (isDir w absolutePath) eqn:Hdir; [|by intros [= <-]].
  apply (each_preserves_in (walking w conf wd0 prospects)); [|done].
  clear st st' Hst. intros st e st' He [Hwd Hall]. unfold walkFn.
  destruct (walkFailed e) eqn:Hfail; [done|].
  destruct (bool_decide _); [by intros [= <-]|].
  destruct (walkIsDir e) eqn:Hd; [by intros [= <-]|].
  destruct (if GlobResolveFollowSymlinks conf
            then EvalSymlinks w (walkPath e) else Some (walkPath e))
    as [resolved|] eqn:Hres; [|done].
  destruct (Rel w (wd st) resolved) as [rel|] eqn:Hrel; [|done].
  destruct (build w conf _ (walkPath e) (TrimSpace prospect))
    as [a|] eqn:Hbuild; [|done].
  intros [= <-]. split; [done|]. cbn [artifacts].
  apply Forall_app. split; [done|]. constructor; [|done].
  rewrite Hwd in Hrel.
  by eapply (Walked w conf wd0 prospects a prospect).
Qed.

Lemma globStep_globbing (st : collecting) (prospect : string)
    (st' : collecting) :
  prospect ∈ prospects → globbing w conf wd0 prospects st →
  globStep w conf st prospect = Some st' → globbing w conf wd0 prospects st'.
Proof.
  intros Hin Hst. unfold globStep.
  destruct (String.eqb_spec (TrimSpace prospect) "") as [|Hne];
    [by intros [= <-]|].
  destruct (resolveGlob w conf (TrimSpace prospect))
    as [[files|]|] eqn:Hglob; [|by intros [= <-]|done].
  apply (each_preserves_in (globbing w conf wd0 prospects)); [|done].
  clear st st' Hst. intros st file st' Hfile [Hwd Hall]. unfold fileStep.
  destruct (Abs w file) as [absolutePath|] eqn:Habs; [|done].
  destruct (bool_decide _); [by intros [= <-]|].
  cbn [wd seenPaths artifacts].
  destruct (isDir w absolutePath) eqn:Hdir; [by intros [= <-]|].
  destruct (UploadSkipSymlinks conf && isSymlink w absolutePath) eqn:Hskip;
    [by intros [= <-]|].
  set (wd' := if IsAbs w (TrimSpace prospect)
              then if String.eqb (goos w) "windows"
                   then VolumeName w absolutePath +:+ "/" else "/"
              else wd st).
  assert (wd' = wd0
          ∨ ∃ earlier, earlier ∈ prospects
                       ∧ IsAbs w (TrimSpace earlier) = true) as Hwd'.
  { unfold wd'. destruct (IsAbs w (TrimSpace prospect)) eqn:Hisabs; [|done].
    right. by exists prospect. }
  destruct (Rel w wd' absolutePath) as [rel|] eqn:Hrel; [|done].
  destruct (build w conf _ absolutePath (TrimSpace prospect))
    as [a|] eqn:Hbuild; [|done].
  intros [= <-]. split; [done|]. cbn [artifacts].
  apply Forall_app. split; [done|]. constructor; [|done].
  by eapply (Globbed w conf wd0 prospects a prospect files file
               absolutePath wd' rel).
Qed.

End Collecting.

(** Every artifact that [Collect] returns has one of the two origins. *)
Lemma Collect_origin (w : World) (conf : ArtifactUploaderConfig)
    (collection : list Artifact) :
  Collect w conf = Some collection →
  ∃ wd0, Getwd w = Some wd0
         ∧ Forall (origin w conf wd0
                     (Split (Paths conf) ArtifactPathDelimiter))
                  collection.
Proof.
  unfold Collect. destruct (Getwd w) as [wd0|]; [|done].
  set (prospects := Split (Paths conf) ArtifactPathDelimiter).
  destruct (each (dirStep w conf) _ prospects) as [st1|] eqn:H1; [|done].
  destruct (each (globStep w conf) st1 prospects) as [st2|] eqn:H2; [|done].
  intros [= <-]. exists wd0. split; [done|].
  assert (walking w conf wd0 prospects st1) as [Hwd Hall].
  { revert H1. apply (each_preserves_in (walking w conf wd0 prospects)).
    - intros st x st' Hx. by apply dirStep_walking.
    - split; [done|constructor]. }
  assert (globbing w conf wd0 prospects st2) as [_ Hall2]; [|done].
  revert H2. apply (each_preserves_in (globbing w conf wd0 prospects)).
  - intros st x st' Hx. by apply globStep_globbing.
  - split; [by left|done].
Qed.

Lemma build_fields (w : World) (conf : ArtifactUploaderConfig)
    (path absolutePath globPath : string) (a : Artifact) :
  build w conf path absolutePath globPath = Some a →
  artPath a = path ∧ AbsolutePath a = absolutePath ∧ GlobPath a = globPath
  ∧ (∃ data, openFile w absolutePath = Some data
             ∧ FileSize a = dataSize data ∧ Sha1Sum a = dataSha1 data
             ∧ Sha256Sum a = dataSha256 data)
  ∧ artContentType a ≠ ""
  ∧ (ContentType conf ≠ "" → artContentType a = ContentType conf)
  ∧ (ContentType conf = "" →
     artContentType a
     = if String.eqb (TypeByExtension w (Ext w absolutePath)) ""
       then ArtifactFallbackMimeType
       else TypeByExtension w (Ext w absolutePath)).
Proof.
  unfold build. destruct (openFile w absolutePath) as [data|]; [|done].
  intros [= <-]. cbn. split_and!; try done.
  - by exists data.
  - destruct (String.eqb_spec (ContentType conf) ""); [|done].
    by destruct (String.eqb_spec
                   (TypeByExtension w (Ext w absolutePath)) "").
  - intros H. by destruct (String.eqb_spec (ContentType conf) "").
  - by intros ->.
Qed.

(** X21.  Every artifact that [Collect] returns carries the size and the
    digests of the file at its absolute path, a content type that is
    not empty (the configured one, if one is configured; otherwise the
    MIME type that [mime.TypeByExtension] gives for the extension of the
    absolute path, or [ArtifactFallbackMimeType] when it gives none),
    and as glob path one of the prospects, trimmed and not empty. *)
Theorem Collect_built (w : World) (conf : ArtifactUploaderConfig)
    (collection : list Artifact) :
  Collect w conf = Some collection →
  ∀ a, a ∈ collection →
    (∃ data, openFile w (AbsolutePath a) = Some data
             ∧ FileSize a = dataSize data ∧ Sha1Sum a = dataSha1 data
             ∧ Sha256Sum a = dataSha256 data)
    ∧ artContentType a ≠ ""
    ∧ (ContentType conf ≠ "" → artContentType a = ContentType conf)
    ∧ GlobPath a ≠ ""
    ∧ (∃ prospect, prospect ∈ Split (Paths conf) ArtifactPathDelimiter
                   ∧ GlobPath a = TrimSpace prospect)
    ∧ (ContentType conf = "" →
       artContentType a
       = if String.eqb (TypeByExtension w (Ext w (AbsolutePath a))) ""
         then ArtifactFallbackMimeType
         else TypeByExtension w (Ext w (AbsolutePath a))).
Proof.
  intros (wd0 & _ & Hall)%Collect_origin a Ha.
  rewrite Forall_forall in Hall.
  destruct (Hall a Ha)
    as [prospect abs e resolved rel Hin Hne _ _ _ _ _ _ _ Hb
       |prospect files file abs wd rel Hin Hne _ _ _ _ _ _ _ Hb];
    apply build_fields in Hb as (_ & <- & -> & Hdata & Hct & Hconf & Hmime);
    split_and!; try done; by exists prospect.
Qed.

(** The theorem at work on a file and a directory of [symlinkWorld]. *)
Lemma Collect_built_witness :
  ∃ collection,
    Collect symlinkWorld (uploadOf "a.log; out") = Some collection
    ∧ length collection = 3
    ∧ ∀ a, a ∈ collection →
        artContentType a = "text/plain"
        ∧ ∃ prospect, prospect ∈ ["a.log"; " out"]
                      ∧ GlobPath a = TrimSpace prospect.
Proof.
  eexists. split; [vm_compute; reflexivity|]. split; [reflexivity|].
  intros a Ha.
  destruct (Collect_built symlinkWorld (uploadOf "a.log; out") _
              ltac:(vm_compute; reflexivity) a Ha)
    as (_ & _ & _ & _ & H2 & H3).
  split; [exact (H3 eq_refl)|exact H2].
Defined.



(** X23.  With [UploadSkipSymlinks], no file matched by a pattern is
    collected if it is a symbolic link; a symbolic link among the
    artifacts has been met by the walk of a prospect that is a
    directory, which does not look at the setting. *)
Theorem Collect_symlinks (w : World) (conf : ArtifactUploaderConfig)
    (collection : list Artifact) :
  UploadSkipSymlinks conf = true →
  Collect w conf = Some collection →
  ∀ a, a ∈ collection → isSymlink w (AbsolutePath a) = true →
    ∃ absolutePath e,
      Abs w (GlobPath a) = Some absolutePath
      ∧ isDir w absolutePath = true
      ∧ e ∈ WalkDir w absolutePath
      ∧ walkPath e = AbsolutePath a.
Proof.
  intros Hskip (wd0 & _ & Hall)%Collect_origin a Ha Hlink.
  rewrite Forall_forall in Hall.
  destruct (Hall a Ha)
    as [prospect abs e resolved rel _ _ Habs Hdir He _ _ _ _ Hb
       |prospect files file abs wd rel _ _ _ _ _ _ Hs _ _ Hb];
    apply build_fields in Hb as (_ & Hp & Hg & _).
  - exists abs, e. by rewrite Hg, Hp.
  - rewrite Hskip, <- Hp, Hlink in Hs. done.
Qed.

(** The theorem at work: the symbolic link [b.log] is skipped, the
    symbolic link [out/y.log], met by the walk of [out], is collected. *)
Lemma Collect_symlinks_witness :
  ∃ collection,
    Collect symlinkWorld (skippingLinks "b.log;out") = Some collection
    ∧ AbsolutePath <$> collection = ["/w/out/x.log"; "/w/out/y.log"]
    ∧ ∀ a, a ∈ collection → isSymlink symlinkWorld (AbsolutePath a) = true →
        ∃ absolutePath e,
          Abs symlinkWorld (GlobPath a) = Some absolutePath
          ∧ isDir symlinkWorld absolutePath = true
          ∧ e ∈ WalkDir symlinkWorld absolutePath
          ∧ walkPath e = AbsolutePath a.
Proof.
  eexists. split; [vm_compute; reflexivity|]. split; [reflexivity|].
  apply (Collect_symlinks symlinkWorld (skippingLinks "b.log;out"));
    reflexivity.
Defined.

(** X24.  Prospects that are empty or white space are passed over: when
    there is no other, [Collect] returns no artifact and looks at
    nothing but the working directory. *)
Theorem Collect_blank (w : World) (conf : ArtifactUploaderConfig) :
  Forall (λ prospect, TrimSpace prospect = "")
         (Split (Paths conf) ArtifactPathDelimiter) →
  Collect w conf = (λ _, []) <$> Getwd w.
Proof.
  intros Hblank. unfold Collect. destruct (Getwd w) as [wd0|]; [|done].
  assert (∀ st, each (dirStep w conf) st
                  (Split (Paths conf) ArtifactPathDelimiter) = Some st) as ->.
  { induction Hblank as [|prospect l Hp _ IH]; intros st; [done|].
    cbn [each]. unfold dirStep at 1. rewrite Hp. apply IH. }
  assert (∀ st, each (globStep w conf) st
                  (Split (Paths conf) ArtifactPathDelimiter) = Some st) as ->.
  { induction Hblank as [|prospect l Hp _ IH]; intros st; [done|].
    cbn [each]. unfold globStep at 1. rewrite Hp. apply IH. }
  done.
Qed.

(** The theorem at work on three blank prospects. *)
Lemma Collect_blank_witness :
  Collect symlinkWorld (uploadOf " ;;  ") = Some [].
Proof.
  apply (Collect_blank symlinkWorld (uploadOf " ;;  ")).
  repeat constructor.
Defined.

End ArtifactProps.

(** ** process/process.go and process/run.go *)

Module ProcessProps.
Import Go GoFacts GoLemmas Process ProcessSpec.

Lemma Start_running {W : Type} (ExitStatusOf : W → Z) (os : child W)
    (p : Process) :
  command p = true →
  run ExitStatusOf os p
  = (Return (Some "Process is already running"), {| proc := p; steps := [] |}).
Proof.
  intros Hcmd. unfold run, Start.
  cbv [mbind M_bind read when]. cbn [proc]. rewrite Hcmd. done.
Qed.

(** X25.  [Start] sets the command before anything else can fail, so a
    process can be started once: whatever became of the first call, a
    further call returns the error [Process is already running], takes
    no step and leaves the process as it is. *)
Theorem Start_once {W : Type} (ExitStatusOf : W → Z) (os os' : child W)
    (p : Process) :
  Script (conf p) ≠ [] →
  command (proc (run ExitStatusOf os p).2) = true
  ∧ run ExitStatusOf os' (proc (run ExitStatusOf os p).2)
    = (Return (Some "Process is already running"),
       {| proc := proc (run ExitStatusOf os p).2; steps := [] |}).
Proof.
  intros Hscript.
  assert (command (proc (run ExitStatusOf os p).2) = true) as Hcmd.
  { unfold run. cases p os; cbv -[getExitStatus timeoutWait];
      try destruct (timeoutWait _ _ _) as [err elapsed]; done. }
  split; [done|]. by apply Start_running.
Qed.

(** The theorem at work: after a start that has failed, a child that
    could be started is not started. *)
Lemma Start_once_witness :
  run linuxExitStatus exits3 (proc (run linuxExitStatus unstartable shell).2)
  = (Return (Some "Process is already running"),
     {| proc := proc (run linuxExitStatus unstartable shell).2; steps := [] |}).
Proof.
  apply (Start_once linuxExitStatus unstartable exits3 shell). discriminate.
Defined.

(** X26.  When the child cannot be started, [Start] stores the exit
    status 1 and returns the error at once: no pid is stored, nothing is
    waited for, and neither the started nor the done channel is closed,
    so that both stay as [Started] and [Done] hand them out. *)
Theorem Start_spawn_failure {W : Type} (ExitStatusOf : W → Z) (os : child W)
    (p : Process) :
  command p = false → Script (conf p) ≠ [] → spawned os = None →
  ∃ err m,
    run ExitStatusOf os p = (Return (Some err), m)
    ∧ ExitStatus (proc m) = "1"
    ∧ Pid (proc m) = Pid p
    ∧ started (proc m) = Some (Started p).2
    ∧ done (proc m) = Some (Done p).2
    ∧ steps m = (if PTY (conf p) then [] else [SetupProcessGroup])
                ++ [ExitStatusSet "1"].
Proof.
  intros Hcmd Hscript Hspawn. unfold run, Started, Done.
  cases p os; cbn [spawned] in Hspawn; try done;
    cbv -[getExitStatus timeoutWait]; by eexists _, _.
Qed.

(** The theorem at work on [unstartable]. *)
Lemma Start_spawn_failure_witness :
  ∃ err m,
    run linuxExitStatus unstartable shell = (Return (Some err), m)
    ∧ ExitStatus (proc m) = "1"
    ∧ Pid (proc m) = 0%Z
    ∧ started (proc m) = Some Open
    ∧ done (proc m) = Some Open
    ∧ steps m = [ExitStatusSet "1"].
Proof.
  apply (Start_spawn_failure linuxExitStatus unstartable shell);
    [reflexivity|discriminate|reflexivity].
Defined.

Ltac present := repeat (apply elem_of_cons; first [by left|right]).

(** X27.  The started channel is closed exactly when the child has been
    started: right after its pid has been stored, and before [Wait]
    returns. *)
Theorem started_closed_when_running {W : Type} (ExitStatusOf : W → Z)
    (os : child W) (p : Process) (fl : flow unit) (m : machine W) :
  command p = false → Script (conf p) ≠ [] → started p ≠ Some Closed →
  run ExitStatusOf os p = (fl, m) →
  (StartedClosed ∈ steps m ↔ is_Some (spawned os))
  ∧ (started (proc m) = Some Closed ↔ is_Some (spawned os))
  ∧ (∀ pid, spawned os = Some pid →
       Pid (proc m) = pid
       ∧ ∃ i, steps m !! i = Some (ChildStarted pid)
              ∧ steps m !! S i = Some StartedClosed
              ∧ ∀ j w, steps m !! j = Some (WaitReturned w) → S i < j).
Proof.
  intros Hcmd Hscript Hstarted Hrun. unfold run in Hrun. split_and!.
  - cases p os; cbn [spawned];
      cbv -[getExitStatus timeoutWait] in Hrun;
      try destruct (timeoutWait _ _ _) as [err elapsed];
      injection Hrun as <- <-; cbn [steps]; split; intros H;
      first [ by destruct H as [? [=]] | solve [present] | absent H
            | by eexists ].
  - cases p os; cbn [spawned];
      cbv -[getExitStatus timeoutWait] in Hrun;
      try destruct (timeoutWait _ _ _) as [err elapsed];
      injection Hrun as <- <-; cbn [proc started]; split; intros H;
      first [ done | by destruct H as [? [=]] | by eexists ].
  - intros childPid' Hspawn.
    cases p os; cbn [spawned] in Hspawn; try discriminate Hspawn;
      injection Hspawn as ->;
      cbv -[getExitStatus timeoutWait] in Hrun;
      try destruct (timeoutWait _ _ _) as [err elapsed];
      injection Hrun as <- <-; cbn [proc Pid steps]; (split; [done|]);
      first [ exists 0; split_and!; [reflexivity|reflexivity|]
            | exists 1; split_and!; [reflexivity|reflexivity|] ];
      intros j w Hj; repeat (destruct j as [|j]; try discriminate Hj); lia.
Qed.

(** The theorem at work on [exits3]. *)
Lemma started_closed_when_running_witness :
  StartedClosed ∈ steps (run linuxExitStatus exits3 shell).2
  ∧ started (proc (run linuxExitStatus exits3 shell).2) = Some Closed
  ∧ Pid (proc (run linuxExitStatus exits3 shell).2) = 4242%Z.
Proof.
  destruct (started_closed_when_running linuxExitStatus exits3 shell
              (run linuxExitStatus exits3 shell).1
              (run linuxExitStatus exits3 shell).2)
    as (H1 & H2 & H3); [reflexivity|discriminate|discriminate|reflexivity|].
  split_and!.
  - apply H1. by eexists.
  - apply H2. by eexists.
  - by apply (H3 4242%Z).
Defined.

(** X28.  [Done] and [Started] make their channel when it has not been
    made yet, store the channel that they hand out, and hand out the
    stored one from then on.  A call of either before [Start] changes
    nothing in what [Start] does, and [Start] works on the stored
    channel: when it returns nil, the done channel that was handed out
    was open and is closed now; when the child has been started, the
    started channel that was handed out was open and is closed now, or
    it was closed and [Start] has panicked at [close]; and where the
    done channel that was handed out is closed already, [Start] makes
    no other in its place: it does not return nil, closes nothing, and
    panics at [close] if it comes as far as [Wait]. *)
Theorem Done_before_Start {W : Type} (ExitStatusOf : W → Z) (os : child W)
    (p : Process) :
  command p = false → Script (conf p) ≠ [] →
  run ExitStatusOf os (Done p).1 = run ExitStatusOf os p
  ∧ run ExitStatusOf os (Started p).1 = run ExitStatusOf os p
  ∧ Done (Done p).1 = Done p
  ∧ Started (Started p).1 = Started p
  ∧ (done p = None → (Done p).2 = Open)
  ∧ (started p = None → (Started p).2 = Open)
  ∧ done (Done p).1 = Some (Done p).2
  ∧ started (Started p).1 = Some (Started p).2
  ∧ (∀ d, done p = Some d → Done p = (p, d))
  ∧ (∀ c, started p = Some c → Started p = (p, c))
  ∧ (∀ m, run ExitStatusOf os (Done p).1 = (Return None, m) →
       (Done p).2 = Open ∧ done (proc m) = Some Closed
       ∧ DoneClosed ∈ steps m)
  ∧ (∀ fl m, run ExitStatusOf os (Started p).1 = (fl, m) →
       is_Some (spawned os) →
       (Started p).2 = Open ∧ started (proc m) = Some Closed
       ∧ StartedClosed ∈ steps m
       ∨ (Started p).2 = Closed ∧ fl = Panics "close of closed channel"
         ∧ (StartedClosed ∉ steps m))
  ∧ (∀ fl m, run ExitStatusOf os (Done p).1 = (fl, m) →
       (Done p).2 = Closed →
       fl ≠ Return None ∧ (DoneClosed ∉ steps m)
       ∧ ∀ j w, steps m !! j = Some (WaitReturned w) →
           fl = Panics "close of closed channel").
Proof.
  intros Hcmd Hscript. split_and!.
  1-6: unfold run, Done, Started;
    cases p os; cbv -[getExitStatus timeoutWait];
    try destruct (timeoutWait _ _ _) as [err elapsed]; done.
  - apply Done_stores.
  - apply Started_stores.
  - intros d Hd. unfold Done. by rewrite Hd.
  - intros c Hc. unfold Started. by rewrite Hc.
  - intros m Hrun. unfold run, Done in *.
    cases p os; cbv -[getExitStatus timeoutWait] in Hrun |- *;
      try destruct (timeoutWait _ _ _) as [err elapsed];
      try discriminate Hrun; injection Hrun as <-; split_and!; try done;
      repeat (apply elem_of_cons; first [by left|right]).
  - intros fl m Hrun [pid' Hspawn]. unfold run, Started in *.
    cases p os; cbn [spawned] in Hspawn; try discriminate Hspawn;
      cbv -[getExitStatus timeoutWait] in Hrun |- *;
      try destruct (timeoutWait _ _ _) as [err elapsed];
      injection Hrun as <- <-;
      first [ solve [ left; split_and!; try done;
                      repeat (apply elem_of_cons; first [by left|right]) ]
            | right; split_and!; try done; intros Hin; absent Hin ].
  - intros fl m Hrun. unfold run, Done in *.
    cases p os; cbv -[getExitStatus timeoutWait] in Hrun |- *;
      try destruct (timeoutWait _ _ _) as [err elapsed];
      injection Hrun as <- <-; intros Hc; try discriminate Hc;
      (split_and!;
       [ done
       | intros Hin; absent Hin
       | intros j w Hj; repeat (destruct j as [|j]; try discriminate Hj);
         done ]).
Qed.

(** The theorem at work: the channel that [Done] hands out before
    [Start] is open and stored, and closed after [Start]. *)
Lemma Done_before_Start_witness :
  run linuxExitStatus exits3 (Done shell).1 = run linuxExitStatus exits3 shell
  ∧ (Done shell).2 = Open
  ∧ done (Done shell).1 = Some Open
  ∧ done (proc (run linuxExitStatus exits3 (Done shell).1).2) = Some Closed.
Proof.
  destruct (Done_before_Start linuxExitStatus exits3 shell)
    as (H1 & _ & _ & _ & H2 & _ & H3 & _ & _ & _ & H4 & _);
    [reflexivity|discriminate|].
  destruct (H4 (run linuxExitStatus exits3 (Done shell).1).2 eq_refl)
    as (_ & H5 & _).
  split_and!; [exact H1|by apply H2|exact H3|exact H5].
Defined.

(** *** Run *)

Lemma eqb_LF (c : ascii) : Ascii.eqb c "010" = isLF c.
Proof. apply eqb_isByte. Qed.

(** X29.  What [Run] returns is the output of the command without the
    line feeds at its two ends: it neither begins nor ends with a line
    feed, and only line feeds have been cut off.  An error of the
    command is returned as it is. *)
Theorem Run_trimmed (Output : string → list string → option string)
    (command : string) (arg : list string) :
  match Output command arg with
  | None => Run Output command arg = None
  | Some output =>
      ∃ result before after,
        Run Output command arg = Some result
        ∧ output = before +:+ result +:+ after
        ∧ all isLF before = true ∧ all isLF after = true
        ∧ HasPrefix result NEWLINE = false
        ∧ HasSuffix result NEWLINE = false
  end.
Proof.
  unfold Run. destruct (Output command arg) as [output|]; [|done].
  destruct (Trim_split output NEWLINE) as (a & b & Hsplit & Ha & Hb).
  assert (∀ s, all (inSet NEWLINE) s = all isLF s) as Hset.
  { intros s. unfold NEWLINE. induction s as [|c s IH]; [done|].
    cbn [all]. rewrite IH.
    change (inSet (String "010" "") c) with (Ascii.eqb c "010" || false).
    by rewrite orb_false_r, eqb_LF. }
  exists (Trim output NEWLINE), a, b.
  split_and!; [done|done|by rewrite <- Hset|by rewrite <- Hset| |].
  - unfold HasPrefix. destruct (Trim output NEWLINE) as [|c r] eqn:Ht; [done|].
    apply Trim_first in Ht. cbn [inSet NEWLINE] in Ht.
    rewrite orb_false_r in Ht. apply Ascii.eqb_neq in Ht.
    destruct (String.prefix NEWLINE (String c r)) eqn:Hp; [|done].
    by apply PluginSpec.prefix_cons in Hp as [<- _].
  - unfold HasSuffix. change (String.rev NEWLINE) with NEWLINE.
    destruct (String.rev (Trim output NEWLINE)) as [|c r] eqn:Ht; [done|].
    apply Trim_last in Ht. cbn [inSet NEWLINE] in Ht.
    rewrite orb_false_r in Ht. apply Ascii.eqb_neq in Ht.
    destruct (String.prefix NEWLINE (String c r)) eqn:Hp; [|done].
    by apply PluginSpec.prefix_cons in Hp as [<- _].
Qed.

End ProcessProps.

(** ** agent/s3_downloader.go *)

Module S3Props.
Import Go GoFacts GoLemmas S3.

(** *** The bucket of a download *)

Lemma TrimSuffix_app (s : string) (c : ascii) :
  TrimSuffix (s +:+ String c "") (String c "") = s.
Proof.
  unfold TrimSuffix, HasSuffix.
  rewrite rev_app. change (String.rev (String c "")) with (String c "").
  rewrite app_cons, app_nil_l. cbn [String.prefix].
  destruct (ascii_dec c c) as [_|?]; [|done].
  assert (String.prefix "" (String.rev s) = true) as -> by by destruct (String.rev s).
  rewrite length_app. cbn [String.length].
  replace (String.length s + 1 - 1) with (String.length s) by lia.
  clear. induction s as [|a s IH]; [done|]. rewrite app_cons. simpl.
  by rewrite IH.
Qed.

(** X30.  A bucket [s3://name/folder] is taken apart into the name and
    the folder, and a bucket [s3://name] into the name and an empty
    path; the methods never run out of the parts of the bucket.  The
    file location is the folder, a slash and the download path, whether
    or not the folder ends and the download path starts with a slash of
    its own. *)
Theorem BucketName_BucketPath (d : S3Downloader) (name : string) :
  free "/" name = true →
  (∀ folder file (trailing leading : bool),
     folder ≠ "" → HasSuffix folder "/" = false →
     HasPrefix file "/" = false →
     Bucket d = "s3://" +:+ name +:+ "/" +:+ folder
                +:+ (if trailing then "/" else "") →
     Path d = (if leading then "/" else "") +:+ file →
     BucketName d = Ok name
     ∧ BucketPath d = Ok (folder +:+ (if trailing then "/" else ""))
     ∧ BucketFileLocation d = Ok (folder +:+ "/" +:+ file))
  ∧ (Bucket d = "s3://" +:+ name →
     BucketName d = Ok name ∧ BucketPath d = Ok ""
     ∧ BucketFileLocation d = Ok (Path d))
  ∧ ∃ n p l, BucketName d = Ok n ∧ BucketPath d = Ok p
             ∧ BucketFileLocation d = Ok l.
Proof.
  intros Hname. split_and!.
  - intros folder file trailing leading Hne Hsuffix Hprefix Hb Hp.
    set (path := folder +:+ (if trailing then "/" else "")) in *.
    assert (destinationParts d = name :: Split path "/") as Hparts.
    { unfold destinationParts. rewrite Hb, TrimPrefix_app.
      change ("/" +:+ path) with (String "/" path). by apply Split_app. }
    unfold BucketFileLocation, BucketName, BucketPath. rewrite Hparts.
    rewrite Join_Split. split_and!; [done|done|].
    assert (path ≠ "") as Hpath.
    { unfold path. destruct folder; [done|]. by rewrite app_cons. }
    destruct (String.eqb_spec path "") as [|_]; [done|]. cbn [negb].
    do 2 f_equal.
    + unfold path. destruct trailing.
      * apply TrimSuffix_app.
      * rewrite app_nil_r. unfold TrimSuffix. by rewrite Hsuffix.
    + f_equal. rewrite Hp. destruct leading.
      * apply (TrimPrefix_app "/" file).
      * rewrite app_nil_l. unfold TrimPrefix. by rewrite Hprefix.
  - intros Hb.
    assert (destinationParts d = [name]) as Hparts.
    { unfold destinationParts. rewrite Hb, TrimPrefix_app.
      by apply Split_free. }
    unfold BucketFileLocation, BucketName, BucketPath. by rewrite Hparts.
  - unfold BucketFileLocation, BucketName, BucketPath, destinationParts.
    pose proof (Split_nonempty (TrimPrefix (Bucket d) "s3://") "/") as Hne.
    destruct (Split _ _) as [|n parts]; [done|].
    destruct (negb _); by eexists _, _, _.
Qed.

(** The theorem at work on [download]. *)
Lemma BucketName_BucketPath_witness :
  BucketName download = Ok "my-bucket-name"
  ∧ BucketPath download = Ok "foo/bar"
  ∧ BucketFileLocation download = Ok "foo/bar/logs/a.log".
Proof.
  destruct (BucketName_BucketPath download "my-bucket-name") as (H & _);
    [reflexivity|].
  by apply (H "foo/bar" "logs/a.log" false true).
Defined.

End S3Props.
